(** * Pulse module extraction: crawler and chunking, verified against the code

    A shallow embedding of the parts of [src/utils/crawler.py] (class
    [Crawler]) and [src/pulse/utils/extractor.py] (class [ModuleExtractor])
    that the specification's testable properties talk about.

    Conventions.
    - Python text ([str]) is a list of Unicode code points, [pystr].
    - URLs, which key every dictionary of the crawler, are [string]s of 8-bit
      characters read as code points 0..255.
    - Python [float] is IEEE binary64, taken from the Standard Library's
      executable specification [SpecFloat] at precision 53 and [emax] 1024.
    - Dictionaries are [gmap]s, the visited set is a [gset].
    - A call that can raise returns an [option] or an [outcome]; what the
      code catches is turned into the value its [except] branch returns.
    - Logging and the pacing delays ([time.sleep]) change no state and are
      left out. *)

From Stdlib Require Import ZArith NArith List Bool Ascii String Lia.
From Stdlib Require Import Floats.SpecFloat Sorting.Sorted.
From stdpp Require Import gmap strings list fin_maps.

Local Open Scope Z_scope.
Local Set Warnings "-register-all".

(** ** Python text *)

Module PyStr.

Abbreviation pystr := (list N).

(** [str.isspace] on one code point, as [str.split()] and [str.strip()] use
    it: the Unicode white space characters. *)
Definition isspace (c : N) : bool :=
  ((9 <=? c) && (c <=? 13) || (28 <=? c) && (c <=? 32) || (c =? 133)
   || (c =? 160) || (c =? 5760) || (8192 <=? c) && (c <=? 8202)
   || (c =? 8232) || (c =? 8233) || (c =? 8239) || (c =? 8287)
   || (c =? 12288))%N.

(** A Rocq string literal as Python text. *)
Fixpoint of_string (s : string) : pystr :=
  match s with
  | EmptyString => []
  | String a r => N_of_ascii a :: of_string r
  end.

Definition cons_first (c : N) (ws : list pystr) : list pystr :=
  match ws with
  | [] => [[c]]
  | w :: ws' => (c :: w) :: ws'
  end.

(** [text.split()]: the maximal runs of characters that are not white space,
    in order. *)
Fixpoint split (s : pystr) : list pystr :=
  match s with
  | [] => []
  | c :: r =>
      if isspace c then split r
      else match r with
           | [] => [[c]]
           | d :: _ => if isspace d then [c] :: split r
                       else cons_first c (split r)
           end
  end.

(** [sep.join(ws)]. *)
Fixpoint join (sep : pystr) (ws : list pystr) : pystr :=
  match ws with
  | [] => []
  | [w] => w
  | w :: ws' => w ++ sep ++ join sep ws'
  end.

Definition space : pystr := [32%N].

(** [text.strip()]. *)
Fixpoint lstrip (s : pystr) : pystr :=
  match s with
  | [] => []
  | c :: r => if isspace c then lstrip r else s
  end.

Definition rstrip (s : pystr) : pystr := rev (lstrip (rev s)).

Definition strip (s : pystr) : pystr := rstrip (lstrip s).

(** A word as [split] produces them: not empty, no white space inside. *)
Definition is_word (w : pystr) : Prop :=
  w <> [] /\ Forall (fun c => isspace c = false) w.

End PyStr.

(** ** Python floats: IEEE binary64 *)

Module PyFloat.

Definition prec : Z := 53.
Definition emax : Z := 1024.

Abbreviation float := spec_float.

(** [float(n)] for a Python [int], rounded to nearest even. *)
Definition of_Z (n : Z) : float := binary_normalize prec emax n 0 false.

Definition add : float -> float -> float := SFadd prec emax.
Definition mul : float -> float -> float := SFmul prec emax.
Definition div : float -> float -> float := SFdiv prec emax.

(** The literals [0.75] and [0.7] as binary64 values:
    [0.75 = 3 * 2^-2] exactly, [0.7] is [0x3FE6666666666666]. *)
Definition f0_75 : float := S754_finite false 6755399441055744 (-53).
Definition f0_7 : float := S754_finite false 6305039478318694 (-53).

(** The signed mantissa of a finite value. *)
Definition signed (s : bool) (m : positive) : Z :=
  if s then Zneg m else Zpos m.

(** Python compares a [float] with an [int] exactly, without converting the
    [int]; a NaN compares false with everything. [gt_Z x z] is [x > z],
    [le_Z x z] is [x <= z], [Z_gt z x] is [z > x]. *)
Definition gt_Z (x : float) (z : Z) : bool :=
  match x with
  | S754_nan => false
  | S754_infinity s => negb s
  | S754_zero _ => z <? 0
  | S754_finite s m e =>
      match e with
      | Zneg p => z * 2 ^ Zpos p <? signed s m
      | _ => z <? signed s m * 2 ^ e
      end
  end.

Definition le_Z (x : float) (z : Z) : bool :=
  match x with
  | S754_nan => false
  | S754_infinity s => s
  | S754_zero _ => 0 <=? z
  | S754_finite s m e =>
      match e with
      | Zneg p => signed s m <=? z * 2 ^ Zpos p
      | _ => signed s m * 2 ^ e <=? z
      end
  end.

Definition Z_gt (z : Z) (x : float) : bool :=
  match x with
  | S754_nan => false
  | S754_infinity s => s
  | S754_zero _ => 0 <? z
  | S754_finite s m e =>
      match e with
      | Zneg p => signed s m <? z * 2 ^ Zpos p
      | _ => signed s m * 2 ^ e <? z
      end
  end.

(** [fexp] at binary64: the exponent of the last place for a value with
    its leading bit at position [e]. *)
Definition fexp64 (e : Z) : Z := Z.max (e - 53) (-1074).

(** The account kept by [shr] after [j] right shifts of [m]: the kept part
    [shr_m], and twice the part shifted out, which lies below [2 * 2^j] and
    is located by the round bit and the sticky bit. *)
Definition shr_inv (m j : Z) (mrs : shr_record) : Prop :=
  0 <= j /\ 0 <= shr_m mrs /\
  0 <= 2 * (m - shr_m mrs * 2 ^ j) < 2 * 2 ^ j /\
  (shr_r mrs = true <-> 2 ^ j <= 2 * (m - shr_m mrs * 2 ^ j)) /\
  (shr_s mrs = true <->
   2 * (m - shr_m mrs * 2 ^ j) <> (if shr_r mrs then 2 ^ j else 0)).

(** A value that is a number and carries no minus sign. *)
Definition nonneg (x : float) : Prop :=
  match x with
  | S754_zero s => s = false
  | S754_infinity s => s = false
  | S754_finite s _ _ => s = false
  | S754_nan => False
  end.

End PyFloat.

(** ** [ModuleExtractor._chunk_text] *)

Module Extractor.
Import PyStr.

(** [word_tokens = len(word) / 0.75]. *)
Definition word_tokens (w : pystr) : PyFloat.float :=
  PyFloat.div (PyFloat.of_Z (Z.of_nat (length w))) PyFloat.f0_75.

Definition truthy {A} (l : list A) : bool :=
  match l with [] => false | _ => true end.

(** The [for word in words] loop with its three variables and the final
    flush of [current_chunk]. *)
Fixpoint chunk_loop (max_tokens : Z) (words : list pystr)
    (chunks : list pystr) (current_chunk : list pystr)
    (current_length : PyFloat.float) : list pystr :=
  match words with
  | [] =>
      if truthy current_chunk then chunks ++ [join space current_chunk]
      else chunks
  | word :: rest =>
      let word_tokens := word_tokens word in
      if PyFloat.gt_Z (PyFloat.add current_length word_tokens) max_tokens
         && truthy current_chunk
      then chunk_loop max_tokens rest
             (chunks ++ [join space current_chunk]) [word] word_tokens
      else chunk_loop max_tokens rest chunks (current_chunk ++ [word])
             (PyFloat.add current_length word_tokens)
  end.

Definition _chunk_text (text : pystr) (max_tokens : Z) : list pystr :=
  chunk_loop max_tokens (split text) [] [] (S754_zero false).

(** The word lists behind the chunks: the same loop, keeping each
    [current_chunk] as a list instead of joining it. *)
Fixpoint group_loop (max_tokens : Z) (words : list pystr)
    (current_chunk : list pystr) (current_length : PyFloat.float)
    : list (list pystr) :=
  match words with
  | [] => if truthy current_chunk then [current_chunk] else []
  | word :: rest =>
      let word_tokens := word_tokens word in
      if PyFloat.gt_Z (PyFloat.add current_length word_tokens) max_tokens
         && truthy current_chunk
      then current_chunk :: group_loop max_tokens rest [word] word_tokens
      else group_loop max_tokens rest (current_chunk ++ [word])
             (PyFloat.add current_length word_tokens)
  end.

(** The default [max_tokens=6000]. *)
Definition default_max_tokens : Z := 6000.

(** The approximate token count of a chunk: [len(word)/0.75] summed over its
    words from left to right, as Python's [sum] does. *)
Definition token_sum (ws : list pystr) : PyFloat.float :=
  fold_left (fun acc w => PyFloat.add acc (word_tokens w)) ws (S754_zero false).


(** A list of words that is a lone word or whose token count is at or
    under the limit. *)
Definition within (max_tokens : Z) (g : list pystr) : Prop :=
  length g = 1%nat \/ PyFloat.le_Z (token_sum g) max_tokens = true.

(** ** Response handling of [ModuleExtractor._extract_module_with_submodules] *)

(** [s.find(c)] and [s.rfind(c)] for a one-character needle: the first and
    the last index of [c], or [-1]. *)
Fixpoint find (c : N) (s : pystr) : Z :=
  match s with
  | [] => -1
  | d :: r => if (d =? c)%N then 0
              else let i := find c r in if i <? 0 then -1 else i + 1
  end.

Fixpoint rfind (c : N) (s : pystr) : Z :=
  match s with
  | [] => -1
  | d :: r => let i := rfind c r in
              if 0 <=? i then i + 1 else if (d =? c)%N then 0 else -1
  end.

(** [s[a:b]] for indices that are not negative. *)
Definition slice (s : pystr) (a b : Z) : pystr :=
  firstn (Z.to_nat (b - a)) (skipn (Z.to_nat a) s).

Definition lbrace : N := 123.
Definition rbrace : N := 125.

(** [json_str = result_text[json_start:json_end]]: from the first opening
    brace to the last closing one. *)
Definition json_str (result_text : pystr) : pystr :=
  slice result_text (find lbrace result_text) (rfind rbrace result_text + 1).

(** The text holds an opening brace with a closing brace somewhere after it. *)
Definition has_brace_pair (s : pystr) : Prop :=
  exists i j : nat,
    (i < j)%nat /\ nth_error s i = Some lbrace /\ nth_error s j = Some rbrace.

(** What [json.loads] does with a string: a value, a [JSONDecodeError], or
    another exception (a [RecursionError] on deep nesting). *)
Inductive loads_result (J : Type) : Type :=
  | Loaded (v : J)
  | JSONDecodeError
  | OtherException.
Arguments Loaded {J} v.
Arguments JSONDecodeError {J}.
Arguments OtherException {J}.

(** The completion call: it raises, or it answers with a message whose
    [content] is a string or [None]. *)
Inductive completion : Type :=
  | CompletionRaises
  | Completion (content : option pystr).

(** A call that returns a value or lets an exception escape. *)
Inductive outcome (A : Type) : Type :=
  | Returns (a : A)
  | Raises.
Arguments Returns {A} a.
Arguments Raises {A}.

(** The value returned: whatever [json.loads] produced, or a dictionary
    literal of the code. *)
Inductive module_value (J : Type) : Type :=
  | Parsed (v : J)
  | ModuleDict (module : pystr) (Description : pystr)
      (Submodules : list (pystr * pystr)).
Arguments Parsed {J} v.
Arguments ModuleDict {J} module Description Submodules.

Definition placeholder {J} (module_title : pystr) : module_value J :=
  ModuleDict module_title (of_string "No description available") [].

(** The [try] block, entered with the message content at hand. *)
Definition parse_response {J} (json_loads : pystr -> loads_result J)
    (module_title : pystr) (content : option pystr) : module_value J :=
  match content with
  | None => placeholder module_title
  | Some c =>
      let result_text := strip c in
      let json_start := find lbrace result_text in
      let json_end := rfind rbrace result_text + 1 in
      if (0 <=? json_start) && (json_start <? json_end) then
        match json_loads (json_str result_text) with
        | Loaded module => Parsed module
        | JSONDecodeError => placeholder module_title
        | OtherException => placeholder module_title
        end
      else placeholder module_title
  end.

(** The prompt is built and the completion requested before the [try]; an
    exception there is not caught by this function. *)
Definition _extract_module_with_submodules {J}
    (json_loads : pystr -> loads_result J) (module_title : pystr)
    (response : completion) : outcome (module_value J) :=
  match response with
  | CompletionRaises => Raises
  | Completion content =>
      Returns (parse_response json_loads module_title content)
  end.

(** The chunk loop of [extract_modules] for one module: one completion per
    chunk, each result appended to [module_results], an escaping exception
    logged and the chunk skipped. *)
Fixpoint process_chunks {J} (json_loads : pystr -> loads_result J)
    (module_title : pystr) (responses : list completion)
    (module_results : list (module_value J)) : list (module_value J) :=
  match responses with
  | [] => module_results
  | r :: rest =>
      match _extract_module_with_submodules json_loads module_title r with
      | Returns chunk_result =>
          process_chunks json_loads module_title rest
            (module_results ++ [chunk_result])
      | Raises => process_chunks json_loads module_title rest module_results
      end
  end.

(** A heading as [extract_document_structure] records it. *)
Record heading : Type := Heading {
  h_level : Z;
  h_text : pystr;
  h_id : pystr
}.

(** [ModuleExtractor._extract_subheadings]: find the parent in the list, then
    collect the headings one level deeper until a heading of the parent's
    level or above. *)
Fixpoint collect_subheadings (parent_level : Z) (hs : list heading)
    : list pystr :=
  match hs with
  | [] => []
  | h :: rest =>
      if h_level h <=? parent_level then []
      else if h_level h =? parent_level + 1
           then h_text h :: collect_subheadings parent_level rest
           else collect_subheadings parent_level rest
  end.

Definition pystr_eqb (a b : pystr) : bool := bool_decide (a = b).

Fixpoint _extract_subheadings (headings : list heading)
    (parent_heading : pystr) (parent_level : Z) : list pystr :=
  match headings with
  | [] => []
  | h :: rest =>
      if (h_level h =? parent_level) && pystr_eqb (h_text h) parent_heading
      then collect_subheadings parent_level rest
      else _extract_subheadings rest parent_heading parent_level
  end.

End Extractor.

(** ** URLs as strings *)

Module Url.

(** [c.lower()] on a code point below 256: the ASCII capitals and the
    Latin-1 capitals (all of 192..222 but the multiplication sign 215). *)
Definition lower_ascii (a : ascii) : ascii :=
  let n := nat_of_ascii a in
  if ((65 <=? n) && (n <=? 90) || (192 <=? n) && (n <=? 222) && negb (n =? 215))%nat
  then ascii_of_nat (n + 32) else a.

Fixpoint lower (s : string) : string :=
  match s with
  | EmptyString => EmptyString
  | String a r => String (lower_ascii a) (lower r)
  end.

(** [s.startswith(p)], [s.endswith(x)], [p in s], [s.count(c)]. *)
Definition startswith (s p : string) : bool := String.prefix p s.

Definition endswith (s x : string) : bool :=
  let n := String.length s in
  let m := String.length x in
  (m <=? n)%nat && String.eqb (substring (n - m) m s) x.

Fixpoint contains (s p : string) : bool :=
  String.prefix p s ||
  match s with
  | EmptyString => false
  | String _ r => contains r p
  end.

Fixpoint count (s : string) (c : ascii) : Z :=
  match s with
  | EmptyString => 0
  | String a r => (if Ascii.eqb a c then 1 else 0) + count r c
  end.

Definition nonempty (s : string) : bool :=
  match s with EmptyString => false | _ => true end.

(** [re.sub(r'#.*$', '', s)]: the first [#] that only has the rest of the
    last line after it is cut off with that rest; a final newline stays. *)
Definition newline : ascii := "010"%char.

Fixpoint to_line_end (s : string) : option string :=
  match s with
  | EmptyString => Some EmptyString
  | String a r =>
      if Ascii.eqb a newline
      then match r with EmptyString => Some s | _ => None end
      else to_line_end r
  end.

Fixpoint strip_fragment (s : string) : string :=
  match s with
  | EmptyString => EmptyString
  | String a r =>
      if Ascii.eqb a "#"%char
      then match to_line_end r with
           | Some tail => tail
           | None => String a (strip_fragment r)
           end
      else String a (strip_fragment r)
  end.

(** [urlparse(url).netloc] of the Python library, for reference and for the
    worked examples: leading control characters and spaces are dropped, tabs
    and line breaks removed, a scheme [letter (letter|digit|+|-|.)* ":"] is
    split off, and after [//] the network location runs up to the first
    [/], [?] or [#]. A bracket without its partner raises [ValueError]
    ([None]); a bracketed host is taken to be an IP literal (recent versions
    of the library raise on any other). *)
Definition is_alpha (a : ascii) : bool :=
  let n := nat_of_ascii a in
  ((65 <=? n) && (n <=? 90) || (97 <=? n) && (n <=? 122))%nat.

Definition is_scheme_char (a : ascii) : bool :=
  let n := nat_of_ascii a in
  is_alpha a || ((48 <=? n) && (n <=? 57))%nat
  || Ascii.eqb a "+" || Ascii.eqb a "-" || Ascii.eqb a ".".

Fixpoint lstrip_c0 (s : string) : string :=
  match s with
  | EmptyString => EmptyString
  | String a r => if (nat_of_ascii a <=? 32)%nat then lstrip_c0 r else s
  end.

Fixpoint remove_unsafe (s : string) : string :=
  match s with
  | EmptyString => EmptyString
  | String a r =>
      let n := nat_of_ascii a in
      if ((n =? 9) || (n =? 10) || (n =? 13))%nat then remove_unsafe r
      else String a (remove_unsafe r)
  end.

(** The part after the scheme and its colon, when there is a scheme. *)
Fixpoint after_scheme (s : string) : option string :=
  match s with
  | EmptyString => None
  | String a r =>
      if Ascii.eqb a ":" then Some r
      else if is_scheme_char a then after_scheme r else None
  end.

Definition drop_scheme (s : string) : string :=
  match s with
  | EmptyString => s
  | String a r =>
      if is_alpha a
      then match after_scheme r with Some rest => rest | None => s end
      else s
  end.

Fixpoint upto_delim (s : string) : string :=
  match s with
  | EmptyString => EmptyString
  | String a r =>
      if Ascii.eqb a "/" || Ascii.eqb a "?" || Ascii.eqb a "#"
      then EmptyString else String a (upto_delim r)
  end.

(** [urlparse(url).path] for a URL with a network location: what follows
    it, up to the first [?] or [#]; for a URL whose last path segment holds
    no [;] (the library splits parameters off there). *)
Fixpoint from_delim (s : string) : string :=
  match s with
  | EmptyString => EmptyString
  | String a r =>
      if Ascii.eqb a "/" || Ascii.eqb a "?" || Ascii.eqb a "#"
      then s else from_delim r
  end.

Fixpoint upto_query (s : string) : string :=
  match s with
  | EmptyString => EmptyString
  | String a r =>
      if Ascii.eqb a "?" || Ascii.eqb a "#"
      then EmptyString else String a (upto_query r)
  end.

Definition urlparse_path (url : string) : string :=
  match drop_scheme (remove_unsafe (lstrip_c0 url)) with
  | String "/" (String "/" rest) => upto_query (from_delim rest)
  | rest => upto_query rest
  end.

Definition urlparse_netloc (url : string) : option string :=
  match drop_scheme (remove_unsafe (lstrip_c0 url)) with
  | String "/" (String "/" rest) =>
      let netloc := upto_delim rest in
      if xorb (contains netloc "[") (contains netloc "]") then None
      else Some netloc
  | _ => Some EmptyString
  end.

End Url.

(** ** The page tree and [Crawler.extract_document_structure] *)

Module Dom.
Import PyStr.

(** A parsed page: text nodes and tags with attributes and children. *)
Inductive node : Type :=
  | Text (s : pystr)
  | Elem (tag : string) (attrs : list (string * pystr)) (children : list node).

(** Everything below an element in document order (pre-order), which is the
    order of [find_all]. *)
Fixpoint descendants (n : node) : list node :=
  match n with
  | Text _ => []
  | Elem _ _ cs => flat_map (fun c => c :: descendants c) cs
  end.

Definition tag_of (n : node) : option string :=
  match n with
  | Text _ => None
  | Elem t _ _ => Some t
  end.

Definition has_tag (names : list string) (n : node) : bool :=
  match tag_of n with
  | Some t => bool_decide (t ∈ names)
  | None => false
  end.

(** [element.find_all(names)]. *)
Definition find_all (names : list string) (element : node) : list node :=
  List.filter (has_tag names) (descendants element).

(** [tag.get_text()]: the text nodes below it, concatenated; for a tag with
    no [script], [style] or [template] element below it (the library leaves
    their text out). *)
Fixpoint get_text (n : node) : pystr :=
  match n with
  | Text s => s
  | Elem _ _ cs => flat_map get_text cs
  end.

(** [tag.get(name, '')]. *)
Fixpoint lookup_attr (name : string) (attrs : list (string * pystr)) : pystr :=
  match attrs with
  | [] => []
  | (k, v) :: rest => if String.eqb k name then v else lookup_attr name rest
  end.

Definition get_attr (name : string) (n : node) : pystr :=
  match n with
  | Text _ => []
  | Elem _ attrs _ => lookup_attr name attrs
  end.

Definition heading_tag (i : Z) : string :=
  match i with
  | 1 => "h1" | 2 => "h2" | 3 => "h3" | 4 => "h4" | 5 => "h5" | _ => "h6"
  end%string.

Definition mk_heading (i : Z) (h : node) : Extractor.heading :=
  Extractor.Heading i (strip (get_text h)) (get_attr "id" h).

(** The structure dictionary; of its four entries the properties below need
    the [headings] only, and the lists, tables and code blocks are left out. *)
Record doc_structure : Type := DocStructure {
  headings : list Extractor.heading
}.

(** [Crawler.extract_document_structure], the headings:
    [for i in range(1, 7): for heading in element.find_all(f'h{i}'): append]. *)
Definition extract_document_structure (element : node) : doc_structure :=
  DocStructure
    (flat_map (fun i => map (mk_heading i) (find_all [heading_tag i] element))
       [1; 2; 3; 4; 5; 6]).

(** The level of a heading tag, [None] for any other node. *)
Definition heading_level (n : node) : option Z :=
  match tag_of n with
  | Some t =>
      if String.eqb t "h1" then Some 1 else if String.eqb t "h2" then Some 2
      else if String.eqb t "h3" then Some 3 else if String.eqb t "h4" then Some 4
      else if String.eqb t "h5" then Some 5 else if String.eqb t "h6" then Some 6
      else None
  | None => None
  end.

(** The headings of levels 1 to 6 in the order they appear in the document:
    what one [find_all(['h1', ..., 'h6'])] gives, the way the lists, tables
    and code blocks of the same function are collected. *)
Definition document_order_headings (element : node) : list Extractor.heading :=
  flat_map (fun n => match heading_level n with
                     | Some i => [mk_heading i n]
                     | None => []
                     end)
    (descendants element).

End Dom.

(** ** [Crawler]: URL policy, link discovery and the crawl loop *)

Module Crawler.
Import PyStr.

(** What the crawler gets from outside: the two library functions on URLs,
    each of which may raise [ValueError] ([None]), and the site. *)
Record metadata : Type := Metadata {
  meta_tags : list (pystr * pystr);
  last_updated : option pystr
}.

(** The trafilatura side channel of [extract_clean_text]: it raises, it
    downloads nothing, or [trafilatura.extract] gives a text or [None]. *)
Inductive traf_outcome : Type :=
  | TrafRaises
  | TrafNotDownloaded
  | TrafExtracted (traf_text : option pystr).

(** One fetch of a page by [extract_clean_text]; a stage that is [None]
    raised, which ends the function in its [except] branch. *)
Record extracted : Type := Extracted {
  x_title : pystr;
  x_metadata : option metadata;
  x_structure : option Dom.doc_structure;
  x_enhanced : option pystr;
  x_traf : traf_outcome
}.

(** An anchor with an [href]: the attribute and [get_text(strip=True)]. *)
Record anchor : Type := Anchor {
  a_href : string;
  a_text : pystr
}.

Record page : Type := Page {
  pg_extract : option extracted;
  pg_anchors : option (list anchor)
}.

Record env : Type := Env {
  urljoin : string -> string -> option string;
  netloc : string -> option string;
  site : string -> page
}.

(** The attributes of a [Crawler] object ([delay] only paces the loop). *)
Record crawler : Type := mkCrawler {
  visited_urls : gset string;
  queue : list (string * Z);
  content_map : gmap string pystr;
  max_pages : Z;
  max_depth : Z;
  url_hierarchy : gmap string (list string);
  url_titles : gmap string pystr;
  url_depths : gmap string Z;
  url_metadata : gmap string metadata;
  url_structure : gmap string Dom.doc_structure
}.

Definition skip_extensions : list string :=
  [".pdf"; ".jpg"; ".png"; ".gif"; ".jpeg"; ".svg"; ".mp4"; ".zip"; ".css"; ".js"].

Definition skip_patterns : list string :=
  ["/cdn-cgi/"; "/wp-content/"; "/wp-includes/"; "/static/"; "/assets/"].

(** [Crawler.is_valid_url]; [None] when [urlparse] raises. *)
Definition is_valid_url (E : env) (url base_url : string) : option bool :=
  if negb (Url.nonempty url) then Some false
  else
    match netloc E base_url with
    | None => None
    | Some base_domain =>
        match netloc E url with
        | None => None
        | Some url_domain =>
            if existsb (fun ext => Url.endswith (Url.lower url) ext) skip_extensions
            then Some false
            else if existsb (fun pattern => Url.contains url pattern) skip_patterns
            then Some false
            else Some (String.eqb url_domain base_domain
                       || Url.endswith url_domain ("." +:+ base_domain))
        end
    end.

(** The text [extract_clean_text] returns once the structured render
    [enhanced_text] is there. *)
Definition choose_text (enhanced_text : pystr) (traf : traf_outcome) : pystr :=
  match traf with
  | TrafExtracted (Some traf_text) =>
      if Extractor.truthy traf_text
         && PyFloat.Z_gt (Z.of_nat (length traf_text))
              (PyFloat.mul (PyFloat.of_Z (Z.of_nat (length enhanced_text)))
                           PyFloat.f0_7)
      then traf_text else enhanced_text
  | _ => enhanced_text
  end.

Definition set_title (c : crawler) (url : string) (t : pystr) : crawler :=
  mkCrawler (visited_urls c) (queue c) (content_map c) (max_pages c)
    (max_depth c) (url_hierarchy c) (<[url := t]> (url_titles c))
    (url_depths c) (url_metadata c) (url_structure c).

Definition set_metadata (c : crawler) (url : string) (m : metadata) : crawler :=
  mkCrawler (visited_urls c) (queue c) (content_map c) (max_pages c)
    (max_depth c) (url_hierarchy c) (url_titles c) (url_depths c)
    (<[url := m]> (url_metadata c)) (url_structure c).

Definition set_structure (c : crawler) (url : string) (d : Dom.doc_structure)
    : crawler :=
  mkCrawler (visited_urls c) (queue c) (content_map c) (max_pages c)
    (max_depth c) (url_hierarchy c) (url_titles c) (url_depths c)
    (url_metadata c) (<[url := d]> (url_structure c)).

Definition set_content (c : crawler) (url : string) (t : pystr) : crawler :=
  mkCrawler (visited_urls c) (queue c) (<[url := t]> (content_map c))
    (max_pages c) (max_depth c) (url_hierarchy c) (url_titles c)
    (url_depths c) (url_metadata c) (url_structure c).

Definition set_depth (c : crawler) (url : string) (d : Z) : crawler :=
  mkCrawler (visited_urls c) (queue c) (content_map c) (max_pages c)
    (max_depth c) (url_hierarchy c) (url_titles c)
    (<[url := d]> (url_depths c)) (url_metadata c) (url_structure c).

Definition add_child (c : crawler) (url child : string) : crawler :=
  mkCrawler (visited_urls c) (queue c) (content_map c) (max_pages c)
    (max_depth c)
    (<[url := default [] (url_hierarchy c !! url) ++ [child]]> (url_hierarchy c))
    (url_titles c) (url_depths c) (url_metadata c) (url_structure c).

Definition add_visited (c : crawler) (url : string) : crawler :=
  mkCrawler ({[url]} ∪ visited_urls c) (queue c) (content_map c) (max_pages c)
    (max_depth c) (url_hierarchy c) (url_titles c) (url_depths c)
    (url_metadata c) (url_structure c).

Definition set_queue (c : crawler) (q : list (string * Z)) : crawler :=
  mkCrawler (visited_urls c) q (content_map c) (max_pages c)
    (max_depth c) (url_hierarchy c) (url_titles c) (url_depths c)
    (url_metadata c) (url_structure c).

(** [Crawler.extract_clean_text]: the state after the call and the text
    returned, the empty string when a stage raised. *)
Definition extract_clean_text (E : env) (c : crawler) (url : string)
    : crawler * pystr :=
  match pg_extract (site E url) with
  | None => (c, [])
  | Some x =>
      let c1 := set_title c url (strip (x_title x)) in
      match x_metadata x with
      | None => (c1, [])
      | Some metadata =>
          let c2 := set_metadata c1 url metadata in
          match x_structure x with
          | None => (c2, [])
          | Some doc_structure =>
              let c3 := set_structure c2 url doc_structure in
              match x_enhanced x with
              | None => (c3, [])
              | Some enhanced_text =>
                  (c3, choose_text enhanced_text (x_traf x))
              end
          end
      end
  end.

(** The body of the [for a_tag in ...] loop of [get_links] for one anchor,
    on the state and the [links] list; [None] when a library call raised. *)
Definition visit_anchor (E : env) (url : string) (current_depth : Z)
    (a : anchor) (acc : crawler * list string)
    : option (crawler * list string) :=
  let '(c, links) := acc in
  let href := a_href a in
  if negb (Url.nonempty href) || Url.startswith href "javascript:"
     || String.eqb href "#"
  then Some acc
  else
    match urljoin E url href with
    | None => None
    | Some joined =>
        let full_url := Url.strip_fragment joined in
        match is_valid_url E full_url url with
        | None => None
        | Some valid =>
            if valid && negb (bool_decide (full_url ∈ visited_urls c))
            then
              let c1 := add_child c url full_url in
              let c2 := set_depth c1 full_url (current_depth + 1) in
              let link_text := a_text a in
              let c3 :=
                if Extractor.truthy link_text
                   && negb (bool_decide (is_Some (url_titles c2 !! full_url)))
                then set_title c2 full_url link_text else c2 in
              Some (c3, links ++ [full_url])
            else Some acc
        end
    end.

(** The anchors in turn; an exception keeps the state reached and makes
    [get_links] return the empty list. *)
Fixpoint visit_anchors (E : env) (url : string) (current_depth : Z)
    (anchors : list anchor) (acc : crawler * list string)
    : crawler * list string :=
  match anchors with
  | [] => acc
  | a :: rest =>
      match visit_anchor E url current_depth a acc with
      | None => (fst acc, [])
      | Some acc' => visit_anchors E url current_depth rest acc'
      end
  end.

(** [Crawler.get_links]. *)
Definition get_links (E : env) (c : crawler) (url : string)
    (current_depth : Z) : crawler * list string :=
  if max_depth c <=? current_depth then (c, [])
  else
    match pg_anchors (site E url) with
    | None => (c, [])
    | Some anchors => visit_anchors E url current_depth anchors (c, [])
    end.

Definition documentation_patterns : list string :=
  ["article"; "doc"; "help"; "guide"; "faq"; "tutorial"; "support";
   "manual"; "reference"; "category"; "section"; "topic"; "content"].

Definition get_url_priority (url : string) : Z :=
  let url_lower := Url.lower url in
  if existsb (fun pattern => Url.contains url_lower pattern) documentation_patterns
  then 0
  else Url.count url "/".

(** [sorted(url_list, key=get_url_priority)]: a stable sort. *)
Fixpoint insert_by_priority (u : string) (sorted : list string) : list string :=
  match sorted with
  | [] => [u]
  | v :: rest =>
      if get_url_priority v <=? get_url_priority u
      then v :: insert_by_priority u rest
      else u :: sorted
  end.

Definition prioritize_urls (url_list : list string) : list string :=
  fold_left (fun sorted u => insert_by_priority u sorted) url_list [].

(** The [for link in prioritized_links] loop. *)
Fixpoint enqueue_links (c : crawler) (links : list string) (depth : Z)
    : crawler :=
  match links with
  | [] => c
  | link :: rest =>
      if negb (bool_decide (link ∈ visited_urls c))
         && negb (bool_decide (link ∈ map fst (queue c)))
      then enqueue_links (set_queue c (queue c ++ [(link, depth)])) rest depth
      else enqueue_links c rest depth
  end.

(** The test of the [while]. *)
Definition loop_cond (c : crawler) : bool :=
  Extractor.truthy (queue c) && (Z.of_nat (size (visited_urls c)) <? max_pages c).

(** One pass through the body of the [while]. *)
Definition crawl_iter (E : env) (c : crawler) : crawler :=
  match queue c with
  | [] => c
  | (current_url, current_depth) :: rest =>
      let c0 := set_queue c rest in
      if bool_decide (current_url ∈ visited_urls c0) then c0
      else
        let c1 := add_visited c0 current_url in
        let '(c2, content) := extract_clean_text E c1 current_url in
        let c3 := if Extractor.truthy (strip content)
                  then set_content c2 current_url content else c2 in
        let '(c4, links) := get_links E c3 current_url current_depth in
        if current_depth <? max_depth c4
        then enqueue_links c4 (prioritize_urls links) (current_depth + 1)
        else c4
  end.

(** The state [crawl] starts its loop in. *)
Definition crawl_init (max_pages max_depth : Z) (start_url : string) : crawler :=
  mkCrawler ∅ [(start_url, 0)] ∅ max_pages max_depth ∅ ∅ {[start_url := 0]} ∅ ∅.

(** The [while] loop; [None] when the fuel runs out before the test fails. *)
Fixpoint crawl_loop (E : env) (fuel : nat) (c : crawler) : option crawler :=
  if loop_cond c then
    match fuel with
    | O => None
    | S fuel' => crawl_loop E fuel' (crawl_iter E c)
    end
  else Some c.

(** The state after [n] passes of the loop, staying put once the test
    fails: every state the loop goes through is one of these. *)
Fixpoint crawl_state (E : env) (n : nat) (c : crawler) : crawler :=
  match n with
  | O => c
  | S n' => if loop_cond c then crawl_state E n' (crawl_iter E c) else c
  end.

(** The dictionary [crawl] returns. *)
Record crawl_result : Type := CrawlResult {
  r_content : gmap string pystr;
  r_hierarchy : gmap string (list string);
  r_titles : gmap string pystr;
  r_depths : gmap string Z;
  r_metadata : gmap string metadata;
  r_structure : gmap string Dom.doc_structure
}.

Definition result_of (c : crawler) : crawl_result :=
  CrawlResult (content_map c) (url_hierarchy c) (url_titles c) (url_depths c)
    (url_metadata c) (url_structure c).

(** [Crawler.crawl]: the returned dictionary together with the object's
    final state, which holds the visited set. *)
Definition crawl (E : env) (max_pages max_depth : Z) (start_url : string)
    (fuel : nat) : option (crawl_result * crawler) :=
  match crawl_loop E fuel (crawl_init max_pages max_depth start_url) with
  | Some c => Some (result_of c, c)
  | None => None
  end.

(** [u] was found as a link on a visited page. *)
Definition discovered (c : crawler) (u : string) : Prop :=
  exists (p : string) (l : list string),
    p ∈ visited_urls c /\ url_hierarchy c !! p = Some l /\ u ∈ l.

(** Where the keys of the five dictionaries come from. *)
Definition keys_inv (start_url : string) (c : crawler) : Prop :=
  (forall u, is_Some (content_map c !! u) -> u ∈ visited_urls c) /\
  (forall u, is_Some (url_metadata c !! u) -> u ∈ visited_urls c) /\
  (forall u, is_Some (url_structure c !! u) -> u ∈ visited_urls c) /\
  (forall u, is_Some (url_titles c !! u) -> u ∈ visited_urls c \/ discovered c u) /\
  (forall u, is_Some (url_depths c !! u) -> u = start_url \/ discovered c u).

(** The frontier holds each URL once and no visited URL. *)
Definition queue_inv (c : crawler) : Prop :=
  NoDup (map fst (queue c)) /\
  forall u, u ∈ map fst (queue c) -> u ∉ visited_urls c.

(** The parts of the state that only the loop itself changes. *)
Definition same_core (c c' : crawler) : Prop :=
  visited_urls c' = visited_urls c /\ queue c' = queue c /\
  max_pages c' = max_pages c /\ max_depth c' = max_depth c.

End Crawler.

(** ** Worked inputs *)

Module Examples.
Import PyStr Crawler.

(** Absolute links, so [urljoin] returns the link itself. *)
Definition E (s : string -> page) : env :=
  Env (fun _ href => Some href) Url.urlparse_netloc s.

Definition mkpage (title : string) (links : list string) : page :=
  Page (Some (Extracted (of_string title) (Some (Metadata [] None))
                (Some (Dom.DocStructure [])) (Some (of_string "body"))
                TrafNotDownloaded))
       (Some (map (fun l => Anchor l (of_string "link")) links)).

Definition url_a : string := "http://ex.com/".
Definition url_b : string := "http://ex.com/b".
Definition url_c : string := "http://ex.com/c".

(** Page A links to B and C, page B links to C. *)
Definition site_abc (u : string) : page :=
  if String.eqb u url_a then mkpage "A" [url_b; url_c]
  else if String.eqb u url_b then mkpage "B" [url_c]
  else mkpage "C" [].

Definition txt (tag : string) (s : string) : Dom.node :=
  Dom.Elem tag [] [Dom.Text (of_string s)].

(** [<div><h1>Guide</h1><h2>Install</h2><h3>Linux</h3><h2>Usage</h2></div>] *)
Definition guide_page : Dom.node :=
  Dom.Elem "div" []
    [txt "h1" "Guide"; txt "h2" "Install"; txt "h3" "Linux"; txt "h2" "Usage"].

Definition hd (level : Z) (s : string) : Extractor.heading :=
  Extractor.Heading level (of_string s) [].

Definition pdf_with_query : string :=
  "http://docs.example.com/manual.pdf?download=1".

Definition docs_home : string := "http://docs.example.com/".

Definition never_json (s : pystr) : Extractor.loads_result unit :=
  Extractor.JSONDecodeError.

(** A [json.loads] stand-in that accepts everything and hands back the
    string it was given. *)
Definition echo_json (s : pystr) : Extractor.loads_result pystr :=
  Extractor.Loaded s.

(** A structured render of 100 characters and an alternate text of 80. *)
Definition render_100 : pystr := repeat 120%N 100.
Definition alternate_80 : pystr := repeat 121%N 80.

(** A crawl of [site_abc] that may visit one page, after its loop. *)
Definition one_page : crawler :=
  crawl_state (E site_abc) 1 (crawl_init 1 1 url_a).

(** A crawl of [site_abc] two levels deep, after one and two passes. *)
Definition deep_1 : crawler :=
  crawl_state (E site_abc) 1 (crawl_init 10 2 url_a).
Definition deep_2 : crawler :=
  crawl_state (E site_abc) 2 (crawl_init 10 2 url_a).

End Examples.

(** ** What one pass of the crawl loop does to the state *)

Module CrawlInv.
Import PyStr Crawler.

(** [u] is a link [get_links] accepts on the page [url]: in scope and not
    visited. *)
Definition found (E : env) (c : crawler) (url u : string) : Prop :=
  is_valid_url E u url = Some true /\ (u ∉ visited_urls c).

(** What [get_links E c url d] can have done when it returns [c'] and
    [links]. *)
Definition links_effect (E : env) (url : string) (d : Z) (c c' : crawler)
    (links : list string) : Prop :=
  same_core c c' /\ content_map c' = content_map c /\
  url_metadata c' = url_metadata c /\ url_structure c' = url_structure c /\
  (forall u x, url_depths c' !! u = Some x ->
     url_depths c !! u = Some x \/ (x = d + 1 /\ found E c url u)) /\
  (forall u, is_Some (url_depths c !! u) -> is_Some (url_depths c' !! u)) /\
  (forall k l' x, url_hierarchy c' !! k = Some l' -> x ∈ l' ->
     (exists l, url_hierarchy c !! k = Some l /\ x ∈ l)
     \/ (k = url /\ found E c url x)) /\
  (forall u, u ∈ links -> found E c url u /\ is_Some (url_depths c' !! u)) /\
  (forall k, is_Some (url_hierarchy c' !! k) ->
     is_Some (url_hierarchy c !! k) \/ k = url).

(** A pass of the loop that visits the page at the head of the frontier. *)
Definition iter_effect (E : env) (c c' : crawler) : Prop :=
  exists (u : string) (d : Z) (rest : list (string * Z)) (links : list string)
         (new : list (string * Z)),
    queue c = (u, d) :: rest /\ (u ∉ visited_urls c) /\
    visited_urls c' = {[u]} ∪ visited_urls c /\
    max_pages c' = max_pages c /\ max_depth c' = max_depth c /\
    queue c' = rest ++ new /\
    (forall x dx, (x, dx) ∈ new ->
       x ∈ links /\ dx = d + 1 /\ d < max_depth c) /\
    (content_map c' = content_map c \/
     exists t, Extractor.truthy (strip t) = true /\
               content_map c' = <[u := t]> (content_map c)) /\
    (forall x v, url_depths c' !! x = Some v ->
       url_depths c !! x = Some v \/
       (v = d + 1 /\ d < max_depth c /\
        is_valid_url E x u = Some true /\ x <> u /\ (x ∉ visited_urls c))) /\
    (forall x, is_Some (url_depths c !! x) -> is_Some (url_depths c' !! x)) /\
    (forall k l' x, url_hierarchy c' !! k = Some l' -> x ∈ l' ->
       (exists l, url_hierarchy c !! k = Some l /\ x ∈ l) \/
       (k = u /\ d < max_depth c /\
        is_valid_url E x u = Some true /\ x <> u /\ (x ∉ visited_urls c))) /\
    (forall x, x ∈ links ->
       is_valid_url E x u = Some true /\ is_Some (url_depths c' !! x)) /\
    (forall k, is_Some (url_hierarchy c' !! k) ->
       is_Some (url_hierarchy c !! k) \/ (k = u /\ d < max_depth c)).

(** [d] is the domain [base] or a subdomain of it. *)
Definition in_domain (d base : string) : Prop :=
  d = base \/ Url.endswith d ("." +:+ base) = true.

(** [x] is the start URL or lies on the site of the start URL. *)
Definition on_site (E : env) (start_url x : string) : Prop :=
  x = start_url \/
  exists dx ds, netloc E x = Some dx /\ netloc E start_url = Some ds /\
                in_domain dx ds.

(** [x] is in the visited set or in the frontier. *)
Definition known (c : crawler) (x : string) : Prop :=
  x ∈ visited_urls c \/ x ∈ map fst (queue c).

(** What the loop keeps true of depths, hierarchy, frontier and content. *)
Definition crawl_inv (E : env) (start_url : string) (c : crawler) : Prop :=
  (forall x dx, (x, dx) ∈ queue c ->
     (x = start_url /\ dx = 0) \/ 1 <= dx <= max_depth c) /\
  url_depths c !! start_url = Some 0 /\
  (start_url ∈ visited_urls c \/ queue c = [(start_url, 0)]) /\
  (forall x v, url_depths c !! x = Some v ->
     x = start_url \/ 1 <= v <= max_depth c) /\
  (forall k l, url_hierarchy c !! k = Some l ->
     k ∈ visited_urls c /\ (k = start_url \/ 2 <= max_depth c) /\
     forall x, x ∈ l -> is_valid_url E x k = Some true /\ x <> k) /\
  (forall x, known c x ->
     x = start_url \/
     exists p, p ∈ visited_urls c /\ is_valid_url E x p = Some true) /\
  (forall x, known c x -> is_Some (url_depths c !! x)) /\
  (forall x t, content_map c !! x = Some t ->
     Extractor.truthy (strip t) = true) /\
  (forall x, known c x -> on_site E start_url x).

(** A frontier in breadth-first order: the depths never go down along it,
    and no two of them differ by more than one. *)
Definition level_order (q : list (string * Z)) : Prop :=
  StronglySorted (fun a b => snd a <= snd b) q /\
  forall a b, a ∈ q -> b ∈ q -> snd b <= snd a + 1.

(** The state of [crawl(start_url)] after [n] passes of its loop (the state
    it returns from, once the loop has stopped). *)
Definition reached (E : env) (max_pages max_depth : Z) (start_url : string)
    (n : nat) : crawler :=
  crawl_state E n (crawl_init max_pages max_depth start_url).

End CrawlInv.


(** ** [Crawler.crawl_multiple] *)

Module CrawlMultiple.
Import PyStr Crawler.

(** The six empty dictionaries of [all_results]. *)
Definition empty_results : crawl_result := CrawlResult ∅ ∅ ∅ ∅ ∅ ∅.

(** The six [all_results[...].update(result[...])] calls: on a shared key
    the entry of [result] replaces the one held so far. *)
Definition update_results (all_results result : crawl_result) : crawl_result :=
  CrawlResult
    (r_content result ∪ r_content all_results)
    (r_hierarchy result ∪ r_hierarchy all_results)
    (r_titles result ∪ r_titles all_results)
    (r_depths result ∪ r_depths all_results)
    (r_metadata result ∪ r_metadata all_results)
    (r_structure result ∪ r_structure all_results).

(** The [for url in urls] loop; each [crawl] gets the same fuel. *)
Fixpoint crawl_multiple_loop (E : env) (max_pages max_depth : Z) (fuel : nat)
    (urls : list string) (all_results : crawl_result) : option crawl_result :=
  match urls with
  | [] => Some all_results
  | url :: rest =>
      match crawl E max_pages max_depth url fuel with
      | None => None
      | Some (result, _) =>
          crawl_multiple_loop E max_pages max_depth fuel rest
            (update_results all_results result)
      end
  end.

Definition crawl_multiple (E : env) (max_pages max_depth : Z)
    (urls : list string) (fuel : nat) : option crawl_result :=
  crawl_multiple_loop E max_pages max_depth fuel urls empty_results.

End CrawlMultiple.


(** ** Merging the results of several chunks *)

Module Merge.
Import PyStr.

(** A Python [dict] with string keys and values of type [V]: its items in
    insertion order. *)
Fixpoint dict_get {V} (d : list (pystr * V)) (k : pystr) : option V :=
  match d with
  | [] => None
  | (k', v) :: r => if Extractor.pystr_eqb k' k then Some v else dict_get r k
  end.

(** [d[k] = v]: the value of an existing key is replaced where it stands, a
    new key goes to the end. *)
Fixpoint dict_set {V} (d : list (pystr * V)) (k : pystr) (v : V)
    : list (pystr * V) :=
  match d with
  | [] => [(k, v)]
  | (k', v') :: r =>
      if Extractor.pystr_eqb k' k then (k', v) :: r
      else (k', v') :: dict_set r k v
  end.

(** A module as the completion is asked to give it: the three keys, each of
    which may be missing; [Description] a string, [Submodules] an object
    with string values. *)
Record module : Type := Module_ {
  md_module : option pystr;
  md_Description : option pystr;
  md_Submodules : option (list (pystr * pystr))
}.

Definition set_Description (m : module) (d : pystr) : module :=
  Module_ (md_module m) (Some d) (md_Submodules m).

Definition set_Submodules (m : module) (s : list (pystr * pystr)) : module :=
  Module_ (md_module m) (md_Description m) (Some s).

(** [len(m.get("Description", ""))]. *)
Definition description_len (m : module) : nat :=
  length (default [] (md_Description m)).

(** [m.get("Submodules", {})]. *)
Definition submodules_of (m : module) : list (pystr * pystr) :=
  default [] (md_Submodules m).

(** The body of the inner loop of [_merge_module_results] for one item of
    [result]'s submodules. *)
Definition merge_submodule (merged : module) (item : pystr * pystr) : module :=
  let '(subname, subdesc) := item in
  match dict_get (submodules_of merged) subname with
  | None => set_Submodules merged (dict_set (submodules_of merged) subname subdesc)
  | Some old =>
      if (length old <? length subdesc)%nat
      then set_Submodules merged (dict_set (submodules_of merged) subname subdesc)
      else merged
  end.

(** The body of the outer loop for one [result]. *)
Definition merge_result (merged result : module) : module :=
  let merged1 :=
    if (description_len merged <? description_len result)%nat
    then set_Description merged (default [] (md_Description result))
    else merged in
  fold_left merge_submodule (submodules_of result) merged1.

(** [ModuleExtractor._merge_module_results]; [None] is Python's [None].
    The value returned is modelled: [merged] is a shallow copy, so in Python
    the submodules of the first result are the object that is updated. *)
Definition _merge_module_results (module_results : list module) : option module :=
  match module_results with
  | [] => None
  | first :: rest => Some (fold_left merge_result rest first)
  end.

(** The inner loop of [_merge_modules]; [None] when
    [existing_module["Submodules"]] raises [KeyError]. *)
Fixpoint merge_into_existing (existing : module) (items : list (pystr * pystr))
    : option module :=
  match items with
  | [] => Some existing
  | (submodule_name, submodule_desc) :: rest =>
      match md_Submodules existing with
      | None => None
      | Some subs =>
          match dict_get subs submodule_name with
          | None =>
              merge_into_existing
                (set_Submodules existing (dict_set subs submodule_name submodule_desc))
                rest
          | Some old =>
              if (length old <? length submodule_desc)%nat
              then merge_into_existing
                     (set_Submodules existing
                        (dict_set subs submodule_name submodule_desc))
                     rest
              else merge_into_existing existing rest
          end
      end
  end.

(** The body of the loop of [_merge_modules] for one [module_item];
    [None] when an indexing raises [KeyError]. *)
Definition merge_item (module_dict : list (pystr * module)) (module_item : module)
    : option (list (pystr * module)) :=
  match md_module module_item with
  | None => None
  | Some module_name =>
      match dict_get module_dict module_name with
      | None => Some (dict_set module_dict module_name module_item)
      | Some existing_module =>
          match md_Description module_item, md_Description existing_module with
          | Some item_desc, Some existing_desc =>
              let existing1 :=
                if (length existing_desc <? length item_desc)%nat
                then set_Description existing_module item_desc
                else existing_module in
              match md_Submodules module_item with
              | None => None
              | Some items =>
                  match merge_into_existing existing1 items with
                  | None => None
                  | Some existing2 =>
                      Some (dict_set module_dict module_name existing2)
                  end
              end
          | _, _ => None
          end
      end
  end.

Fixpoint merge_items (module_dict : list (pystr * module))
    (all_modules : list module) : option (list (pystr * module)) :=
  match all_modules with
  | [] => Some module_dict
  | module_item :: rest =>
      match merge_item module_dict module_item with
      | None => None
      | Some module_dict' => merge_items module_dict' rest
      end
  end.

(** [ModuleExtractor._merge_modules]: [list(module_dict.values())], as
    values; in Python the first item of every name is updated in place. *)
Definition _merge_modules (all_modules : list module) : option (list module) :=
  match merge_items [] all_modules with
  | None => None
  | Some module_dict => Some (map snd module_dict)
  end.

(** Every item has its three keys. *)
Definition complete (m : module) : Prop :=
  is_Some (md_module m) /\ is_Some (md_Description m) /\
  is_Some (md_Submodules m).

(** The module names of a list, missing ones left out. *)
Definition names (ms : list module) : list pystr :=
  omap md_module ms.

(** The first occurrence of every name, in order. *)
Fixpoint first_occurrences (ns seen : list pystr) : list pystr :=
  match ns with
  | [] => []
  | n :: rest =>
      if bool_decide (n ∈ seen) then first_occurrences rest seen
      else n :: first_occurrences rest (n :: seen)
  end.

(** The submodules are a dictionary: no key twice. *)
Definition well_formed (m : module) : Prop :=
  NoDup (map fst (submodules_of m)).

(** [m] already holds all that [r] could add: a description at least as
    long, and for every submodule of [r] an entry at least as long. *)
Definition dominates (m r : module) : Prop :=
  (description_len r <= description_len m)%nat /\
  forall n d, (n, d) ∈ submodules_of r ->
    exists d', dict_get (submodules_of m) n = Some d' /\
               (length d <= length d')%nat.

(** [m'] came from [m] by merging: the same name, and nothing got shorter
    or lost. *)
Definition grows (m m' : module) : Prop :=
  md_module m' = md_module m /\
  (description_len m <= description_len m')%nat /\
  forall k v, dict_get (submodules_of m) k = Some v ->
    exists v', dict_get (submodules_of m') k = Some v' /\
               (length v <= length v')%nat.

End Merge.


(** ** The callers' check of the start URLs *)

Module App.
Import PyStr.

(** [s.startswith(prefix)]. *)
Fixpoint startswith (s prefix : pystr) : bool :=
  match prefix, s with
  | [], _ => true
  | _ :: _, [] => false
  | p :: prefix', c :: s' => (c =? p)%N && startswith s' prefix'
  end.

(** [url.startswith(('http://', 'https://'))]. *)
Definition has_http_scheme (url : pystr) : bool :=
  startswith url (of_string "http://") || startswith url (of_string "https://").

(** The body of the loop of [validate_urls] on the two lists. *)
Definition validate_url (acc : list pystr * list pystr) (url : pystr)
    : list pystr * list pystr :=
  let '(valid_urls, invalid_urls) := acc in
  let url := strip url in
  if negb (Extractor.truthy url) then acc
  else if negb (has_http_scheme url) then (valid_urls, invalid_urls ++ [url])
  else (valid_urls ++ [url], invalid_urls).

(** [validate_urls], the same function in [app.py] and in [cli.py]. *)
Definition validate_urls (urls : list pystr) : list pystr * list pystr :=
  fold_left validate_url urls ([], []).

End App.


(** ** Sample module lists *)

Module Samples.
Import PyStr.

Definition submodules (subs : list (string * string)) : list (pystr * pystr) :=
  map (fun kv => (of_string (fst kv), of_string (snd kv))) subs.

Definition mk_module (name description : string) (subs : list (string * string))
    : Merge.module :=
  Merge.Module_ (Some (of_string name)) (Some (of_string description))
    (Some (submodules subs)).

Definition billing_short : Merge.module :=
  mk_module "Billing" "Invoices" [("Refunds", "How to refund an invoice")].

Definition billing_long : Merge.module :=
  mk_module "Billing" "Invoices and payments" [("Refunds", "Refunds"); ("Taxes", "VAT")].

Definition billing_merged : Merge.module :=
  mk_module "Billing" "Invoices and payments"
    [("Refunds", "How to refund an invoice"); ("Taxes", "VAT")].

Definition users : Merge.module := mk_module "Users" "Accounts" [].

(** A module without the key [module]. *)
Definition nameless : Merge.module :=
  Merge.Module_ None (Some (of_string "Accounts")) (Some []).

End Samples.

(** ** The module loop of [extract_modules], on what [json.loads] returns *)

Module Pipeline.
Import PyStr.

(** A value as [json.loads] builds it. *)
Inductive json : Type :=
  | JNull
  | JBool (b : bool)
  | JInt (n : Z)
  | JFloat (x : PyFloat.float)
  | JString (s : pystr)
  | JArray (items : list json)
  | JObject (items : list (pystr * json)).

(** A Python [dict] with string keys: its items in insertion order. What
    [json.loads] returns for [json_str], a text that starts with an opening
    brace, is a [dict] whenever it returns. *)
Abbreviation dict := (list (pystr * json)).

Definition k_module : pystr := of_string "module".
Definition k_Description : pystr := of_string "Description".
Definition k_Submodules : pystr := of_string "Submodules".

(** The dictionary a returned value is in Python. *)
Definition to_dict (v : Extractor.module_value dict) : dict :=
  match v with
  | Extractor.Parsed d => d
  | Extractor.ModuleDict module Description Submodules =>
      [(k_module, JString module); (k_Description, JString Description);
       (k_Submodules,
        JObject (map (fun kv => (fst kv, JString (snd kv))) Submodules))]
  end.

Definition bind {A B} (x : Extractor.outcome A) (f : A -> Extractor.outcome B)
    : Extractor.outcome B :=
  match x with
  | Extractor.Returns a => f a
  | Extractor.Raises => Extractor.Raises
  end.

Notation "'let*' x := e 'in' k" := (bind e (fun x => k))
  (at level 10, x name, e at level 100, k at level 200).

(** [len(v)]: a [TypeError] on [None], a bool and a number. *)
Definition len (v : json) : Extractor.outcome nat :=
  match v with
  | JString s => Extractor.Returns (length s)
  | JArray items => Extractor.Returns (length items)
  | JObject items => Extractor.Returns (length items)
  | JNull | JBool _ | JInt _ | JFloat _ => Extractor.Raises
  end.

(** [d.get(k, default)]. *)
Definition get (d : dict) (k : pystr) (default : json) : json :=
  match Merge.dict_get d k with
  | Some v => v
  | None => default
  end.

(** [d[k]]: a [KeyError] on a missing key. *)
Definition getitem (d : dict) (k : pystr) : Extractor.outcome json :=
  match Merge.dict_get d k with
  | Some v => Extractor.Returns v
  | None => Extractor.Raises
  end.

(** [v.items()]: an [AttributeError] on anything but a [dict]. *)
Definition items (v : json) : Extractor.outcome dict :=
  match v with
  | JObject d => Extractor.Returns d
  | _ => Extractor.Raises
  end.

(** The body of the inner loop of [_merge_module_results] for one item of
    [result]'s submodules. When [merged.get("Submodules", {})] is a string
    or a list the membership test itself succeeds, but both branches then
    index or assign [merged["Submodules"][subname]], a [TypeError]; on
    [None], a bool or a number the test raises. *)
Definition merge_submodule (merged : dict) (item : pystr * json)
    : Extractor.outcome dict :=
  let '(subname, subdesc) := item in
  match get merged k_Submodules (JObject []) with
  | JObject subs =>
      match Merge.dict_get subs subname with
      | None =>
          Extractor.Returns
            (Merge.dict_set merged k_Submodules
               (JObject (Merge.dict_set subs subname subdesc)))
      | Some old =>
          let* n := len subdesc in
          let* m := len old in
          Extractor.Returns
            (if (m <? n)%nat
             then Merge.dict_set merged k_Submodules
                    (JObject (Merge.dict_set subs subname subdesc))
             else merged)
      end
  | _ => Extractor.Raises
  end.

Fixpoint merge_submodules (merged : dict) (its : list (pystr * json))
    : Extractor.outcome dict :=
  match its with
  | [] => Extractor.Returns merged
  | item :: rest =>
      let* merged' := merge_submodule merged item in
      merge_submodules merged' rest
  end.

(** The body of the outer loop for one [result]. *)
Definition merge_result (merged result : dict) : Extractor.outcome dict :=
  let* n := len (get result k_Description (JString [])) in
  let* m := len (get merged k_Description (JString [])) in
  let* merged1 :=
    if (m <? n)%nat
    then let* d := getitem result k_Description in
         Extractor.Returns (Merge.dict_set merged k_Description d)
    else Extractor.Returns merged in
  let* its := items (get result k_Submodules (JObject [])) in
  merge_submodules merged1 its.

Fixpoint merge_results (merged : dict) (results : list dict)
    : Extractor.outcome dict :=
  match results with
  | [] => Extractor.Returns merged
  | result :: rest =>
      let* merged' := merge_result merged result in
      merge_results merged' rest
  end.

(** [ModuleExtractor._merge_module_results] on dictionaries of any content:
    the value returned ([None] for an empty list), or the exception. *)
Definition _merge_module_results (module_results : list dict)
    : Extractor.outcome (option dict) :=
  match module_results with
  | [] => Extractor.Returns None
  | first :: rest =>
      let* merged := merge_results first rest in
      Extractor.Returns (Some merged)
  end.

(** The [for module_title, module_data in modules_content.items()] loop of
    [extract_modules], given for every module its title and the completions
    its chunks receive, one per chunk: the chunk loop inside its [try], then
    the merge, which no [try] encloses. *)
Fixpoint extract_modules_loop (json_loads : pystr -> Extractor.loads_result dict)
    (modules : list (pystr * list Extractor.completion))
    (all_modules : list (option dict))
    : Extractor.outcome (list (option dict)) :=
  match modules with
  | [] => Extractor.Returns all_modules
  | (module_title, responses) :: rest =>
      let module_results :=
        map to_dict
          (Extractor.process_chunks json_loads module_title responses []) in
      if Extractor.truthy module_results then
        let* merged_module := _merge_module_results module_results in
        extract_modules_loop json_loads rest (all_modules ++ [merged_module])
      else extract_modules_loop json_loads rest all_modules
  end.

End Pipeline.

(** ** Sample completions *)

Module Replies.
Import PyStr.

(** A string in double quotes, as JSON writes it. *)
Definition quoted (s : string) : pystr := [34%N] ++ of_string s ++ [34%N].

(** [{"module": "Billing", "Description": null, "Submodules": {}}] *)
Definition null_description_text : pystr :=
  of_string "{" ++ quoted "module" ++ of_string ": " ++ quoted "Billing"
  ++ of_string ", " ++ quoted "Description" ++ of_string ": null, "
  ++ quoted "Submodules" ++ of_string ": {}}".

Definition null_description : Pipeline.dict :=
  [(Pipeline.k_module, Pipeline.JString (of_string "Billing"));
   (Pipeline.k_Description, Pipeline.JNull);
   (Pipeline.k_Submodules, Pipeline.JObject [])].

(** [{"module": "Users", "Description": "Accounts", "Submodules": {}}] *)
Definition users_text : pystr :=
  of_string "{" ++ quoted "module" ++ of_string ": " ++ quoted "Users"
  ++ of_string ", " ++ quoted "Description" ++ of_string ": " ++ quoted "Accounts"
  ++ of_string ", " ++ quoted "Submodules" ++ of_string ": {}}".

Definition users : Pipeline.dict :=
  [(Pipeline.k_module, Pipeline.JString (of_string "Users"));
   (Pipeline.k_Description, Pipeline.JString (of_string "Accounts"));
   (Pipeline.k_Submodules, Pipeline.JObject [])].

(** [json.loads] on the texts above; every other text is taken not to
    parse. *)
Definition json_loads (s : pystr) : Extractor.loads_result Pipeline.dict :=
  if Extractor.pystr_eqb s null_description_text
  then Extractor.Loaded null_description
  else if Extractor.pystr_eqb s users_text
  then Extractor.Loaded users
  else Extractor.JSONDecodeError.

(** A [json.loads] that parses nothing. *)
Definition never_parses (s : pystr) : Extractor.loads_result Pipeline.dict :=
  Extractor.JSONDecodeError.




End Replies.

(** * Properties *)

Import PyStr.

(** ** Floats stay numbers *)

Section FloatSign.
Variables prec emax : Z.

Lemma iter_pos_invariant {A} (P : A -> Prop) (f : A -> A) :
  (forall x, P x -> P (f x)) ->
  forall n x, P x -> P (SpecFloat.iter_pos f n x).
Proof.
  intros Hf n. induction n as [n IH | n IH |]; intros x Hx; simpl; auto.
Qed.

Lemma shr_1_nonneg mrs : 0 <= shr_m mrs -> 0 <= shr_m (shr_1 mrs).
Proof.
  destruct mrs as [m r s]. simpl.
  destruct m as [| [p | p |] | [p | p |]]; simpl; lia.
Qed.

Lemma shr_nonneg mrs e n : 0 <= shr_m mrs -> 0 <= shr_m (fst (shr mrs e n)).
Proof.
  intros H. destruct n as [| p | p]; simpl; auto.
  apply (iter_pos_invariant (fun x => 0 <= shr_m x)); auto using shr_1_nonneg.
Qed.

Lemma shr_record_of_loc_m m l : shr_m (shr_record_of_loc m l) = m.
Proof. destruct l as [| []]; reflexivity. Qed.

Lemma shr_fexp_nonneg m e l :
  0 <= m -> 0 <= shr_m (fst (shr_fexp prec emax m e l)).
Proof.
  intros H. unfold shr_fexp. apply shr_nonneg.
  rewrite shr_record_of_loc_m. exact H.
Qed.

Lemma round_nearest_even_nonneg m l : 0 <= m -> 0 <= round_nearest_even m l.
Proof.
  intros H. destruct l as [| []]; simpl; try lia.
  destruct (Z.even m); lia.
Qed.

Lemma binary_round_aux_nonneg mx ex lx :
  0 <= mx -> PyFloat.nonneg (binary_round_aux prec emax false mx ex lx).
Proof.
  intros H. unfold binary_round_aux.
  pose proof (shr_fexp_nonneg mx ex lx H) as H1.
  destruct (shr_fexp prec emax mx ex lx) as [mrs' e']. simpl in H1.
  pose proof (round_nearest_even_nonneg _ (loc_of_shr_record mrs') H1) as H2.
  pose proof (shr_fexp_nonneg _ e' loc_Exact H2) as H3.
  destruct (shr_fexp prec emax _ e' loc_Exact) as [mrs'' e'']. simpl in H3.
  destruct (shr_m mrs'') as [| m | m]; simpl; try reflexivity; try lia.
  destruct (e'' <=? emax - prec); reflexivity.
Qed.

Lemma binary_normalize_nonneg m e :
  0 <= m -> PyFloat.nonneg (binary_normalize prec emax m e false).
Proof.
  intros H. destruct m as [| p | p]; simpl; try reflexivity; try lia.
  unfold binary_round. destruct (shl_align _ _ _) as [mz ez].
  apply binary_round_aux_nonneg. lia.
Qed.

Lemma SFadd_nonneg x y :
  PyFloat.nonneg x -> PyFloat.nonneg y -> PyFloat.nonneg (SFadd prec emax x y).
Proof.
  destruct x as [sx | sx | | sx mx ex], y as [sy | sy | | sy my ey];
    simpl; intros Hx Hy; subst; try reflexivity; try contradiction.
  apply binary_normalize_nonneg. unfold cond_Zopp. lia.
Qed.

Lemma SFadd_zero_l y :
  PyFloat.nonneg y -> SFadd prec emax (S754_zero false) y = y.
Proof.
  destruct y as [sy | sy | | sy my ey]; simpl; intros Hy; subst;
    try reflexivity; contradiction.
Qed.

Lemma SFdiv_nonneg x y :
  PyFloat.nonneg x -> PyFloat.nonneg y -> y <> S754_zero false ->
  x <> S754_infinity false \/ y <> S754_infinity false ->
  PyFloat.nonneg (SFdiv prec emax x y).
Proof.
  destruct x as [sx | sx | | sx mx ex], y as [sy | sy | | sy my ey];
    simpl; intros Hx Hy Hz Hi; subst; try reflexivity; try contradiction;
    try congruence.
  - destruct Hi; congruence.
  - unfold SFdiv_core_binary.
    set (m' := match _ with Z0 => Zpos mx | Zpos _ => _ | Zneg _ => 0 end).
    assert (0 <= m') as Hm.
    { subst m'. destruct (_ - _ - _); try lia. apply Z.shiftl_nonneg. lia. }
    pose proof (Z_div_mod m' (Zpos my) eq_refl) as Hd.
    destruct (Z.div_eucl m' (Zpos my)) as [q r].
    apply binary_round_aux_nonneg. nia.
Qed.
End FloatSign.

Lemma gt_Z_le_Z x z :
  PyFloat.nonneg x -> PyFloat.gt_Z x z = false -> PyFloat.le_Z x z = true.
Proof.
  destruct x as [s | s | | s m e]; simpl; intros Hx H; subst;
    try contradiction; try discriminate; try lia.
  destruct e; lia.
Qed.

(** ** Rounding to 53 bits *)

(** The number of binary digits of a mantissa. *)
Lemma digits2_pos_spec p :
  2 ^ (Zpos (digits2_pos p) - 1) <= Zpos p < 2 ^ Zpos (digits2_pos p).
Proof.
  induction p as [p IH | p IH |]; simpl digits2_pos.
  - rewrite Pos2Z.inj_succ.
    replace (Z.succ (Zpos (digits2_pos p)) - 1) with (Z.succ (Zpos (digits2_pos p) - 1)) by lia.
    rewrite !Z.pow_succ_r by lia. lia.
  - rewrite Pos2Z.inj_succ.
    replace (Z.succ (Zpos (digits2_pos p)) - 1) with (Z.succ (Zpos (digits2_pos p) - 1)) by lia.
    rewrite !Z.pow_succ_r by lia. lia.
  - simpl. lia.
Qed.

Lemma shr_inv_start m : 0 <= m -> PyFloat.shr_inv m 0 (shr_record_of_loc m loc_Exact).
Proof. intros H. unfold PyFloat.shr_inv. simpl. repeat split; try lia; try discriminate. Qed.

(** One more shift keeps the account of what was shifted out. *)
Lemma shr_inv_step m j mrs : PyFloat.shr_inv m j mrs -> PyFloat.shr_inv m (j + 1) (shr_1 mrs).
Proof.
  destruct mrs as [mk r s]. unfold PyFloat.shr_inv. simpl shr_m. simpl shr_r. simpl shr_s.
  intros (Hj & Hmk & HR & Hr & Hs).
  rewrite Z.pow_add_r by lia. change (2 ^ 1) with 2.
  assert (0 < 2 ^ j) as Hh by (apply Z.pow_pos_nonneg; lia).
  set (h := 2 ^ j) in *. clearbody h.
  assert ((r || s = true) <-> 2 * (m - mk * h) <> 0) as Hrs.
  { destruct r; simpl.
    - split; [intros _ | reflexivity]. destruct Hr as [Hr _]. specialize (Hr eq_refl). lia.
    - rewrite Hs. reflexivity. }
  destruct mk as [| [p | p |] | p]; simpl; try lia.
  - (* 0 *) split; [lia |]. split; [lia |]. split; [lia |].
    split; [split; [discriminate | lia] |]. rewrite Hrs. lia.
  - (* 2p+1 *) rewrite Pos2Z.inj_xI in *. split; [lia |]. split; [lia |]. split; [nia |].
    split; [split; [nia | reflexivity] |]. rewrite Hrs. nia.
  - rewrite Pos2Z.inj_xO in *. split; [lia |]. split; [lia |]. split; [nia |].
    split; [split; [discriminate | nia] |]. rewrite Hrs. nia.
  - split; [lia |]. split; [lia |]. split; [nia |].
    split; [split; [nia | reflexivity] |]. rewrite Hrs. nia.
Qed.

Lemma shr_inv_iter m p : forall j mrs,
  PyFloat.shr_inv m j mrs -> PyFloat.shr_inv m (j + Zpos p) (SpecFloat.iter_pos shr_1 p mrs).
Proof.
  induction p as [p IH | p IH |]; intros j mrs H; simpl.
  - replace (j + Zpos p~1) with (j + 1 + Zpos p + Zpos p) by lia.
    apply IH, IH, shr_inv_step, H.
  - replace (j + Zpos p~0) with (j + Zpos p + Zpos p) by lia.
    apply IH, IH, H.
  - apply shr_inv_step, H.
Qed.

Lemma shr_spec m e n :
  0 <= m ->
  exists mrs, shr (shr_record_of_loc m loc_Exact) e n = (mrs, e + Z.max 0 n) /\
              PyFloat.shr_inv m (Z.max 0 n) mrs.
Proof.
  intros H. destruct n as [| p | p]; simpl shr.
  - exists (shr_record_of_loc m loc_Exact). rewrite Z.add_0_r. split; [reflexivity |].
    apply shr_inv_start, H.
  - exists (SpecFloat.iter_pos shr_1 p (shr_record_of_loc m loc_Exact)).
    replace (Z.max 0 (Zpos p)) with (Zpos p) by lia. split; [reflexivity |].
    apply (shr_inv_iter m p 0), shr_inv_start, H.
  - exists (shr_record_of_loc m loc_Exact).
    replace (Z.max 0 (Zneg p)) with 0 by lia. rewrite Z.add_0_r. split; [reflexivity |].
    apply shr_inv_start, H.
Qed.

(** Rounding to nearest even lands within half a unit of the shifted value. *)
Lemma round_spec m j mrs :
  PyFloat.shr_inv m j mrs ->
  let m2 := round_nearest_even (shr_m mrs) (loc_of_shr_record mrs) in
  - 2 ^ j <= 2 * (m2 * 2 ^ j - m) <= 2 ^ j /\ shr_m mrs <= m2 <= shr_m mrs + 1.
Proof.
  destruct mrs as [mk r s]. unfold PyFloat.shr_inv. simpl shr_m. simpl shr_r. simpl shr_s.
  intros (Hj & Hmk & HR & Hr & Hs).
  assert (0 < 2 ^ j) as Hh by (apply Z.pow_pos_nonneg; lia).
  set (h := 2 ^ j) in *. clearbody h.
  destruct r, s; simpl.
  - destruct Hr as [Hr _]. specialize (Hr eq_refl). nia.
  - destruct Hr as [Hr _]. specialize (Hr eq_refl).
    assert (2 * (m - mk * h) = h) as Heq.
    { destruct (Z.eq_dec (2 * (m - mk * h)) h) as [E | E]; [exact E |].
      apply Hs in E. discriminate. }
    destruct (Z.even mk); nia.
  - assert (~ h <= 2 * (m - mk * h)) as Hlt by (intros X; apply Hr in X; discriminate).
    nia.
  - assert (2 * (m - mk * h) = 0) as Heq.
    { destruct (Z.eq_dec (2 * (m - mk * h)) 0) as [E | E]; [exact E |].
      apply Hs in E. discriminate. }
    nia.
Qed.

Lemma digits2_pos_unique p d :
  2 ^ (d - 1) <= Zpos p < 2 ^ d -> Zpos (digits2_pos p) = d.
Proof.
  intros H. pose proof (digits2_pos_spec p) as Hp.
  assert (0 < d) as Hd.
  { destruct (Z_lt_le_dec 0 d) as [X | X]; [exact X |].
    assert (2 ^ d <= 1); [| lia].
    destruct (Z.eq_dec d 0) as [-> | ?]; [simpl; lia |].
    rewrite Z.pow_neg_r by lia. lia. }
  assert (Z.log2 (Zpos p) = d - 1) as H1.
  { apply Z.log2_unique; [lia |]. replace (Z.succ (d - 1)) with d by lia. exact H. }
  assert (Z.log2 (Zpos p) = Zpos (digits2_pos p) - 1) as H2.
  { apply Z.log2_unique; [lia |].
    replace (Z.succ (Zpos (digits2_pos p) - 1)) with (Zpos (digits2_pos p)) by lia.
    exact Hp. }
  lia.
Qed.

Lemma fexp64_eq e : fexp 53 1024 e = PyFloat.fexp64 e.
Proof. reflexivity. Qed.

(** [binary_round_aux] on an exact input: shift by [k], round, and shift the
    rounded mantissa by [k2] should it have grown a digit. *)
Lemma binary_round_aux_spec m e k :
  0 <= m ->
  k = Z.max 0 (PyFloat.fexp64 (Zdigits2 m + e) - e) ->
  exists mk m2,
    0 <= m - mk * 2 ^ k < 2 ^ k /\ 0 <= mk /\ mk <= m2 <= mk + 1 /\
    - 2 ^ k <= 2 * (m2 * 2 ^ k - m) <= 2 ^ k /\
    forall k2,
      k2 = Z.max 0 (PyFloat.fexp64 (Zdigits2 m2 + (e + k)) - (e + k)) ->
      exists m3,
        0 <= m3 /\ 0 <= m2 - m3 * 2 ^ k2 < 2 ^ k2 /\
        binary_round_aux 53 1024 false m e loc_Exact =
        match m3 with
        | Z0 => S754_zero false
        | Zpos p => if e + k + k2 <=? 1024 - 53
                    then S754_finite false p (e + k + k2)
                    else S754_infinity false
        | Zneg _ => S754_nan
        end.
Proof.
  intros Hm Hk. unfold binary_round_aux, shr_fexp. rewrite !fexp64_eq.
  destruct (shr_spec m e (PyFloat.fexp64 (Zdigits2 m + e) - e) Hm) as (mrs & -> & Hinv).
  rewrite <- Hk in *.
  pose proof (round_spec _ _ _ Hinv) as [Hb Hr]. simpl in Hb, Hr.
  set (m2 := round_nearest_even (shr_m mrs) (loc_of_shr_record mrs)) in *.
  assert (0 <= m2) as Hm2 by (destruct Hinv as (_ & ? & _); lia).
  exists (shr_m mrs), m2.
  destruct Hinv as (_ & H1 & H2 & _).
  repeat split; try lia.
  intros k2 Hk2. rewrite fexp64_eq.
  destruct (shr_spec m2 (e + k) (PyFloat.fexp64 (Zdigits2 m2 + (e + k)) - (e + k)) Hm2)
    as (mrs2 & -> & Hinv2).
  rewrite <- Hk2 in *.
  exists (shr_m mrs2). destruct Hinv2 as (_ & H3 & H4 & _).
  repeat split; try lia.
Qed.

Lemma Z_gt_finite_scaled t m e K :
  0 <= K -> 0 <= e + K ->
  PyFloat.Z_gt t (S754_finite false m e) = (Zpos m * 2 ^ (e + K) <? t * 2 ^ K).
Proof.
  intros HK HeK. unfold PyFloat.Z_gt, PyFloat.signed.
  assert (0 < 2 ^ K) as HpK by (apply Z.pow_pos_nonneg; lia).
  destruct e as [| q | q].
  - rewrite Z.add_0_l. change (2 ^ 0) with 1.
    destruct (Z.ltb_spec (Zpos m * 1) t), (Z.ltb_spec (Zpos m * 2 ^ K) (t * 2 ^ K));
      try reflexivity; nia.
  - rewrite Z.pow_add_r by lia.
    assert (0 < 2 ^ Zpos q) by (apply Z.pow_pos_nonneg; lia).
    destruct (Z.ltb_spec (Zpos m * 2 ^ Zpos q) t),
             (Z.ltb_spec (Zpos m * (2 ^ Zpos q * 2 ^ K)) (t * 2 ^ K));
      try reflexivity; nia.
  - assert (2 ^ K = 2 ^ Zpos q * 2 ^ (Zneg q + K)) as ->.
    { rewrite <- Z.pow_add_r by lia. f_equal. lia. }
    assert (0 < 2 ^ Zpos q) by (apply Z.pow_pos_nonneg; lia).
    assert (0 < 2 ^ (Zneg q + K)) by (apply Z.pow_pos_nonneg; lia).
    destruct (Z.ltb_spec (Zpos m) (t * 2 ^ Zpos q)),
             (Z.ltb_spec (Zpos m * 2 ^ (Zneg q + K)) (t * (2 ^ Zpos q * 2 ^ (Zneg q + K))));
      try reflexivity; nia.
Qed.

Lemma pos_iter_xO p q : Zpos (Pos.iter xO p q) = Zpos p * 2 ^ Zpos q.
Proof.
  induction q as [| q IH] using Pos.peano_ind.
  - simpl. lia.
  - rewrite Pos.iter_succ, Pos2Z.inj_xO, IH, Pos2Z.inj_succ, Z.pow_succ_r by lia. lia.
Qed.

(** [float(n)] is exact for an integer of at most 53 bits. *)
Lemma of_Z_exact p :
  Zpos (digits2_pos p) <= 53 ->
  exists mz,
    PyFloat.of_Z (Zpos p) = S754_finite false mz (Zpos (digits2_pos p) - 53) /\
    Zpos mz = Zpos p * 2 ^ (53 - Zpos (digits2_pos p)) /\
    Zpos (digits2_pos mz) = 53.
Proof.
  intros Hd. pose proof (digits2_pos_spec p) as Hp.
  set (d := Zpos (digits2_pos p)) in *.
  assert (exists mz, shl_align p 0 (fexp 53 1024 (d + 0)) = (mz, d - 53) /\
                     Zpos mz = Zpos p * 2 ^ (53 - d)) as (mz & Hsh & Hmz).
  { unfold shl_align, fexp, emin. rewrite Z.add_0_r.
    replace (Z.max (d - 53) (3 - 1024 - 53) - 0) with (d - 53) by lia.
    destruct (d - 53) as [| q | q] eqn:Hq; try lia.
    - exists p. split; [reflexivity |]. replace (53 - d) with 0 by lia. simpl. lia.
    - exists (Pos.iter xO p q). split; [f_equal; lia |].
      rewrite pos_iter_xO. f_equal. f_equal. lia. }
  assert (Zpos (digits2_pos mz) = 53) as Hdz.
  { apply digits2_pos_unique. rewrite Hmz.
    assert (2 ^ (53 - 1) = 2 ^ (d - 1) * 2 ^ (53 - d)) as ->
      by (rewrite <- Z.pow_add_r by lia; f_equal; lia).
    assert (2 ^ 53 = 2 ^ d * 2 ^ (53 - d)) as ->
      by (rewrite <- Z.pow_add_r by lia; f_equal; lia).
    assert (0 < 2 ^ (53 - d)) by (apply Z.pow_pos_nonneg; lia).
    nia. }
  exists mz. split; [| split; assumption].
  unfold PyFloat.of_Z, PyFloat.prec, PyFloat.emax, binary_normalize, binary_round.
  fold d. rewrite Hsh.
  destruct (binary_round_aux_spec (Zpos mz) (d - 53) 0 ltac:(lia))
    as (mk & m2 & H1 & H2 & H3 & H4 & H5).
  { unfold Zdigits2, PyFloat.fexp64. rewrite Hdz. lia. }
  change (2 ^ 0) with 1 in *.
  assert (m2 = Zpos mz) as -> by lia.
  destruct (H5 0) as (m3 & H6 & H7 & ->).
  { unfold Zdigits2, PyFloat.fexp64. rewrite Hdz. lia. }
  change (2 ^ 0) with 1 in *.
  assert (m3 = Zpos mz) as -> by lia.
  rewrite !Z.add_0_r.
  destruct (Z.leb_spec (d - 53) (1024 - 53)); [reflexivity | lia].
Qed.

Lemma pow2_lt_inv a b : 0 <= b -> 2 ^ a < 2 ^ b -> a < b.
Proof.
  intros Hb H. destruct (Z_lt_le_dec a b) as [X | X]; [exact X |].
  assert (2 ^ b <= 2 ^ a) by (apply Z.pow_le_mono_r; lia). lia.
Qed.

(** [float(n) * 0.7] for [n] below [2^48]: a finite value within half a unit
    in the last place of the exact product. *)
Lemma mul_0_7_finite p :
  Zpos p < 2 ^ 48 ->
  exists (m2 : positive) (k d : Z),
    0 < d <= 48 /\ 52 <= k <= 53 /\
    (forall t, PyFloat.Z_gt t (PyFloat.mul (PyFloat.of_Z (Zpos p)) PyFloat.f0_7)
               = (Zpos m2 * 2 ^ k <? t * (2 ^ 53 * 2 ^ (53 - d)))) /\
    2 ^ (k + 52) <= Zpos p * 2 ^ (53 - d) * 6305039478318694 /\
    - 2 ^ k <= 2 * (Zpos m2 * 2 ^ k - Zpos p * 2 ^ (53 - d) * 6305039478318694)
            <= 2 ^ k.
Proof.
  intros Hp. pose proof (digits2_pos_spec p) as Hd.
  set (d := Zpos (digits2_pos p)) in *.
  assert (0 < d) as Hd0 by (subst d; lia).
  assert (d <= 48) as Hd48.
  { assert (d - 1 < 48); [| lia]. apply pow2_lt_inv; lia. }
  destruct (of_Z_exact p ltac:(fold d; lia)) as (mz & Hof & Hmz & Hdz).
  fold d in Hof, Hmz.
  pose proof (digits2_pos_spec mz) as Hz. rewrite Hdz in Hz.
  change (53 - 1) with 52 in Hz.
  unfold PyFloat.mul, PyFloat.prec, PyFloat.emax. rewrite Hof.
  unfold PyFloat.f0_7, SFmul. change (xorb false false) with false.
  set (M := 6305039478318694%positive).
  rewrite Pos2Z.inj_mul.
  pose proof (digits2_pos_spec (mz * M)) as HP. rewrite Pos2Z.inj_mul in HP.
  set (dP := Zpos (digits2_pos (mz * M))) in *.
  set (P := Zpos mz * Zpos M) in *.
  assert (2 ^ 104 <= P < 2 ^ 106) as HPb.
  { subst P M. change (2 ^ 104) with (2 ^ 52 * 2 ^ 52).
    change (2 ^ 106) with (2 ^ 53 * 2 ^ 53). nia. }
  assert (105 <= dP <= 106) as HdP.
  { assert (dP - 1 < 106) by (apply pow2_lt_inv; lia).
    assert (104 < dP) by (apply pow2_lt_inv; [subst dP |]; lia). lia. }
  destruct (binary_round_aux_spec P (d - 53 + -53) (dP - 53) ltac:(lia))
    as (mk & m2 & H1 & H2 & H3 & H4 & H5).
  { unfold Zdigits2, PyFloat.fexp64. subst P. rewrite <- Pos2Z.inj_mul. fold dP. lia. }
  set (k := dP - 53) in *.
  assert (0 < 2 ^ k) as Hh by (apply Z.pow_pos_nonneg; lia).
  assert (2 ^ (k + 52) <= P < 2 ^ (k + 53)) as HPk.
  { replace (k + 52) with (dP - 1) by lia. replace (k + 53) with dP by lia. exact HP. }
  rewrite !Z.pow_add_r in HPk by lia.
  assert (2 ^ 52 <= mk < 2 ^ 53) as Hmk by nia.
  assert (exists q2, m2 = Zpos q2) as [q2 ->] by (destruct m2; try lia; eauto).
  assert (exists k2 m3,
            0 <= k2 <= 1 /\ Zpos q2 = Zpos m3 * 2 ^ k2 /\
            binary_round_aux 53 1024 false P (d - 53 + -53) loc_Exact
            = S754_finite false m3 (d - 53 + -53 + k + k2))
    as (k2 & m3 & Hk2 & Hm3 & ->).
  { destruct (Z_lt_le_dec (Zpos q2) (2 ^ 53)) as [Hlt | Hge].
    - assert (Zpos (digits2_pos q2) = 53) as Hdq
        by (apply digits2_pos_unique; change (53 - 1) with 52; lia).
      destruct (H5 0) as (m3 & H6 & H7 & ->).
      { unfold Zdigits2, PyFloat.fexp64. rewrite Hdq. lia. }
      change (2 ^ 0) with 1 in H7.
      assert (m3 = Zpos q2) as -> by lia.
      exists 0, q2. split; [lia |]. split; [simpl; lia |].
      destruct (Z.leb_spec (d - 53 + -53 + k + 0) (1024 - 53)); [reflexivity | lia].
    - assert (Zpos q2 = 2 ^ 53) as Hq by lia.
      assert (Zpos (digits2_pos q2) = 54) as Hdq.
      { apply digits2_pos_unique. rewrite Hq. change (54 - 1) with 53.
        split; [lia |]. apply Z.pow_lt_mono_r; lia. }
      destruct (H5 1) as (m3 & H6 & H7 & ->).
      { unfold Zdigits2, PyFloat.fexp64. rewrite Hdq. lia. }
      change (2 ^ 1) with 2 in H7.
      assert (m3 = 2 ^ 52) as Hm3.
      { rewrite Hq in H7. change (2 ^ 53) with (2 * 2 ^ 52) in H7. lia. }
      destruct m3 as [| m3 |]; try (exfalso; lia).
      exists 1, m3. split; [lia |]. split; [rewrite Hq, Hm3; reflexivity |].
      destruct (Z.leb_spec (d - 53 + -53 + k + 1) (1024 - 53)); [reflexivity | lia]. }
  exists q2, k, d. split; [lia |]. split; [lia |].
  assert (P = Zpos p * 2 ^ (53 - d) * Zpos M) as HPeq
    by (subst P; rewrite Hmz; reflexivity).
  rewrite <- HPeq. split; [| split; [rewrite Z.pow_add_r by lia; lia | exact H4]].
  intros t.
  rewrite (Z_gt_finite_scaled t m3 _ (106 - d)) by lia.
  replace (d - 53 + -53 + k + k2 + (106 - d)) with (k2 + k) by lia.
  rewrite Z.pow_add_r by lia. rewrite Z.mul_assoc, <- Hm3.
  replace (106 - d) with (53 + (53 - d)) by lia.
  rewrite (Z.pow_add_r 2 53) by lia. reflexivity.
Qed.

(** The test [t > n * 0.7] against the exact comparison of [10 t] and [7 n]. *)
Lemma Z_gt_0_7_sandwich n t :
  0 <= n < 2 ^ 48 ->
  (7 * n < 10 * t ->
   PyFloat.Z_gt t (PyFloat.mul (PyFloat.of_Z n) PyFloat.f0_7) = true) /\
  (PyFloat.Z_gt t (PyFloat.mul (PyFloat.of_Z n) PyFloat.f0_7) = true ->
   7 * n <= 10 * t).
Proof.
  intros Hn. destruct n as [| p | p]; try lia.
  - simpl. split; intros H; [apply Z.ltb_lt | apply Z.ltb_lt in H]; lia.
  - destruct (mul_0_7_finite p ltac:(lia)) as (m2 & k & d & Hd & Hk & -> & HP & Hb).
    assert (0 < 2 ^ k) as Hh by (apply Z.pow_pos_nonneg; lia).
    assert (0 < 2 ^ (53 - d)) as HS by (apply Z.pow_pos_nonneg; lia).
    rewrite Z.pow_add_r in HP by lia.
    set (h := 2 ^ k) in *. set (S := 2 ^ (53 - d)) in *.
    set (A := Zpos m2 * h) in *. clearbody h S A.
    assert (Zpos p * S < 2 ^ 48 * S) as HNS by nia.
    set (NS := Zpos p * S) in *.
    change (2 ^ 52) with 4503599627370496 in HP.
    change (2 ^ 48) with 281474976710656 in HNS.
    change (2 ^ 53) with 9007199254740992.
    split.
    + intros Hlt. apply Z.ltb_lt.
      assert (7 * NS + S <= 10 * (t * S)) by (subst NS; nia).
      nia.
    + intros Hgt. apply Z.ltb_lt in Hgt.
      destruct (Z_le_gt_dec (7 * Zpos p) (10 * t)) as [X | X]; [exact X |].
      exfalso. assert (10 * (t * S) <= 7 * NS - S) by (subst NS; nia).
      nia.
Qed.

(** ** Token counts *)

Lemma word_tokens_nonneg w : PyFloat.nonneg (Extractor.word_tokens w).
Proof.
  unfold Extractor.word_tokens, PyFloat.div.
  assert (PyFloat.nonneg (PyFloat.of_Z (Z.of_nat (length w)))) as H
    by (apply binary_normalize_nonneg; lia).
  apply SFdiv_nonneg; try exact H; try reflexivity; try discriminate.
  right. discriminate.
Qed.

Lemma token_sum_snoc ws w :
  Extractor.token_sum (ws ++ [w]) =
  PyFloat.add (Extractor.token_sum ws) (Extractor.word_tokens w).
Proof. unfold Extractor.token_sum. rewrite fold_left_app. reflexivity. Qed.

Lemma token_sum_nonneg ws : PyFloat.nonneg (Extractor.token_sum ws).
Proof.
  induction ws as [| w ws IH] using rev_ind; [reflexivity |].
  rewrite token_sum_snoc. apply SFadd_nonneg; auto using word_tokens_nonneg.
Qed.

Lemma token_sum_single w :
  Extractor.token_sum [w] = Extractor.word_tokens w.
Proof. apply SFadd_zero_l, word_tokens_nonneg. Qed.

(** ** Words, [split] and [join] *)

Lemma is_word_cons c w :
  isspace c = false -> Forall (fun d => isspace d = false) w -> is_word (c :: w).
Proof. intros Hc Hw. split; [discriminate | constructor; assumption]. Qed.

Lemma split_words s : Forall is_word (split s).
Proof.
  induction s as [| c r IH]; simpl; [constructor |].
  destruct (isspace c) eqn:Hc; [exact IH |].
  destruct r as [| d r'].
  - constructor; [apply is_word_cons; auto | constructor].
  - destruct (isspace d) eqn:Hd.
    + constructor; [apply is_word_cons; auto | exact IH].
    + destruct (split (d :: r')) as [| w ws]; simpl.
      * constructor; [apply is_word_cons; auto | constructor].
      * inversion IH as [| ? ? [_ Hw] Hws]; subst.
        constructor; [apply is_word_cons; auto | exact Hws].
Qed.

Lemma split_word_then_space w r :
  is_word w -> split (w ++ 32%N :: r) = w :: split r.
Proof.
  intros [Hne Hw]. induction w as [| c w IH]; [congruence |].
  inversion Hw as [| ? ? Hc Hw']; subst.
  destruct w as [| d w'].
  - simpl. rewrite Hc. reflexivity.
  - inversion Hw' as [| ? ? Hd _]; subst.
    change (split ((c :: d :: w') ++ 32%N :: r))
      with (if isspace c then split ((d :: w') ++ 32%N :: r)
            else if isspace d then [c] :: split ((d :: w') ++ 32%N :: r)
                 else cons_first c (split ((d :: w') ++ 32%N :: r))).
    rewrite Hc, Hd, IH by (auto; discriminate). reflexivity.
Qed.

Lemma split_single_word w : is_word w -> split w = [w].
Proof.
  intros [Hne Hw]. induction w as [| c w IH]; [congruence |].
  inversion Hw as [| ? ? Hc Hw']; subst.
  destruct w as [| d w'].
  - simpl. rewrite Hc. reflexivity.
  - inversion Hw' as [| ? ? Hd _]; subst.
    change (split (c :: d :: w'))
      with (if isspace c then split (d :: w')
            else if isspace d then [c] :: split (d :: w')
                 else cons_first c (split (d :: w'))).
    rewrite Hc, Hd, IH by (auto; discriminate). reflexivity.
Qed.

(** Splitting a space-joined list of words gives the words back. *)
Lemma split_join ws : Forall is_word ws -> split (join space ws) = ws.
Proof.
  induction ws as [| w ws IH]; intros H; [reflexivity |].
  inversion H as [| ? ? Hw Hws]; subst.
  destruct ws as [| w' ws'].
  - apply split_single_word, Hw.
  - change (join space (w :: w' :: ws'))
      with (w ++ 32%N :: join space (w' :: ws')).
    rewrite split_word_then_space by exact Hw. rewrite IH by exact Hws.
    reflexivity.
Qed.

Lemma join_app sep (g h : list pystr) :
  g <> [] -> h <> [] -> join sep (g ++ h) = join sep g ++ sep ++ join sep h.
Proof.
  intros Hg Hh. induction g as [| w g IH]; [congruence |].
  destruct g as [| w' g'].
  - destruct h; [congruence | reflexivity].
  - change (join sep ((w :: w' :: g') ++ h))
      with (w ++ sep ++ join sep ((w' :: g') ++ h)).
    rewrite IH by discriminate.
    change (join sep (w :: w' :: g')) with (w ++ sep ++ join sep (w' :: g')).
    rewrite <- !app_assoc. reflexivity.
Qed.

Lemma join_nonempty sep (g : list pystr) :
  g <> [] -> Forall (fun w => w <> []) g -> join sep g <> [].
Proof.
  intros Hg H. destruct g as [| w g]; [congruence |].
  inversion H as [| ? ? Hw _]; subst.
  destruct g; simpl; [exact Hw |].
  destruct w; [congruence | discriminate].
Qed.

(** Joining the joined groups is joining all their words. *)
Lemma join_groups sep (groups : list (list pystr)) :
  Forall (fun g => g <> []) groups ->
  join sep (map (join sep) groups) = join sep (concat groups).
Proof.
  induction groups as [| g gs IH]; intros H; [reflexivity |].
  inversion H as [| ? ? Hg Hgs]; subst.
  destruct gs as [| g' gs'].
  - simpl. rewrite app_nil_r. reflexivity.
  - change (join sep (map (join sep) (g :: g' :: gs')))
      with (join sep g ++ sep ++ join sep (map (join sep) (g' :: gs'))).
    rewrite IH by exact Hgs.
    change (concat (g :: g' :: gs')) with (g ++ concat (g' :: gs')).
    rewrite join_app; [reflexivity | exact Hg |].
    inversion Hgs; subst. simpl. destruct g'; [congruence | discriminate].
Qed.

(** ** The chunk loop *)

Lemma chunk_loop_groups max_tokens words chunks cur len :
  Extractor.chunk_loop max_tokens words chunks cur len =
  chunks ++ map (join space) (Extractor.group_loop max_tokens words cur len).
Proof.
  revert chunks cur len.
  induction words as [| w ws IH]; intros chunks cur len; simpl.
  - destruct (Extractor.truthy cur); simpl; [reflexivity |].
    rewrite app_nil_r. reflexivity.
  - destruct (_ && _); rewrite IH; simpl; [| reflexivity].
    rewrite <- app_assoc. reflexivity.
Qed.

Lemma group_loop_concat max_tokens words cur len :
  concat (Extractor.group_loop max_tokens words cur len) = cur ++ words.
Proof.
  revert cur len. induction words as [| w ws IH]; intros cur len; simpl.
  - destruct cur; simpl; [reflexivity |]. rewrite app_nil_r. reflexivity.
  - destruct (_ && _); simpl; rewrite IH; [reflexivity |].
    rewrite <- app_assoc. reflexivity.
Qed.

Lemma truthy_nonempty {A} (l : list A) : Extractor.truthy l = true -> l <> [].
Proof. destruct l; [discriminate | discriminate]. Qed.

Lemma group_loop_nonempty max_tokens words cur len :
  Forall (fun g => g <> []) (Extractor.group_loop max_tokens words cur len).
Proof.
  revert cur len. induction words as [| w ws IH]; intros cur len; simpl.
  - destruct (Extractor.truthy cur) eqn:H; constructor;
      [apply truthy_nonempty, H | constructor].
  - destruct (PyFloat.gt_Z _ _); simpl; [| apply IH].
    destruct (Extractor.truthy cur) eqn:H; [| apply IH].
    constructor; [apply truthy_nonempty, H | apply IH].
Qed.

Lemma group_loop_within max_tokens words cur len :
  len = Extractor.token_sum cur ->
  cur = [] \/ Extractor.within max_tokens cur ->
  Forall (Extractor.within max_tokens) (Extractor.group_loop max_tokens words cur len).
Proof.
  revert cur len. induction words as [| w ws IH]; intros cur len Hlen Hcur; simpl.
  - destruct cur as [| c cur']; simpl; constructor; [| constructor].
    destruct Hcur as [Hcur | Hcur]; [discriminate | exact Hcur].
  - destruct (PyFloat.gt_Z _ _) eqn:Hgt; simpl.
    + destruct cur as [| c cur']; simpl.
      * apply IH; [subst len; symmetry; apply (token_sum_snoc [] w) |].
        right. left. reflexivity.
      * constructor.
        { destruct Hcur as [Hcur | Hcur]; [discriminate | exact Hcur]. }
        apply IH; [symmetry; apply token_sum_single |].
        right. left. reflexivity.
    + apply IH; [subst len; symmetry; apply token_sum_snoc |].
      right. right. rewrite token_sum_snoc. subst len.
      apply gt_Z_le_Z; [| exact Hgt].
      apply SFadd_nonneg; auto using token_sum_nonneg, word_tokens_nonneg.
Qed.

Lemma chunk_text_groups text max_tokens :
  exists groups : list (list pystr),
    Extractor._chunk_text text max_tokens = map (join space) groups /\
    concat groups = split text /\
    Forall (fun g => g <> []) groups /\
    Forall (Extractor.within max_tokens) groups.
Proof.
  exists (Extractor.group_loop max_tokens (split text) [] (S754_zero false)).
  unfold Extractor._chunk_text. rewrite chunk_loop_groups.
  split; [reflexivity |]. split; [apply group_loop_concat |].
  split; [apply group_loop_nonempty |].
  apply group_loop_within; [reflexivity | left; reflexivity].
Qed.

Lemma Forall_concat_inv {A} (P : A -> Prop) (ls : list (list A)) :
  Forall P (concat ls) -> Forall (Forall P) ls.
Proof.
  induction ls as [| l ls IH]; simpl; intros H; [constructor |].
  apply Forall_app in H as [H1 H2]. constructor; auto.
Qed.

(** ** Chunking *)

Lemma chunk_text_demo :
  Extractor._chunk_text (of_string "  alpha beta gamma   delta ") 12 =
  [of_string "alpha beta"; of_string "gamma"; of_string "delta"].
Proof. vm_compute. reflexivity. Qed.

(** C7. Joining the chunks of [_chunk_text] with single spaces and splitting
    on white space gives the word sequence of the input text; no chunk is
    empty; splitting the chunks one by one gives the same word sequence, so
    every word lies whole inside one chunk. *)
Theorem chunk_text_roundtrip (text : pystr) (max_tokens : Z) :
  split (join space (Extractor._chunk_text text max_tokens)) = split text /\
  Forall (fun chunk => chunk <> []) (Extractor._chunk_text text max_tokens) /\
  concat (map split (Extractor._chunk_text text max_tokens)) = split text.
Proof.
  destruct (chunk_text_groups text max_tokens) as (groups & -> & Hcat & Hne & _).
  pose proof (split_words text) as Hw. rewrite <- Hcat in Hw.
  pose proof (Forall_concat_inv _ _ Hw) as Hgw.
  split; [| split].
  - rewrite join_groups by exact Hne. rewrite split_join by exact Hw.
    exact Hcat.
  - apply Forall_map. clear Hcat Hw.
    induction groups as [| g gs IH]; [constructor |].
    inversion Hne; inversion Hgw; subst. constructor; [| auto].
    apply join_nonempty; [assumption |].
    eapply Forall_impl; [eassumption |]. intros w [Hw _]. exact Hw.
  - rewrite <- Hcat. f_equal. clear Hcat Hw Hne.
    induction groups as [| g gs IH]; [reflexivity |].
    inversion Hgw; subst. simpl. rewrite split_join by assumption.
    f_equal. auto.
Qed.

Lemma split_nonspace text :
  Exists (fun c => isspace c = false) text -> split text <> [].
Proof.
  induction text as [| c r IH]; intros H; [inversion H |].
  simpl. destruct (isspace c) eqn:Hc.
  - inversion H as [? ? Hc' | ? ? Hr]; subst; [congruence | auto].
  - destruct r as [| d r']; [discriminate |].
    destruct (isspace d); [discriminate |].
    destruct (split (d :: r')); discriminate.
Qed.

(** C8, as amended. For every input text with at least one character that is
    not white space, [_chunk_text] produces at least one chunk. *)
Theorem chunk_text_nonblank_has_chunk (text : pystr) (max_tokens : Z) :
  Exists (fun c => isspace c = false) text ->
  (1 <= length (Extractor._chunk_text text max_tokens))%nat.
Proof.
  intros H. apply split_nonspace in H.
  destruct (chunk_text_groups text max_tokens) as (groups & -> & Hcat & _).
  rewrite length_map. destruct groups; [| simpl; lia].
  simpl in Hcat. congruence.
Qed.

Lemma chunk_text_nonblank_has_chunk_witness :
  Exists (fun c => isspace c = false) (of_string "a") /\
  (1 <= length (Extractor._chunk_text (of_string "a") Extractor.default_max_tokens))%nat.
Proof.
  assert (Exists (fun c => isspace c = false) (of_string "a")) as H
    by (left; reflexivity).
  split; [exact H |].
  apply (chunk_text_nonblank_has_chunk (of_string "a") Extractor.default_max_tokens H).
Defined.

(** C8, as stated, fails on a text of one space: the text is not empty and no
    chunk is produced. *)
Lemma chunk_text_blank_no_chunk :
  of_string " " <> [] /\
  Extractor._chunk_text (of_string " ") Extractor.default_max_tokens = [].
Proof. split; [discriminate | reflexivity]. Qed.

(** C10. Every chunk of [_chunk_text] consists of exactly one word, or the
    float sum of [len(word)/0.75] over its words is at or under the limit. *)
Theorem chunk_text_within_limit (text : pystr) (max_tokens : Z) :
  Forall (fun chunk => Extractor.within max_tokens (split chunk))
    (Extractor._chunk_text text max_tokens).
Proof.
  destruct (chunk_text_groups text max_tokens) as (groups & -> & Hcat & _ & Hin).
  pose proof (split_words text) as Hw. rewrite <- Hcat in Hw.
  pose proof (Forall_concat_inv _ _ Hw) as Hgw. clear Hcat Hw.
  apply Forall_map.
  induction groups as [| g gs IH]; [constructor |].
  inversion Hin; inversion Hgw; subst. constructor; [| auto].
  simpl. rewrite split_join by assumption. assumption.
Qed.

(** ** Malformed completions *)

Lemma find_nth c s :
  0 <= Extractor.find c s ->
  nth_error s (Z.to_nat (Extractor.find c s)) = Some c.
Proof.
  induction s as [| d r IH]; simpl; [lia |].
  destruct (N.eqb_spec d c) as [-> | Hne]; [reflexivity |].
  destruct (Extractor.find c r <? 0) eqn:Hneg; [lia |].
  intros _. apply Z.ltb_ge in Hneg.
  rewrite Z2Nat.inj_add by lia. rewrite Nat.add_comm. simpl. auto.
Qed.

Lemma rfind_nth c s :
  0 <= Extractor.rfind c s ->
  nth_error s (Z.to_nat (Extractor.rfind c s)) = Some c.
Proof.
  induction s as [| d r IH]; simpl; [lia |].
  destruct (0 <=? Extractor.rfind c r) eqn:Hpos.
  - intros _. apply Z.leb_le in Hpos.
    rewrite Z2Nat.inj_add by lia. rewrite Nat.add_comm. simpl. auto.
  - destruct (N.eqb_spec d c) as [-> | Hne]; [reflexivity | lia].
Qed.

Lemma lstrip_suffix s : exists pre, s = pre ++ lstrip s.
Proof.
  induction s as [| c r [pre IH]]; [exists []; reflexivity |].
  simpl. destruct (isspace c).
  - exists (c :: pre). simpl. f_equal. exact IH.
  - exists []. reflexivity.
Qed.

Lemma rstrip_prefix s : exists post, s = rstrip s ++ post.
Proof.
  unfold rstrip. destruct (lstrip_suffix (rev s)) as [pre H].
  exists (rev pre). rewrite <- rev_app_distr, <- H, rev_involutive.
  reflexivity.
Qed.

Lemma strip_infix s : exists pre post, s = pre ++ strip s ++ post.
Proof.
  unfold strip. destruct (lstrip_suffix s) as [pre H].
  destruct (rstrip_prefix (lstrip s)) as [post H'].
  exists pre, post. rewrite <- H'. exact H.
Qed.

Lemma has_brace_pair_infix pre t post :
  Extractor.has_brace_pair t -> Extractor.has_brace_pair (pre ++ t ++ post).
Proof.
  intros (i & j & Hij & Hi & Hj).
  assert (forall k x, nth_error t k = Some x ->
                      nth_error (pre ++ t ++ post) (length pre + k) = Some x) as Hk.
  { intros k x Hx. rewrite nth_error_app2 by lia.
    replace (length pre + k - length pre)%nat with k by lia.
    rewrite nth_error_app1; [exact Hx |].
    apply nth_error_Some. congruence. }
  exists (length pre + i)%nat, (length pre + j)%nat.
  split; [lia |]. split; auto.
Qed.

(** When the code finds its two indices, the text has a brace pair. *)
Lemma indices_give_pair s :
  (0 <=? Extractor.find Extractor.lbrace s)
  && (Extractor.find Extractor.lbrace s <? Extractor.rfind Extractor.rbrace s + 1)
  = true ->
  Extractor.has_brace_pair s.
Proof.
  intros H. apply andb_true_iff in H as [H1 H2].
  apply Z.leb_le in H1. apply Z.ltb_lt in H2.
  pose proof (find_nth Extractor.lbrace s H1) as Hl.
  pose proof (rfind_nth Extractor.rbrace s ltac:(lia)) as Hr.
  exists (Z.to_nat (Extractor.find Extractor.lbrace s)),
         (Z.to_nat (Extractor.rfind Extractor.rbrace s)).
  split; [| split; assumption].
  assert (Extractor.find Extractor.lbrace s <> Extractor.rfind Extractor.rbrace s)
    as Hne by (intros Heq; rewrite Heq in Hl; rewrite Hl in Hr; discriminate).
  lia.
Qed.

Lemma process_chunks_app {J} (json_loads : pystr -> Extractor.loads_result J)
    title before after acc :
  Extractor.process_chunks json_loads title (before ++ after) acc =
  Extractor.process_chunks json_loads title after
    (Extractor.process_chunks json_loads title before acc).
Proof.
  revert acc. induction before as [| r rs IH]; intros acc; [reflexivity |].
  simpl. destruct r; simpl; apply IH.
Qed.

(** X23: for every module title and every completion text that has no brace
    pair, or whose bracketed substring [json.loads] does not parse, the
    single-module extraction returns the placeholder module instead of
    raising, and the chunk loop goes on: the chunks before and after are
    processed as they would be, with the placeholder recorded in between. *)
Theorem malformed_response_gives_placeholder {J}
    (json_loads : pystr -> Extractor.loads_result J)
    (module_title text : pystr) :
  ~ Extractor.has_brace_pair text \/
  (forall v, json_loads (Extractor.json_str (strip text)) <> Extractor.Loaded v) ->
  Extractor._extract_module_with_submodules json_loads module_title
    (Extractor.Completion (Some text))
  = Extractor.Returns (Extractor.placeholder module_title) /\
  forall before after module_results,
    Extractor.process_chunks json_loads module_title
      (before ++ Extractor.Completion (Some text) :: after) module_results
    = Extractor.process_chunks json_loads module_title after
        (Extractor.process_chunks json_loads module_title before module_results
         ++ [Extractor.placeholder module_title]).
Proof.
  intros H.
  assert (Extractor._extract_module_with_submodules json_loads module_title
            (Extractor.Completion (Some text))
          = Extractor.Returns (Extractor.placeholder module_title)) as Hret.
  { simpl. f_equal.
    destruct (_ && _) eqn:Hcond; [| reflexivity].
    destruct H as [Hno | Hparse].
    - exfalso. apply Hno. apply indices_give_pair in Hcond.
      destruct (strip_infix text) as (pre & post & Heq). rewrite Heq.
      apply has_brace_pair_infix, Hcond.
    - destruct (json_loads _) eqn:Hl; try reflexivity.
      exfalso. exact (Hparse v eq_refl). }
  split; [exact Hret |].
  intros before after acc. rewrite process_chunks_app.
  change (Extractor.process_chunks json_loads module_title
            (Extractor.Completion (Some text) :: after) ?a)
    with (match Extractor._extract_module_with_submodules json_loads
                  module_title (Extractor.Completion (Some text)) with
          | Extractor.Returns chunk_result =>
              Extractor.process_chunks json_loads module_title after
                (a ++ [chunk_result])
          | Extractor.Raises =>
              Extractor.process_chunks json_loads module_title after a
          end).
  rewrite Hret. reflexivity.
Qed.

Lemma malformed_response_gives_placeholder_witness :
  Extractor._extract_module_with_submodules Examples.never_json
    (of_string "Billing") (Extractor.Completion (Some (of_string "Sorry, { no JSON } here")))
  = Extractor.Returns (Extractor.placeholder (of_string "Billing")).
Proof.
  refine (proj1 (malformed_response_gives_placeholder Examples.never_json
                   (of_string "Billing") (of_string "Sorry, { no JSON } here") _)).
  right. intros v. unfold Examples.never_json. discriminate.
Defined.


(** ** A run in which no completion holds JSON *)

Lemma parse_malformed {J} (json_loads : pystr -> Extractor.loads_result J)
    (module_title text : pystr) :
  ~ Extractor.has_brace_pair text \/
  (forall v, json_loads (Extractor.json_str (strip text)) <> Extractor.Loaded v) ->
  Extractor.parse_response json_loads module_title (Some text)
  = Extractor.placeholder module_title.
Proof.
  intros H. simpl.
  destruct (_ && _) eqn:Hcond; [| reflexivity].
  destruct H as [Hno | Hparse].
  - exfalso. apply Hno. apply indices_give_pair in Hcond.
    destruct (strip_infix text) as (pre & post & Heq). rewrite Heq.
    apply has_brace_pair_infix, Hcond.
  - destruct (json_loads _) eqn:Hl; try reflexivity.
    exfalso. exact (Hparse v eq_refl).
Qed.

Lemma process_chunks_malformed {J} (json_loads : pystr -> Extractor.loads_result J)
    (module_title : pystr) (texts : list pystr)
    (module_results : list (Extractor.module_value J)) :
  (forall text, text ∈ texts ->
     ~ Extractor.has_brace_pair text \/
     (forall v, json_loads (Extractor.json_str (strip text)) <> Extractor.Loaded v)) ->
  Extractor.process_chunks json_loads module_title
    (map (fun text => Extractor.Completion (Some text)) texts) module_results
  = module_results ++ repeat (Extractor.placeholder module_title) (length texts).
Proof.
  revert module_results.
  induction texts as [| text texts IH]; intros module_results H.
  - simpl. rewrite app_nil_r. reflexivity.
  - cbn [map Extractor.process_chunks Extractor._extract_module_with_submodules].
    rewrite parse_malformed by (apply H; left).
    rewrite IH by (intros t Ht; apply H; right; exact Ht).
    rewrite <- app_assoc. reflexivity.
Qed.

Lemma merge_result_placeholder (module_title : pystr) :
  Pipeline.merge_result
    (Pipeline.to_dict (Extractor.placeholder module_title))
    (Pipeline.to_dict (Extractor.placeholder module_title))
  = Extractor.Returns (Pipeline.to_dict (Extractor.placeholder module_title)).
Proof. vm_compute. reflexivity. Qed.

Lemma merge_results_placeholders (module_title : pystr) (n : nat) :
  Pipeline.merge_results
    (Pipeline.to_dict (Extractor.placeholder module_title))
    (repeat (Pipeline.to_dict (Extractor.placeholder module_title)) n)
  = Extractor.Returns (Pipeline.to_dict (Extractor.placeholder module_title)).
Proof.
  induction n as [| n IH]; [reflexivity |].
  cbn [repeat Pipeline.merge_results]. rewrite merge_result_placeholder.
  exact IH.
Qed.

Lemma extract_modules_loop_prose
    (json_loads : pystr -> Extractor.loads_result Pipeline.dict)
    (modules : list (pystr * list pystr)) (all_modules : list (option Pipeline.dict)) :
  (forall title texts text, (title, texts) ∈ modules -> text ∈ texts ->
     ~ Extractor.has_brace_pair text \/
     (forall v, json_loads (Extractor.json_str (strip text)) <> Extractor.Loaded v)) ->
  Pipeline.extract_modules_loop json_loads
    (map (fun m => (fst m, map (fun text => Extractor.Completion (Some text)) (snd m)))
       modules) all_modules
  = Extractor.Returns
      (all_modules
       ++ map (fun m => Some (Pipeline.to_dict (Extractor.placeholder (fst m))))
            (List.filter (fun m => Extractor.truthy (snd m)) modules)).
Proof.
  revert all_modules.
  induction modules as [| [title texts] modules IH]; intros all_modules H.
  - simpl. rewrite app_nil_r. reflexivity.
  - cbn [map fst snd Pipeline.extract_modules_loop List.filter].
    rewrite process_chunks_malformed by (intros t Ht; apply (H title texts); [left | exact Ht]).
    cbn [app]. rewrite map_repeat.
    destruct texts as [| text texts].
    + simpl. apply IH. intros t ts x Hm Hx. apply (H t ts x); [right; exact Hm | exact Hx].
    + cbn [length repeat Extractor.truthy Pipeline._merge_module_results].
      rewrite merge_results_placeholders. cbn [Pipeline.bind].
      rewrite IH by (intros t ts x Hm Hx; apply (H t ts x); [right; exact Hm | exact Hx]).
      rewrite <- app_assoc. reflexivity.
Qed.

(** X24: when no completion of a run holds JSON (every text lacks a brace
    pair, or its bracketed part does not parse), the module loop of
    [extract_modules] raises nothing and returns one placeholder module for
    every module that has at least one chunk, in order. *)
Theorem prose_only_run_completes
    (json_loads : pystr -> Extractor.loads_result Pipeline.dict)
    (modules : list (pystr * list pystr)) :
  (forall title texts text, (title, texts) ∈ modules -> text ∈ texts ->
     ~ Extractor.has_brace_pair text \/
     (forall v, json_loads (Extractor.json_str (strip text)) <> Extractor.Loaded v)) ->
  Pipeline.extract_modules_loop json_loads
    (map (fun m => (fst m, map (fun text => Extractor.Completion (Some text)) (snd m)))
       modules) []
  = Extractor.Returns
      (map (fun m => Some (Pipeline.to_dict (Extractor.placeholder (fst m))))
         (List.filter (fun m => Extractor.truthy (snd m)) modules)).
Proof.
  intros H. apply (extract_modules_loop_prose json_loads modules [] H).
Qed.

Lemma prose_only_run_completes_witness :
  Pipeline.extract_modules_loop Replies.never_parses
    (map (fun m => (fst m, map (fun text => Extractor.Completion (Some text)) (snd m)))
       [(of_string "Billing", [of_string "Sorry, { no JSON } here"; of_string "none"]);
        (of_string "Users", [])]) []
  = Extractor.Returns
      (map (fun m => Some (Pipeline.to_dict (Extractor.placeholder (fst m))))
         (List.filter (fun m => Extractor.truthy (snd m))
            [(of_string "Billing", [of_string "Sorry, { no JSON } here"; of_string "none"]);
             (of_string "Users", [])])).
Proof.
  apply (prose_only_run_completes Replies.never_parses).
  intros title texts text _ _. right. intros v. discriminate.
Defined.

(** ** The crawl loop: what only the loop changes *)

Import Crawler.

Lemma same_core_refl c : same_core c c.
Proof. repeat split. Qed.

Lemma same_core_trans c1 c2 c3 :
  same_core c1 c2 -> same_core c2 c3 -> same_core c1 c3.
Proof. unfold same_core. intros (? & ? & ? & ?) (? & ? & ? & ?). repeat split; congruence. Qed.

Lemma extract_clean_text_core E c url :
  same_core c (fst (extract_clean_text E c url)).
Proof.
  unfold extract_clean_text.
  destruct (pg_extract (site E url)) as [x |]; [| apply same_core_refl].
  destruct (x_metadata x); [| repeat split].
  destruct (x_structure x); [| repeat split].
  destruct (x_enhanced x); repeat split.
Qed.

Lemma visit_anchor_core E url d a c links c' links' :
  visit_anchor E url d a (c, links) = Some (c', links') -> same_core c c'.
Proof.
  unfold visit_anchor. destruct (_ || _).
  { intros [= <- <-]. apply same_core_refl. }
  destruct (urljoin E url (a_href a)) as [joined |]; [| discriminate].
  destruct (is_valid_url E _ url) as [valid |]; [| discriminate].
  destruct (_ && _).
  - destruct (_ && _); intros [= <- <-]; repeat split.
  - intros [= <- <-]. apply same_core_refl.
Qed.

Lemma visit_anchors_core E url d anchors c links :
  same_core c (fst (visit_anchors E url d anchors (c, links))).
Proof.
  revert c links.
  induction anchors as [| a rest IH]; intros c links; cbn [visit_anchors].
  - apply same_core_refl.
  - destruct (visit_anchor E url d a (c, links)) as [[c' links'] |] eqn:Ha.
    + eapply same_core_trans; [eapply visit_anchor_core, Ha | apply IH].
    + apply same_core_refl.
Qed.

Lemma get_links_core E c url d : same_core c (fst (get_links E c url d)).
Proof.
  unfold get_links. destruct (_ <=? _); [apply same_core_refl |].
  destruct (pg_anchors (site E url)); [| apply same_core_refl].
  apply visit_anchors_core.
Qed.

Lemma enqueue_links_fields c links d :
  let c' := enqueue_links c links d in
  visited_urls c' = visited_urls c /\ max_pages c' = max_pages c /\
  max_depth c' = max_depth c /\ content_map c' = content_map c /\
  url_hierarchy c' = url_hierarchy c /\ url_titles c' = url_titles c /\
  url_depths c' = url_depths c /\ url_metadata c' = url_metadata c /\
  url_structure c' = url_structure c.
Proof.
  revert c. induction links as [| l rest IH]; intros c; simpl; [repeat split |].
  destruct (_ && _); [| apply IH].
  specialize (IH (set_queue c (queue c ++ [(l, d)]))). simpl in IH. exact IH.
Qed.

Lemma enqueue_links_queue_inv c links d :
  queue_inv c -> queue_inv (enqueue_links c links d).
Proof.
  revert c. induction links as [| l rest IH]; intros c H; simpl; [exact H |].
  destruct (negb (bool_decide (l ∈ visited_urls c))) eqn:Hv; simpl; [| auto].
  destruct (negb (bool_decide (l ∈ map fst (queue c)))) eqn:Hq; simpl; [| auto].
  apply IH. apply negb_true_iff, bool_decide_eq_false in Hv, Hq.
  destruct H as [Hnd Hnv]. split; simpl.
  - rewrite map_app. simpl. apply NoDup_app. split; [exact Hnd |].
    split; [| apply NoDup_singleton].
    intros x Hx Hx'. apply list_elem_of_singleton in Hx'. subst. auto.
  - intros u Hu. rewrite map_app in Hu. simpl in Hu.
    apply elem_of_app in Hu as [Hu | Hu]; [auto |].
    apply list_elem_of_singleton in Hu. subst. exact Hv.
Qed.

(** One pass visits the URL at the head of the frontier and nothing else. *)
Lemma crawl_iter_visited E c u d rest :
  queue c = (u, d) :: rest -> queue_inv c ->
  visited_urls (crawl_iter E c) = {[u]} ∪ visited_urls c /\ u ∉ visited_urls c.
Proof.
  intros Hq [Hnd Hnv].
  assert (u ∉ visited_urls c) as Hu by (apply Hnv; rewrite Hq; left).
  split; [| exact Hu].
  unfold crawl_iter. rewrite Hq. simpl.
  rewrite bool_decide_eq_false_2 by exact Hu.
  pose proof (extract_clean_text_core E (add_visited (set_queue c rest) u) u) as H1.
  destruct (extract_clean_text E _ u) as [c2 content]. simpl in H1.
  set (c3 := if Extractor.truthy (strip content) then set_content c2 u content else c2).
  assert (same_core c2 c3) as H2 by (subst c3; destruct (Extractor.truthy _); repeat split).
  pose proof (get_links_core E c3 u d) as H3.
  destruct (get_links E c3 u d) as [c4 links]. simpl in H3.
  destruct H1 as (V1 & _), H2 as (V2 & _), H3 as (V3 & _).
  destruct (d <? max_depth c4).
  - destruct (enqueue_links_fields c4 (prioritize_urls links) (d + 1)) as (V4 & _).
    rewrite V4, V3, V2, V1. reflexivity.
  - rewrite V3, V2, V1. reflexivity.
Qed.

Lemma crawl_iter_max_pages E c : max_pages (crawl_iter E c) = max_pages c.
Proof.
  unfold crawl_iter. destruct (queue c) as [| [u d] rest]; [reflexivity |].
  destruct (bool_decide _); [reflexivity |].
  pose proof (extract_clean_text_core E (add_visited (set_queue c rest) u) u) as H1.
  destruct (extract_clean_text E _ u) as [c2 content]. simpl in H1.
  set (c3 := if Extractor.truthy (strip content) then set_content c2 u content else c2).
  assert (same_core c2 c3) as H2 by (subst c3; destruct (Extractor.truthy _); repeat split).
  pose proof (get_links_core E c3 u d) as H3.
  destruct (get_links E c3 u d) as [c4 links]. simpl in H3.
  destruct H1 as (_ & _ & P1 & _), H2 as (_ & _ & P2 & _), H3 as (_ & _ & P3 & _).
  destruct (d <? max_depth c4).
  - destruct (enqueue_links_fields c4 (prioritize_urls links) (d + 1)) as (_ & P4 & _).
    rewrite P4, P3, P2, P1. reflexivity.
  - rewrite P3, P2, P1. reflexivity.
Qed.

Lemma crawl_iter_queue_inv E c : queue_inv c -> queue_inv (crawl_iter E c).
Proof.
  intros [Hnd Hnv]. unfold crawl_iter.
  destruct (queue c) as [| [u d] rest] eqn:Hq; [split; rewrite ?Hq; assumption |].
  simpl in Hnd, Hnv. apply NoDup_cons in Hnd as [Hu Hnd].
  assert (queue_inv (set_queue c rest)) as H0.
  { split; simpl; [exact Hnd |]. intros x Hx. apply Hnv. right. exact Hx. }
  destruct (bool_decide _) eqn:Hvis; [exact H0 |].
  assert (queue_inv (add_visited (set_queue c rest) u)) as H1.
  { split; simpl; [exact Hnd |]. intros x Hx.
    apply not_elem_of_union. split; [| apply Hnv; right; exact Hx].
    apply not_elem_of_singleton. intros ->. auto. }
  pose proof (extract_clean_text_core E (add_visited (set_queue c rest) u) u) as C1.
  destruct (extract_clean_text E _ u) as [c2 content]. simpl in C1.
  set (c3 := if Extractor.truthy (strip content) then set_content c2 u content else c2).
  assert (same_core c2 c3) as C2 by (subst c3; destruct (Extractor.truthy _); repeat split).
  pose proof (get_links_core E c3 u d) as C3.
  destruct (get_links E c3 u d) as [c4 links]. simpl in C3.
  assert (queue_inv c4) as H4.
  { destruct C1 as (V1 & Q1 & _), C2 as (V2 & Q2 & _), C3 as (V3 & Q3 & _).
    unfold queue_inv. rewrite Q3, Q2, Q1, V3, V2, V1. exact H1. }
  destruct (d <? max_depth c4); [apply enqueue_links_queue_inv |]; exact H4.
Qed.

(** ** The page budget *)

Lemma crawl_init_queue_inv max_pages max_depth start_url :
  queue_inv (crawl_init max_pages max_depth start_url).
Proof.
  split; simpl.
  - apply NoDup_singleton.
  - intros u _. apply not_elem_of_empty.
Qed.

Lemma loop_cond_true c :
  loop_cond c = true ->
  (exists u d rest, queue c = (u, d) :: rest) /\
  Z.of_nat (size (visited_urls c)) < max_pages c.
Proof.
  unfold loop_cond. intros H. apply andb_true_iff in H as [Hq Hs].
  apply Z.ltb_lt in Hs. split; [| exact Hs].
  destruct (queue c) as [| [u d] rest]; [discriminate | eauto].
Qed.

(** A pass of the loop adds exactly one URL to the visited set. *)
Lemma crawl_iter_size E c :
  queue_inv c -> loop_cond c = true ->
  size (visited_urls (crawl_iter E c)) = S (size (visited_urls c)).
Proof.
  intros Hinv Hc. apply loop_cond_true in Hc as [(u & d & rest & Hq) _].
  destruct (crawl_iter_visited E c u d rest Hq Hinv) as [-> Hu].
  rewrite size_union by set_solver. rewrite size_singleton. reflexivity.
Qed.

Lemma crawl_state_inv E n c :
  queue_inv c -> Z.of_nat (size (visited_urls c)) <= Z.max 0 (max_pages c) ->
  let c' := crawl_state E n c in
  queue_inv c' /\ max_pages c' = max_pages c /\
  Z.of_nat (size (visited_urls c')) <= Z.max 0 (max_pages c).
Proof.
  revert c. induction n as [| n IH]; intros c Hq Hs; simpl; [auto |].
  destruct (loop_cond c) eqn:Hc; [| auto].
  pose proof (crawl_iter_size E c Hq Hc) as Hsz.
  pose proof (crawl_iter_max_pages E c) as Hmp.
  apply loop_cond_true in Hc as [_ Hlt].
  destruct (IH (crawl_iter E c)) as (H1 & H2 & H3).
  - apply crawl_iter_queue_inv, Hq.
  - rewrite Hmp, Hsz. lia.
  - rewrite Hmp in H2, H3. auto.
Qed.

Lemma crawl_loop_state E fuel c c' :
  crawl_loop E fuel c = Some c' ->
  c' = crawl_state E fuel c /\ loop_cond c' = false.
Proof.
  revert c. induction fuel as [| fuel IH]; intros c; simpl.
  - destruct (loop_cond c) eqn:Hc; [discriminate |]. intros [= <-]. auto.
  - destruct (loop_cond c) eqn:Hc; [apply IH |]. intros [= <-]. auto.
Qed.

(** With the frontier free of visited URLs every pass uses up one page of
    the budget, so what is left of the budget is enough fuel. *)
Lemma crawl_loop_terminates E fuel c :
  queue_inv c ->
  max_pages c - Z.of_nat (size (visited_urls c)) <= Z.of_nat fuel ->
  exists c', crawl_loop E fuel c = Some c'.
Proof.
  revert c. induction fuel as [| fuel IH]; intros c Hq Hm; simpl.
  - destruct (loop_cond c) eqn:Hc; [| eauto].
    apply loop_cond_true in Hc as [_ Hlt]. lia.
  - destruct (loop_cond c) eqn:Hc; [| eauto].
    apply IH; [apply crawl_iter_queue_inv, Hq |].
    rewrite crawl_iter_max_pages, (crawl_iter_size E c Hq Hc). lia.
Qed.

(** C6. At every point of the crawl loop, and after it, the visited set
    holds at most [max_pages] URLs; and the loop ends, whatever links the
    site keeps offering: [max_pages] passes are always enough. *)
Theorem crawl_budget_and_termination (E : env) (max_pages max_depth : Z)
    (start_url : string) :
  0 <= max_pages ->
  (forall n,
     Z.of_nat (size (visited_urls
       (crawl_state E n (crawl_init max_pages max_depth start_url))))
     <= max_pages) /\
  (forall fuel, (Z.to_nat max_pages <= fuel)%nat ->
     exists r c,
       crawl E max_pages max_depth start_url fuel = Some (r, c) /\
       Z.of_nat (size (visited_urls c)) <= max_pages).
Proof.
  intros Hmp.
  assert (forall n,
     Z.of_nat (size (visited_urls
       (crawl_state E n (crawl_init max_pages max_depth start_url))))
     <= max_pages) as Hbound.
  { intros n.
    destruct (crawl_state_inv E n (crawl_init max_pages max_depth start_url))
      as (_ & _ & H).
    - apply crawl_init_queue_inv.
    - cbn [crawl_init visited_urls Crawler.max_pages]. rewrite size_empty. lia.
    - cbn [crawl_init Crawler.max_pages] in H. lia. }
  split; [exact Hbound |].
  intros fuel Hfuel. unfold crawl.
  destruct (crawl_loop_terminates E fuel (crawl_init max_pages max_depth start_url))
    as [c Hc].
  - apply crawl_init_queue_inv.
  - cbn [crawl_init visited_urls Crawler.max_pages]. rewrite size_empty. lia.
  - rewrite Hc. exists (result_of c), c. split; [reflexivity |].
    apply crawl_loop_state in Hc as [-> _]. apply Hbound.
Qed.

Lemma crawl_budget_and_termination_witness :
  0 <= 2 /\
  exists r c,
    crawl (Examples.E Examples.site_abc) 2 1 Examples.url_a 2 = Some (r, c) /\
    Z.of_nat (size (visited_urls c)) <= 2.
Proof.
  split; [lia |].
  apply (crawl_budget_and_termination (Examples.E Examples.site_abc) 2 1
           Examples.url_a ltac:(lia)).
  vm_compute. lia.
Defined.

(** ** Keys of the returned dictionaries *)

Lemma keys_inv_fields s c c' :
  visited_urls c' = visited_urls c -> content_map c' = content_map c ->
  url_hierarchy c' = url_hierarchy c -> url_titles c' = url_titles c ->
  url_depths c' = url_depths c -> url_metadata c' = url_metadata c ->
  url_structure c' = url_structure c ->
  keys_inv s c -> keys_inv s c'.
Proof.
  unfold keys_inv, discovered. intros -> -> -> -> -> -> ->. auto.
Qed.

Lemma keys_inv_add_visited s c u : keys_inv s c -> keys_inv s (add_visited c u).
Proof.
  intros (Hc & Hm & Hs & Ht & Hd). unfold keys_inv, discovered in *. simpl.
  repeat split; intros v Hv.
  - apply elem_of_union_r; auto.
  - apply elem_of_union_r; auto.
  - apply elem_of_union_r; auto.
  - destruct (Ht v Hv) as [H | (p & l & Hp & Hl & Hin)].
    + left. apply elem_of_union_r, H.
    + right. exists p, l. split; [apply elem_of_union_r, Hp | auto].
  - destruct (Hd v Hv) as [H | (p & l & Hp & Hl & Hin)]; [auto |].
    right. exists p, l. split; [apply elem_of_union_r, Hp | auto].
Qed.

Lemma keys_inv_set_title s c u t :
  u ∈ visited_urls c \/ discovered c u ->
  keys_inv s c -> keys_inv s (set_title c u t).
Proof.
  intros Hu (Hc & Hm & Hs & Ht & Hd). unfold keys_inv, discovered in *. simpl.
  repeat split; auto. intros v Hv.
  apply lookup_insert_is_Some in Hv as [<- | [_ Hv]]; auto.
Qed.

Lemma keys_inv_set_metadata s c u m :
  u ∈ visited_urls c -> keys_inv s c -> keys_inv s (set_metadata c u m).
Proof.
  intros Hu (Hc & Hm & Hs & Ht & Hd). unfold keys_inv, discovered in *. simpl.
  repeat split; auto. intros v Hv.
  apply lookup_insert_is_Some in Hv as [<- | [_ Hv]]; auto.
Qed.

Lemma keys_inv_set_structure s c u d :
  u ∈ visited_urls c -> keys_inv s c -> keys_inv s (set_structure c u d).
Proof.
  intros Hu (Hc & Hm & Hs & Ht & Hd). unfold keys_inv, discovered in *. simpl.
  repeat split; auto. intros v Hv.
  apply lookup_insert_is_Some in Hv as [<- | [_ Hv]]; auto.
Qed.

Lemma keys_inv_set_content s c u t :
  u ∈ visited_urls c -> keys_inv s c -> keys_inv s (set_content c u t).
Proof.
  intros Hu (Hc & Hm & Hs & Ht & Hd). unfold keys_inv, discovered in *. simpl.
  repeat split; auto. intros v Hv.
  apply lookup_insert_is_Some in Hv as [<- | [_ Hv]]; auto.
Qed.

Lemma keys_inv_set_depth s c u d :
  discovered c u -> keys_inv s c -> keys_inv s (set_depth c u d).
Proof.
  intros Hu (Hc & Hm & Hs & Ht & Hd). unfold keys_inv, discovered in *. simpl.
  repeat split; auto. intros v Hv.
  apply lookup_insert_is_Some in Hv as [<- | [_ Hv]]; auto.
Qed.

Lemma discovered_add_child c url child v :
  discovered c v -> discovered (add_child c url child) v.
Proof.
  intros (p & l & Hp & Hl & Hin). unfold discovered. simpl.
  destruct (decide (url = p)) as [-> | Hne].
  - exists p, (l ++ [child]). rewrite lookup_insert_eq, Hl. simpl.
    split; [exact Hp |]. split; [reflexivity |]. apply elem_of_app. auto.
  - exists p, l. rewrite lookup_insert_ne by exact Hne. auto.
Qed.

Lemma discovered_new_child c url child :
  url ∈ visited_urls c -> discovered (add_child c url child) child.
Proof.
  intros Hu. unfold discovered. simpl.
  exists url, (default [] (url_hierarchy c !! url) ++ [child]).
  rewrite lookup_insert_eq. split; [exact Hu |]. split; [reflexivity |].
  apply elem_of_app. right. apply list_elem_of_singleton. reflexivity.
Qed.

Lemma keys_inv_add_child s c url child :
  keys_inv s c -> keys_inv s (add_child c url child).
Proof.
  intros (Hc & Hm & Hs & Ht & Hd).
  unfold keys_inv. repeat split; auto; intros v Hv.
  - destruct (Ht v Hv) as [H | H]; [left; exact H |].
    right. apply discovered_add_child, H.
  - destruct (Hd v Hv) as [H | H]; [left; exact H |].
    right. apply discovered_add_child, H.
Qed.

Lemma extract_clean_text_keys E s c url :
  url ∈ visited_urls c -> keys_inv s c ->
  keys_inv s (fst (extract_clean_text E c url)).
Proof.
  intros Hu H. unfold extract_clean_text.
  destruct (pg_extract (site E url)) as [x |]; [| exact H].
  pose proof (keys_inv_set_title s c url (strip (x_title x)) (or_introl Hu) H) as H1.
  destruct (x_metadata x) as [m |]; [| exact H1].
  pose proof (keys_inv_set_metadata s (set_title c url (strip (x_title x)))
                url m Hu H1) as H2.
  destruct (x_structure x) as [d |]; [| exact H2].
  pose proof (keys_inv_set_structure s
                (set_metadata (set_title c url (strip (x_title x))) url m)
                url d Hu H2) as H3.
  destruct (x_enhanced x); exact H3.
Qed.

Lemma visit_anchor_keys E s url d a c links c' links' :
  url ∈ visited_urls c -> keys_inv s c ->
  visit_anchor E url d a (c, links) = Some (c', links') -> keys_inv s c'.
Proof.
  intros Hu H. unfold visit_anchor. destruct (_ || _).
  { intros [= <- <-]. exact H. }
  destruct (urljoin E url (a_href a)) as [joined |]; [| discriminate].
  destruct (is_valid_url E _ url) as [valid |]; [| discriminate].
  destruct (_ && _); [| intros [= <- <-]; exact H].
  set (full_url := Url.strip_fragment joined).
  assert (discovered (add_child c url full_url) full_url) as Hnew
    by (apply discovered_new_child, Hu).
  assert (keys_inv s (set_depth (add_child c url full_url) full_url (d + 1))) as H2
    by (apply keys_inv_set_depth; [exact Hnew | apply keys_inv_add_child, H]).
  destruct (_ && _); intros [= <- <-]; [| exact H2].
  apply keys_inv_set_title; [right; exact Hnew | exact H2].
Qed.

Lemma visit_anchors_keys E s url d anchors c links :
  url ∈ visited_urls c -> keys_inv s c ->
  keys_inv s (fst (visit_anchors E url d anchors (c, links))).
Proof.
  revert c links.
  induction anchors as [| a rest IH]; intros c links Hu H; cbn [visit_anchors].
  - exact H.
  - destruct (visit_anchor E url d a (c, links)) as [[c' links'] |] eqn:Ha.
    + apply IH.
      * destruct (visit_anchor_core _ _ _ _ _ _ _ _ Ha) as (-> & _). exact Hu.
      * eapply visit_anchor_keys; eassumption.
    + exact H.
Qed.

Lemma get_links_keys E s c url d :
  url ∈ visited_urls c -> keys_inv s c -> keys_inv s (fst (get_links E c url d)).
Proof.
  intros Hu H. unfold get_links. destruct (_ <=? _); [exact H |].
  destruct (pg_anchors (site E url)); [| exact H].
  apply visit_anchors_keys; assumption.
Qed.

Lemma crawl_iter_keys E s c : keys_inv s c -> keys_inv s (crawl_iter E c).
Proof.
  intros H. unfold crawl_iter.
  destruct (queue c) as [| [u d] rest]; [exact H |].
  assert (keys_inv s (set_queue c rest)) as H0
    by (revert H; apply keys_inv_fields; reflexivity).
  destruct (bool_decide _); [exact H0 |].
  pose proof (keys_inv_add_visited s _ u H0) as H1.
  assert (u ∈ visited_urls (add_visited (set_queue c rest) u)) as Hu
    by (simpl; apply elem_of_union_l, elem_of_singleton; reflexivity).
  pose proof (extract_clean_text_core E (add_visited (set_queue c rest) u) u) as C1.
  pose proof (extract_clean_text_keys E s _ u Hu H1) as H2.
  destruct (extract_clean_text E _ u) as [c2 content]. simpl in C1, H2.
  destruct C1 as (V1 & _). rewrite <- V1 in Hu.
  set (c3 := if Extractor.truthy (strip content) then set_content c2 u content else c2).
  assert (keys_inv s c3 /\ u ∈ visited_urls c3) as [H3 Hu3].
  { subst c3. destruct (Extractor.truthy _); [| auto].
    split; [apply keys_inv_set_content; assumption | exact Hu]. }
  pose proof (get_links_keys E s c3 u d Hu3 H3) as H4.
  destruct (get_links E c3 u d) as [c4 links]. simpl in H4.
  destruct (d <? max_depth c4); [| exact H4].
  destruct (enqueue_links_fields c4 (prioritize_urls links) (d + 1))
    as (F1 & _ & _ & F2 & F3 & F4 & F5 & F6 & F7).
  revert H4. apply keys_inv_fields; assumption.
Qed.

Lemma crawl_init_keys max_pages max_depth start_url :
  keys_inv start_url (crawl_init max_pages max_depth start_url).
Proof.
  unfold keys_inv. simpl. repeat split; intros u [x Hx];
    try (rewrite lookup_empty in Hx; discriminate).
  left. apply lookup_singleton_Some in Hx as [<- _]. reflexivity.
Qed.

Lemma crawl_state_keys E s n c : keys_inv s c -> keys_inv s (crawl_state E n c).
Proof.
  revert c. induction n as [| n IH]; intros c H; simpl; [exact H |].
  destruct (loop_cond c); [| exact H]. apply IH, crawl_iter_keys, H.
Qed.

(** C1, as amended. Once [crawl] has returned, every key of the returned
    content, metadata and structure maps is in the visited set; a key of the
    titles map is a visited URL or a link found on a visited page, and a key
    of the depths map is the start URL or a link found on a visited page:
    such a link need not have been visited. *)
Theorem crawl_result_keys (E : env) (max_pages max_depth : Z)
    (start_url : string) (fuel : nat) (r : crawl_result) (c : crawler) :
  crawl E max_pages max_depth start_url fuel = Some (r, c) ->
  dom (r_content r) ⊆ visited_urls c /\
  dom (r_metadata r) ⊆ visited_urls c /\
  dom (r_structure r) ⊆ visited_urls c /\
  (forall u, u ∈ dom (r_titles r) -> u ∈ visited_urls c \/ discovered c u) /\
  (forall u, u ∈ dom (r_depths r) -> u = start_url \/ discovered c u).
Proof.
  unfold crawl. intros H.
  destruct (crawl_loop E fuel _) as [c' |] eqn:Hl; [| discriminate].
  injection H as <- <-. apply crawl_loop_state in Hl as [-> _].
  destruct (crawl_state_keys E start_url fuel _
              (crawl_init_keys max_pages max_depth start_url))
    as (Hc & Hm & Hs & Ht & Hd).
  simpl. repeat split.
  - intros u Hu. apply elem_of_dom in Hu. auto.
  - intros u Hu. apply elem_of_dom in Hu. auto.
  - intros u Hu. apply elem_of_dom in Hu. auto.
  - intros u Hu. apply elem_of_dom in Hu. auto.
  - intros u Hu. apply elem_of_dom in Hu. auto.
Qed.

Lemma crawl_result_keys_witness :
  crawl (Examples.E Examples.site_abc) 1 1 Examples.url_a 1
  = Some (result_of Examples.one_page, Examples.one_page) /\
  dom (r_content (result_of Examples.one_page)) ⊆ visited_urls Examples.one_page.
Proof.
  assert (crawl (Examples.E Examples.site_abc) 1 1 Examples.url_a 1
          = Some (result_of Examples.one_page, Examples.one_page)) as H
    by (vm_compute; reflexivity).
  split; [exact H |].
  exact (proj1 (crawl_result_keys _ _ _ _ _ _ _ H)).
Defined.

(** C1, as stated, fails: with a budget of one page the crawl of a page A
    that links to B returns with B a key of depths and of titles, and B was
    never visited. *)
Lemma crawl_unvisited_key :
  crawl (Examples.E Examples.site_abc) 1 1 Examples.url_a 1
  = Some (result_of Examples.one_page, Examples.one_page) /\
  r_depths (result_of Examples.one_page) !! Examples.url_b = Some 1 /\
  r_titles (result_of Examples.one_page) !! Examples.url_b
  = Some (of_string "link") /\
  Examples.url_b ∉ visited_urls Examples.one_page.
Proof.
  split; [vm_compute; reflexivity |].
  split; [vm_compute; reflexivity |].
  split; [vm_compute; reflexivity |].
  apply (bool_decide_unpack _). vm_compute. exact I.
Qed.

(** A response with a brace pair goes to [json.loads] from the first
    opening brace to the last closing one. *)
Lemma bracketed_response_is_parsed :
  Extractor._extract_module_with_submodules Examples.echo_json
    (of_string "Billing")
    (Extractor.Completion (Some (of_string "  Result: {module: {X}} done. ")))
  = Extractor.Returns (Extractor.Parsed (of_string "{module: {X}}")).
Proof. vm_compute. reflexivity. Qed.

(** ** Depths recorded by link discovery *)

(** Whatever depth a link had before, an in-scope link that is not visited
    gets the depth of the current page plus one. *)
Lemma visit_anchor_sets_depth E url d a c links joined :
  Url.nonempty (a_href a) = true ->
  Url.startswith (a_href a) "javascript:" = false ->
  String.eqb (a_href a) "#" = false ->
  urljoin E url (a_href a) = Some joined ->
  is_valid_url E (Url.strip_fragment joined) url = Some true ->
  Url.strip_fragment joined ∉ visited_urls c ->
  exists c' links',
    visit_anchor E url d a (c, links) = Some (c', links') /\
    url_depths c' !! Url.strip_fragment joined = Some (d + 1).
Proof.
  intros H1 H2 H3 Hj Hv Hn. unfold visit_anchor.
  rewrite H1, H2, H3, Hj, Hv. simpl.
  rewrite bool_decide_eq_false_2 by exact Hn. simpl.
  destruct (_ && _); eexists _, _; (split; [reflexivity |]); simpl;
    apply lookup_insert_eq.
Qed.

(** C5 on the code: with [max_depth = 2], page C is first found on A and
    recorded at depth 1, still unvisited; the pass over B finds it again and
    records depth 2, while the frontier holds it at depth 1. *)
Lemma depth_overwritten_by_later_discovery :
  url_depths Examples.deep_1 !! Examples.url_c = Some 1 /\
  (Examples.url_c ∉ visited_urls Examples.deep_1) /\
  url_depths Examples.deep_2 !! Examples.url_c = Some 2 /\
  queue Examples.deep_2 = [(Examples.url_c, 1)].
Proof.
  split; [vm_compute; reflexivity |].
  split; [apply (bool_decide_unpack _); vm_compute; exact I |].
  split; vm_compute; reflexivity.
Qed.

(** ** The extension filter *)

(** What the filter does block: a URL whose whole text, in lower case, ends
    with a blocked extension. *)
Lemma is_valid_url_blocked_suffix E url base_url ext :
  In ext skip_extensions ->
  Url.endswith (Url.lower url) ext = true ->
  netloc E base_url <> None -> netloc E url <> None ->
  is_valid_url E url base_url = Some false.
Proof.
  intros Hin Hend Hb Hu. unfold is_valid_url.
  destruct (negb (Url.nonempty url)); [reflexivity |].
  destruct (netloc E base_url); [| congruence].
  destruct (netloc E url); [| congruence].
  assert (existsb (fun ext => Url.endswith (Url.lower url) ext) skip_extensions = true) as ->;
    [| reflexivity].
  apply existsb_exists. exists ext. auto.
Qed.

(** C4 on the code: the path of the URL ends with [.pdf], a blocked
    extension, and [is_valid_url] accepts the URL, because it tests the end
    of the whole URL and that is the query string. *)
Lemma blocked_extension_with_query_accepted :
  Url.urlparse_path Examples.pdf_with_query = "/manual.pdf" /\
  Url.endswith (Url.lower (Url.urlparse_path Examples.pdf_with_query)) ".pdf"
  = true /\
  is_valid_url (Examples.E Examples.site_abc) Examples.pdf_with_query
    Examples.docs_home = Some true.
Proof. repeat split; vm_compute; reflexivity. Qed.

(** ** Order of the headings *)

Lemma has_tag_heading n i :
  In i [1; 2; 3; 4; 5; 6] ->
  Dom.has_tag [Dom.heading_tag i] n =
  match Dom.heading_level n with Some j => j =? i | None => false end.
Proof.
  intros Hi. unfold Dom.has_tag, Dom.heading_level.
  destruct (Dom.tag_of n) as [t |]; [| reflexivity].
  assert (forall s : string, bool_decide (t ∈ [s]) = String.eqb t s) as Hs.
  { intros s. destruct (String.eqb_spec t s) as [-> | Hne].
    - apply bool_decide_eq_true. left.
    - apply bool_decide_eq_false. intros H. apply list_elem_of_singleton in H. auto. }
  rewrite Hs.
  simpl in Hi.
  destruct Hi as [<- | [<- | [<- | [<- | [<- | [<- | []]]]]]]; simpl Dom.heading_tag;
    repeat match goal with
           | |- context [String.eqb t ?s] =>
               destruct (String.eqb_spec t s) as [-> | ?]; simpl
           end; try reflexivity; try congruence.
Qed.

Lemma headings_of_level ds i :
  In i [1; 2; 3; 4; 5; 6] ->
  map (Dom.mk_heading i) (List.filter (Dom.has_tag [Dom.heading_tag i]) ds) =
  List.filter (fun h => Extractor.h_level h =? i)
    (flat_map (fun n => match Dom.heading_level n with
                        | Some j => [Dom.mk_heading j n]
                        | None => []
                        end) ds).
Proof.
  intros Hi. induction ds as [| n ds IH]; [reflexivity |].
  simpl. rewrite List.filter_app, <- IH, (has_tag_heading n i Hi).
  destruct (Dom.heading_level n) as [j |]; simpl; [| reflexivity].
  destruct (Z.eqb_spec j i) as [-> | Hne]; reflexivity.
Qed.

(** What the code returns: the document-order headings regrouped level by
    level, each level in document order. *)
Lemma extract_headings_by_level element :
  Dom.headings (Dom.extract_document_structure element) =
  flat_map (fun i => List.filter (fun h => Extractor.h_level h =? i)
                       (Dom.document_order_headings element))
    [1; 2; 3; 4; 5; 6].
Proof.
  unfold Dom.extract_document_structure, Dom.document_order_headings, Dom.find_all.
  cbn [Dom.headings].
  simpl flat_map.
  rewrite !headings_of_level by (simpl; tauto). reflexivity.
Qed.

(** C2 on the code: the headings come out level by level, not in document
    order, and [_extract_subheadings], which reads the list as document
    order, then finds no subheading under "Install". *)
Lemma headings_grouped_by_level :
  Dom.headings (Dom.extract_document_structure Examples.guide_page)
  = [Examples.hd 1 "Guide"; Examples.hd 2 "Install"; Examples.hd 2 "Usage";
     Examples.hd 3 "Linux"] /\
  Dom.document_order_headings Examples.guide_page
  = [Examples.hd 1 "Guide"; Examples.hd 2 "Install"; Examples.hd 3 "Linux";
     Examples.hd 2 "Usage"] /\
  Extractor._extract_subheadings (Dom.headings (Dom.extract_document_structure Examples.guide_page))
    (of_string "Install") 2 = [] /\
  Extractor._extract_subheadings
    (Dom.document_order_headings Examples.guide_page) (of_string "Install") 2
  = [of_string "Linux"].
Proof. repeat split; vm_compute; reflexivity. Qed.

(** ** The choice between the two extracted texts *)

(** C3, as amended. When both extractors yield text, the alternate text is
    the page content exactly when its length is greater than 0.7 times the
    length of the structured render, the product taken in binary64;
    otherwise the structured render is. For a render of fewer than [2^48]
    characters that is: always when ten times the alternate length exceeds
    seven times the render length, never when it is below. *)
Theorem choose_text_threshold (enhanced_text traf_text : pystr) :
  traf_text <> [] ->
  choose_text enhanced_text (TrafExtracted (Some traf_text))
  = (if PyFloat.Z_gt (Z.of_nat (length traf_text))
          (PyFloat.mul (PyFloat.of_Z (Z.of_nat (length enhanced_text)))
                       PyFloat.f0_7)
     then traf_text else enhanced_text) /\
  (Z.of_nat (length enhanced_text) < 2 ^ 48 ->
   (7 * Z.of_nat (length enhanced_text) < 10 * Z.of_nat (length traf_text) ->
    choose_text enhanced_text (TrafExtracted (Some traf_text)) = traf_text) /\
   (10 * Z.of_nat (length traf_text) < 7 * Z.of_nat (length enhanced_text) ->
    choose_text enhanced_text (TrafExtracted (Some traf_text)) = enhanced_text)).
Proof.
  intros H.
  assert (choose_text enhanced_text (TrafExtracted (Some traf_text))
          = if PyFloat.Z_gt (Z.of_nat (length traf_text))
                 (PyFloat.mul (PyFloat.of_Z (Z.of_nat (length enhanced_text)))
                              PyFloat.f0_7)
            then traf_text else enhanced_text) as Heq.
  { unfold choose_text. destruct traf_text; [congruence | reflexivity]. }
  split; [exact Heq |]. intros Hlen. rewrite Heq.
  destruct (Z_gt_0_7_sandwich (Z.of_nat (length enhanced_text))
              (Z.of_nat (length traf_text)) ltac:(lia)) as [Hup Hdown].
  split; intros Hcmp.
  - rewrite (Hup Hcmp). reflexivity.
  - destruct (PyFloat.Z_gt _ _); [| reflexivity].
    specialize (Hdown eq_refl). lia.
Qed.

Lemma choose_text_threshold_witness :
  Examples.alternate_80 <> [] /\
  choose_text Examples.render_100 (TrafExtracted (Some Examples.alternate_80))
  = Examples.alternate_80.
Proof.
  assert (Examples.alternate_80 <> []) as H by discriminate.
  split; [exact H |].
  destruct (choose_text_threshold Examples.render_100 Examples.alternate_80 H)
    as [_ Hint].
  apply Hint; vm_compute; reflexivity.
Defined.

(** On the line where ten times one length is seven times the other the
    rounding of the product decides: 90 * 0.7 is just below 63, 10 * 0.7 is
    7 exactly. *)
Lemma choose_text_on_the_line :
  choose_text (repeat 120%N 90) (TrafExtracted (Some (repeat 121%N 63)))
  = repeat 121%N 63 /\
  choose_text (repeat 120%N 10) (TrafExtracted (Some (repeat 121%N 7)))
  = repeat 120%N 10.
Proof. split; vm_compute; reflexivity. Qed.

(** C3, as stated, fails: a structured render of 100 characters is not
    shorter than 70% of an alternate text of 80 characters, and the
    alternate text is chosen all the same. *)
Lemma longer_render_loses :
  length Examples.render_100 = 100%nat /\
  length Examples.alternate_80 = 80%nat /\
  ~ (10 * 100 < 7 * 80) /\
  choose_text Examples.render_100 (TrafExtracted (Some Examples.alternate_80))
  = Examples.alternate_80 /\
  Examples.alternate_80 <> Examples.render_100.
Proof.
  split; [reflexivity |]. split; [reflexivity |]. split; [lia |].
  split; [vm_compute; reflexivity | discriminate].
Qed.

(** ** One pass of the crawl loop, spelled out *)

Lemma links_effect_refl E url d c : CrawlInv.links_effect E url d c c [].
Proof.
  unfold CrawlInv.links_effect. split; [apply same_core_refl |].
  do 3 (split; [reflexivity |]).
  split; [auto |]. split; [auto |].
  split; [intros k l' x Hk Hx; left; eauto |].
  split; [| auto].
  intros u Hu. apply elem_of_nil in Hu. contradiction.
Qed.

Lemma links_effect_drop E url d c c' links :
  CrawlInv.links_effect E url d c c' links -> CrawlInv.links_effect E url d c c' [].
Proof.
  unfold CrawlInv.links_effect.
  intros (H1 & H2 & H3 & H4 & H5 & H6 & H7 & _ & H9).
  do 7 (split; [assumption |]). split; [| assumption].
  intros u Hu. apply elem_of_nil in Hu. contradiction.
Qed.

Lemma visit_anchor_effect E url d a c0 c links c' links' :
  CrawlInv.links_effect E url d c0 c links ->
  visit_anchor E url d a (c, links) = Some (c', links') ->
  CrawlInv.links_effect E url d c0 c' links'.
Proof.
  intros Heff. unfold visit_anchor. destruct (_ || _).
  { intros [= <- <-]. exact Heff. }
  destruct (urljoin E url (a_href a)) as [joined |]; [| discriminate].
  set (full_url := Url.strip_fragment joined).
  destruct (is_valid_url E full_url url) as [valid |] eqn:Hv; [| discriminate].
  destruct valid; simpl; [| intros [= <- <-]; exact Heff].
  destruct (bool_decide (full_url ∈ visited_urls c)) eqn:Hvis; simpl;
    [intros [= <- <-]; exact Heff |].
  apply bool_decide_eq_false in Hvis.
  destruct Heff as (Hcore & Hc & Hm & Hs & Hd & Hdm & Hh & Hl & Hkeys).
  assert (CrawlInv.found E c0 url full_url) as Hfound.
  { split; [exact Hv |]. destruct Hcore as (<- & _). exact Hvis. }
  assert (forall c3, (c3 = set_depth (add_child c url full_url) full_url (d + 1) \/
                      exists t, c3 = set_title (set_depth (add_child c url full_url)
                                                  full_url (d + 1)) full_url t) ->
                     CrawlInv.links_effect E url d c0 c3 (links ++ [full_url])) as Hgen.
  { intros c3 Hc3.
    assert (visited_urls c3 = visited_urls c /\ queue c3 = queue c /\
            max_pages c3 = max_pages c /\ max_depth c3 = max_depth c /\
            content_map c3 = content_map c /\ url_metadata c3 = url_metadata c /\
            url_structure c3 = url_structure c /\
            url_depths c3 = <[full_url := d + 1]> (url_depths c) /\
            url_hierarchy c3 =
              <[url := default [] (url_hierarchy c !! url) ++ [full_url]]>
                (url_hierarchy c)) as (E1 & E2 & E3 & E4 & E5 & E6 & E7 & E8 & E9).
    { destruct Hc3 as [-> | [t ->]]; repeat split. }
    destruct Hcore as (C1 & C2 & C3 & C4).
    unfold CrawlInv.links_effect, same_core.
    rewrite E1, E2, E3, E4, E5, E6, E7, E8, E9.
    split; [repeat split; congruence |].
    do 3 (split; [congruence |]).
    split; [| split; [| split; [| split]]].
    - intros u x Hux. destruct (decide (full_url = u)) as [<- | Hne].
      + rewrite lookup_insert_eq in Hux. injection Hux as <-. right. auto.
      + rewrite lookup_insert_ne in Hux by exact Hne. auto.
    - intros u Hu. destruct (decide (full_url = u)) as [<- | Hne].
      + rewrite lookup_insert_eq. eauto.
      + rewrite lookup_insert_ne by exact Hne. auto.
    - intros k l' x Hk Hx. destruct (decide (url = k)) as [<- | Hne].
      + rewrite lookup_insert_eq in Hk. injection Hk as <-.
        apply elem_of_app in Hx as [Hx | Hx].
        * destruct (url_hierarchy c !! url) as [l |] eqn:Hl0; simpl in Hx.
          -- eapply Hh; eauto.
          -- apply elem_of_nil in Hx. contradiction.
        * apply list_elem_of_singleton in Hx. subst x. right. auto.
      + rewrite lookup_insert_ne in Hk by exact Hne. eapply Hh; eauto.
    - intros u H. apply elem_of_app in H as [H | H].
      + destruct (Hl u H) as [Hf Hu]. split; [exact Hf |].
        destruct (decide (full_url = u)) as [<- | Hne].
        * rewrite lookup_insert_eq. eauto.
        * rewrite lookup_insert_ne by exact Hne. exact Hu.
      + apply list_elem_of_singleton in H. subst u. split; [exact Hfound |].
        rewrite lookup_insert_eq. eauto.
    - intros k Hkey. destruct (decide (url = k)) as [<- | Hne]; [right; reflexivity |].
      rewrite lookup_insert_ne in Hkey by exact Hne. apply Hkeys, Hkey. }
  destruct (_ && _); intros [= <- <-]; apply Hgen; eauto.
Qed.

Lemma visit_anchors_effect E url d anchors c0 c links :
  CrawlInv.links_effect E url d c0 c links ->
  CrawlInv.links_effect E url d c0
    (fst (visit_anchors E url d anchors (c, links)))
    (snd (visit_anchors E url d anchors (c, links))).
Proof.
  revert c links.
  induction anchors as [| a rest IH]; intros c links H; cbn [visit_anchors].
  - exact H.
  - destruct (visit_anchor E url d a (c, links)) as [[c' links'] |] eqn:Ha.
    + apply IH. eapply visit_anchor_effect; eassumption.
    + simpl. eapply links_effect_drop, H.
Qed.

Lemma get_links_effect E c url d :
  CrawlInv.links_effect E url d c (fst (get_links E c url d))
    (snd (get_links E c url d)) /\
  (max_depth c <= d -> get_links E c url d = (c, [])).
Proof.
  unfold get_links. destruct (Z.leb_spec (max_depth c) d) as [Hle | Hlt].
  - split; [apply links_effect_refl | reflexivity].
  - split; [| lia].
    destruct (pg_anchors (site E url)); [| apply links_effect_refl].
    apply visit_anchors_effect, links_effect_refl.
Qed.

(** ** [prioritize_urls] is a stable sort *)

Lemma insert_by_priority_perm u sorted :
  Permutation (insert_by_priority u sorted) (u :: sorted).
Proof.
  induction sorted as [| v rest IH]; simpl; [reflexivity |].
  destruct (_ <=? _); [| reflexivity].
  rewrite IH. apply perm_swap.
Qed.

Lemma prioritize_fold_perm url_list acc :
  Permutation (fold_left (fun sorted u => insert_by_priority u sorted) url_list acc)
    (acc ++ url_list).
Proof.
  revert acc. induction url_list as [| u rest IH]; intros acc; simpl.
  - rewrite app_nil_r. reflexivity.
  - rewrite IH, insert_by_priority_perm.
    change (u :: acc) with ([u] ++ acc).
    rewrite (Permutation_app_comm [u] acc), <- app_assoc. reflexivity.
Qed.

Lemma insert_by_priority_sorted u sorted :
  StronglySorted (fun a b => get_url_priority a <= get_url_priority b) sorted ->
  StronglySorted (fun a b => get_url_priority a <= get_url_priority b)
    (insert_by_priority u sorted).
Proof.
  induction sorted as [| v rest IH]; intros H; simpl.
  - constructor; constructor.
  - inversion H as [| ? ? Hrest Hall]; subst.
    destruct (Z.leb_spec (get_url_priority v) (get_url_priority u)) as [Hle | Hlt].
    + constructor; [apply IH, Hrest |].
      rewrite (insert_by_priority_perm u rest). constructor; assumption.
    + constructor; [exact H |]. constructor; [lia |].
      eapply Forall_impl; [exact Hall |]. intros x Hx. simpl in Hx. lia.
Qed.

Lemma filter_none {A} (f : A -> bool) (l : list A) :
  Forall (fun x => f x = false) l -> List.filter f l = [].
Proof.
  induction 1 as [| x l Hx _ IH]; simpl; [reflexivity |]. rewrite Hx. exact IH.
Qed.

Lemma insert_by_priority_filter p u sorted :
  StronglySorted (fun a b => get_url_priority a <= get_url_priority b) sorted ->
  List.filter (fun x => get_url_priority x =? p) (insert_by_priority u sorted) =
  List.filter (fun x => get_url_priority x =? p) sorted ++
  List.filter (fun x => get_url_priority x =? p) [u].
Proof.
  induction sorted as [| v rest IH]; intros H; [reflexivity |].
  inversion H as [| ? ? Hrest Hall]; subst. simpl insert_by_priority.
  destruct (Z.leb_spec (get_url_priority v) (get_url_priority u)) as [Hle | Hlt].
  - simpl. rewrite IH by exact Hrest. simpl.
    destruct (get_url_priority v =? p); reflexivity.
  - cbn [List.filter]. destruct (Z.eqb_spec (get_url_priority u) p) as [Hu | Hu].
    + assert ((get_url_priority v =? p) = false) as -> by (apply Z.eqb_neq; lia).
      rewrite filter_none; [reflexivity |].
      eapply Forall_impl; [exact Hall |]. intros x Hx. simpl in Hx.
      apply Z.eqb_neq. lia.
    + rewrite app_nil_r. reflexivity.
Qed.

Lemma prioritize_fold_sorted url_list acc :
  StronglySorted (fun a b => get_url_priority a <= get_url_priority b) acc ->
  StronglySorted (fun a b => get_url_priority a <= get_url_priority b)
    (fold_left (fun sorted u => insert_by_priority u sorted) url_list acc).
Proof.
  revert acc. induction url_list as [| u rest IH]; intros acc H; simpl; [exact H |].
  apply IH, insert_by_priority_sorted, H.
Qed.

Lemma prioritize_fold_filter p url_list acc :
  StronglySorted (fun a b => get_url_priority a <= get_url_priority b) acc ->
  List.filter (fun x => get_url_priority x =? p)
    (fold_left (fun sorted u => insert_by_priority u sorted) url_list acc) =
  List.filter (fun x => get_url_priority x =? p) acc ++
  List.filter (fun x => get_url_priority x =? p) url_list.
Proof.
  revert acc. induction url_list as [| u rest IH]; intros acc H; simpl fold_left.
  - simpl. rewrite app_nil_r. reflexivity.
  - rewrite IH by (apply insert_by_priority_sorted, H).
    rewrite insert_by_priority_filter by exact H.
    rewrite <- app_assoc. f_equal. simpl. destruct (_ =? _); reflexivity.
Qed.

(** X1: [prioritize_urls] returns the URLs it was given, each as often as it
    was given, in ascending priority, and URLs of equal priority keep the
    order they came in. *)
Theorem prioritize_urls_stable_sort (url_list : list string) :
  Permutation (prioritize_urls url_list) url_list /\
  StronglySorted (fun a b => get_url_priority a <= get_url_priority b)
    (prioritize_urls url_list) /\
  forall p,
    List.filter (fun x => get_url_priority x =? p) (prioritize_urls url_list) =
    List.filter (fun x => get_url_priority x =? p) url_list.
Proof.
  unfold prioritize_urls. split; [| split].
  - apply (prioritize_fold_perm url_list []).
  - apply prioritize_fold_sorted. constructor.
  - intros p. apply (prioritize_fold_filter p url_list []). constructor.
Qed.

Lemma extract_clean_text_frame E c url :
  let c' := fst (extract_clean_text E c url) in
  content_map c' = content_map c /\ url_depths c' = url_depths c /\
  url_hierarchy c' = url_hierarchy c.
Proof.
  unfold extract_clean_text.
  destruct (pg_extract (site E url)) as [x |]; [| repeat split].
  destruct (x_metadata x); [| repeat split].
  destruct (x_structure x); [| repeat split].
  destruct (x_enhanced x); repeat split.
Qed.

Lemma enqueue_links_queue c links d :
  exists new,
    queue (enqueue_links c links d) = queue c ++ new /\
    forall x dx, (x, dx) ∈ new -> x ∈ links /\ dx = d.
Proof.
  revert c. induction links as [| l rest IH]; intros c; simpl.
  - exists []. rewrite app_nil_r. split; [reflexivity |].
    intros x dx H. apply elem_of_nil in H. contradiction.
  - destruct (_ && _).
    + destruct (IH (set_queue c (queue c ++ [(l, d)]))) as (new & Hq & Hnew).
      simpl in Hq. exists ((l, d) :: new).
      split; [rewrite Hq, <- app_assoc; reflexivity |].
      intros x dx H. apply elem_of_cons in H as [[= -> ->] | H].
      * split; [left | reflexivity].
      * destruct (Hnew x dx H). split; [right; assumption | assumption].
    + destruct (IH c) as (new & Hq & Hnew). exists new. split; [exact Hq |].
      intros x dx H. destruct (Hnew x dx H). split; [right; assumption | assumption].
Qed.

(** A pass of the loop over a frontier without visited URLs. *)
Lemma crawl_iter_effect E c :
  queue_inv c -> queue c <> [] -> CrawlInv.iter_effect E c (crawl_iter E c).
Proof.
  intros [Hnd Hnv] Hq.
  destruct (queue c) as [| [u d] rest] eqn:Hqueue; [congruence |]. clear Hq.
  assert (u ∉ visited_urls c) as Hu by (apply Hnv; simpl; left).
  unfold crawl_iter. rewrite Hqueue. cbn [set_queue visited_urls].
  rewrite bool_decide_eq_false_2 by exact Hu.
  set (c1 := add_visited _ u).
  pose proof (extract_clean_text_core E c1 u) as (V2 & Q2 & P2 & D2).
  pose proof (extract_clean_text_frame E c1 u) as (C2 & DP2 & H2).
  destruct (extract_clean_text E c1 u) as [c2 content]. cbn [fst] in *.
  set (c3 := if Extractor.truthy (strip content) then set_content c2 u content else c2).
  assert (visited_urls c3 = visited_urls c2 /\ queue c3 = queue c2 /\
          max_pages c3 = max_pages c2 /\ max_depth c3 = max_depth c2 /\
          url_depths c3 = url_depths c2 /\ url_hierarchy c3 = url_hierarchy c2 /\
          (content_map c3 = content_map c2 \/
           exists t, Extractor.truthy (strip t) = true /\
                     content_map c3 = <[u := t]> (content_map c2)))
    as (V3 & Q3 & P3 & D3 & DP3 & H3 & C3).
  { subst c3. destruct (Extractor.truthy (strip content)) eqn:Ht;
      repeat split; auto. right. exists content. auto. }
  pose proof (get_links_effect E c3 u d) as [Heff Hstop].
  destruct (get_links E c3 u d) as [c4 links]. cbn [fst snd] in Heff.
  destruct Heff as ((V4 & Q4 & P4 & D4) & C4 & M4 & S4 & Hd & Hdm & Hh & Hl & Hkeys).
  assert (visited_urls c3 = {[u]} ∪ visited_urls c) as Hvis
    by (rewrite V3, V2; reflexivity).
  assert (queue c3 = rest) as Hq3 by (rewrite Q3, Q2; reflexivity).
  assert (max_depth c3 = max_depth c) as Hmd by (rewrite D3, D2; reflexivity).
  assert (max_pages c3 = max_pages c) as Hmp by (rewrite P3, P2; reflexivity).
  assert (url_depths c3 = url_depths c) as Hdp by (rewrite DP3, DP2; reflexivity).
  assert (url_hierarchy c3 = url_hierarchy c) as Hhi by (rewrite H3, H2; reflexivity).
  assert (content_map c3 = content_map c \/
          exists t, Extractor.truthy (strip t) = true /\
                    content_map c3 = <[u := t]> (content_map c)) as Hco.
  { destruct C3 as [-> | (t & Ht & ->)]; rewrite C2; eauto. }
  assert (forall x, CrawlInv.found E c3 u x ->
                    is_valid_url E x u = Some true /\ x <> u /\ x ∉ visited_urls c)
    as Hfound.
  { intros x [Hv Hx]. rewrite Hvis in Hx. split; [exact Hv |].
    apply not_elem_of_union in Hx as [Hx1 Hx2].
    apply not_elem_of_singleton in Hx1. auto. }
  assert (d < max_depth c \/ (c4 = c3 /\ links = [])) as Hcase.
  { destruct (Z_lt_le_dec d (max_depth c)) as [? | Hge]; [left; assumption |].
    right. rewrite <- Hmd in Hge. specialize (Hstop Hge).
    injection Hstop as -> ->. auto. }
  assert (exists new,
            queue (if d <? max_depth c4
                   then enqueue_links c4 (prioritize_urls links) (d + 1) else c4)
            = rest ++ new /\
            forall x dx, (x, dx) ∈ new -> x ∈ links /\ dx = d + 1 /\ d < max_depth c)
    as (new & Hnewq & Hnew).
  { rewrite D4, Hmd. destruct (Z.ltb_spec d (max_depth c)) as [Hlt | Hge].
    - destruct (enqueue_links_queue c4 (prioritize_urls links) (d + 1))
        as (new & Hq & Hn).
      exists new. rewrite Hq, Q4, Hq3. split; [reflexivity |].
      intros x dx H. destruct (Hn x dx H) as [Hx ->].
      split; [| auto].
      pose proof (prioritize_fold_perm links []
                  : Permutation (prioritize_urls links) links) as Hperm.
      rewrite <- Hperm. exact Hx.
    - exists []. rewrite app_nil_r, Q4, Hq3. split; [reflexivity |].
      intros x dx H. apply elem_of_nil in H. contradiction. }
  set (c5 := if d <? max_depth c4
             then enqueue_links c4 (prioritize_urls links) (d + 1) else c4) in *.
  assert (visited_urls c5 = visited_urls c4 /\ max_pages c5 = max_pages c4 /\
          max_depth c5 = max_depth c4 /\ content_map c5 = content_map c4 /\
          url_hierarchy c5 = url_hierarchy c4 /\ url_depths c5 = url_depths c4)
    as (V5 & P5 & D5 & C5 & H5 & DP5).
  { subst c5. destruct (d <? max_depth c4); [| repeat split].
    destruct (enqueue_links_fields c4 (prioritize_urls links) (d + 1))
      as (? & ? & ? & ? & ? & ? & ? & ? & ?). repeat split; assumption. }
  exists u, d, rest, links, new.
  split; [exact Hqueue |]. split; [exact Hu |].
  split; [rewrite V5, V4; exact Hvis |].
  split; [rewrite P5, P4; exact Hmp |].
  split; [rewrite D5, D4; exact Hmd |].
  split; [exact Hnewq |]. split; [exact Hnew |].
  split; [rewrite C5, C4; exact Hco |].
  rewrite DP5, H5.
  split; [| split; [| split; [| split]]].
  - intros x v Hx. destruct Hcase as [Hlt | [-> ->]].
    + destruct (Hd x v Hx) as [H | [-> Hf]]; [left; rewrite <- Hdp; exact H |].
      right. destruct (Hfound x Hf) as (? & ? & ?). auto.
    + left. rewrite <- Hdp. exact Hx.
  - intros x Hx. apply Hdm. rewrite Hdp. exact Hx.
  - intros k l' x Hk Hx. destruct Hcase as [Hlt | [-> ->]].
    + destruct (Hh k l' x Hk Hx) as [H | [-> Hf]]; [left; rewrite <- Hhi; exact H |].
      right. destruct (Hfound x Hf) as (? & ? & ?). auto.
    + left. rewrite <- Hhi. eauto.
  - intros x Hx. destruct (Hl x Hx) as [[Hv _] Hs]. auto.
  - intros k Hkey. destruct Hcase as [Hlt | [-> ->]].
    + destruct (Hkeys k Hkey) as [H | ->]; [left; rewrite <- Hhi; exact H | auto].
    + left. rewrite <- Hhi. exact Hkey.
Qed.

(** ** Suffixes of strings *)

Lemma substring_all s : substring 0 (String.length s) s = s.
Proof. induction s as [| a s IH]; simpl; [reflexivity | rewrite IH; reflexivity]. Qed.

Lemma string_app_cons a p x : String a p +:+ x = String a (p +:+ x).
Proof. reflexivity. Qed.

Lemma string_app_nil x : "" +:+ x = x.
Proof. reflexivity. Qed.

Lemma substring_app_skip p x :
  substring (String.length p) (String.length x) (p +:+ x) = x.
Proof.
  induction p as [| a p IH].
  - rewrite string_app_nil. apply substring_all.
  - rewrite string_app_cons. simpl. exact IH.
Qed.

Lemma substring_split s n m :
  (n + m = String.length s)%nat ->
  s = substring 0 n s +:+ substring n m s.
Proof.
  revert n m. induction s as [| a s IH]; intros n m H; simpl in H.
  - assert (n = 0%nat) as -> by lia. assert (m = 0%nat) as -> by lia. reflexivity.
  - destruct n as [| n]; simpl.
    + rewrite string_app_nil. destruct m as [| m]; [lia |]. f_equal.
      assert (m = String.length s) as -> by lia.
      rewrite substring_all. reflexivity.
    + rewrite string_app_cons. f_equal. apply IH. lia.
Qed.

Lemma string_app_length p x :
  String.length (p +:+ x) = (String.length p + String.length x)%nat.
Proof.
  induction p as [| a p IH]; [reflexivity |].
  rewrite string_app_cons. simpl. rewrite IH. reflexivity.
Qed.

Lemma string_app_assoc a b c : (a +:+ b) +:+ c = a +:+ (b +:+ c).
Proof.
  induction a as [| x a IH]; [reflexivity |].
  rewrite !string_app_cons, IH. reflexivity.
Qed.

(** [s.endswith(x)] holds exactly when [s] is something followed by [x]. *)
Lemma endswith_spec s x :
  Url.endswith s x = true <-> exists p, s = p +:+ x.
Proof.
  unfold Url.endswith. split.
  - intros H. apply andb_true_iff in H as [Hlen Heq].
    apply Nat.leb_le in Hlen. apply String.eqb_eq in Heq.
    exists (substring 0 (String.length s - String.length x) s).
    pose proof (substring_split s (String.length s - String.length x)
                  (String.length x) ltac:(lia)) as Hs.
    rewrite Heq in Hs. exact Hs.
  - intros [p ->]. rewrite string_app_length. apply andb_true_iff. split.
    + apply Nat.leb_le. lia.
    + replace (String.length p + String.length x - String.length x)%nat
        with (String.length p) by lia.
      rewrite substring_app_skip. apply String.eqb_refl.
Qed.

Lemma in_domain_trans a b c :
  CrawlInv.in_domain a b -> CrawlInv.in_domain b c -> CrawlInv.in_domain a c.
Proof.
  unfold CrawlInv.in_domain. intros [-> | Hab] [-> | Hbc]; auto.
  right. apply endswith_spec in Hab as [p ->]. apply endswith_spec in Hbc as [q ->].
  apply endswith_spec. exists (p +:+ "." +:+ q).
  rewrite !string_app_assoc. reflexivity.
Qed.

(** What an accepted URL is like. *)
Lemma is_valid_url_true E url base_url :
  is_valid_url E url base_url = Some true ->
  url <> "" /\
  (forall ext, In ext skip_extensions -> Url.endswith (Url.lower url) ext = false) /\
  (forall pattern, In pattern skip_patterns -> Url.contains url pattern = false) /\
  exists du db, netloc E url = Some du /\ netloc E base_url = Some db /\
                CrawlInv.in_domain du db.
Proof.
  unfold is_valid_url. destruct url as [| a url']; [discriminate |].
  cbn [Url.nonempty negb].
  destruct (netloc E base_url) as [db |]; [| discriminate].
  destruct (netloc E (String a url')) as [du |]; [| discriminate].
  destruct (existsb _ skip_extensions) eqn:Hext; [discriminate |].
  destruct (existsb _ skip_patterns) eqn:Hpat; [discriminate |].
  intros [= Hdom]. split; [discriminate |].
  split; [| split].
  - intros ext Hin. destruct (Url.endswith _ ext) eqn:He; [| reflexivity].
    assert (existsb (fun ext => Url.endswith (Url.lower (String a url')) ext)
              skip_extensions = true) as Hc
      by (apply existsb_exists; eauto).
    congruence.
  - intros pat Hin. destruct (Url.contains _ pat) eqn:He; [| reflexivity].
    assert (existsb (fun pattern => Url.contains (String a url') pattern)
              skip_patterns = true) as Hc
      by (apply existsb_exists; eauto).
    congruence.
  - exists du, db. split; [reflexivity |]. split; [reflexivity |].
    apply orb_true_iff in Hdom as [H | H].
    + left. apply String.eqb_eq, H.
    + right. exact H.
Qed.

(** ** Invariants of the crawl loop *)

Lemma crawl_init_inv E max_pages max_depth start_url :
  CrawlInv.crawl_inv E start_url (crawl_init max_pages max_depth start_url).
Proof.
  unfold CrawlInv.crawl_inv, CrawlInv.known. simpl.
  split; [| split; [| split; [| split; [| split; [| split; [| split; [| split]]]]]]].
  - intros x dx H. apply list_elem_of_singleton in H. injection H as -> ->. auto.
  - apply lookup_singleton_eq.
  - right. reflexivity.
  - intros x v H. apply lookup_singleton_Some in H as [<- _]. auto.
  - intros k l H. rewrite lookup_empty in H. discriminate.
  - intros x [H | H]; [apply not_elem_of_empty in H; contradiction |].
    apply list_elem_of_singleton in H. auto.
  - intros x [H | H]; [apply not_elem_of_empty in H; contradiction |].
    apply list_elem_of_singleton in H. subst x. rewrite lookup_singleton_eq. eauto.
  - intros x t H. rewrite lookup_empty in H. discriminate.
  - intros x [H | H]; [apply not_elem_of_empty in H; contradiction |].
    apply list_elem_of_singleton in H. left. exact H.
Qed.

Lemma crawl_iter_inv E start_url c :
  queue_inv c -> queue c <> [] ->
  CrawlInv.crawl_inv E start_url c ->
  CrawlInv.crawl_inv E start_url (crawl_iter E c).
Proof.
  intros Hqi Hne (I1 & I2 & I3 & I4 & I5 & I6 & I7 & I8 & I9).
  destruct (crawl_iter_effect E c Hqi Hne)
    as (u & d & rest & links & new & Hq & Hu & V & MP & MD & Q & N & CO & DE
        & DM & HE & LK & KE).
  set (c' := crawl_iter E c) in *. clearbody c'.
  assert ((u, d) ∈ queue c) as Hin by (rewrite Hq; left).
  assert (0 <= d) as Hd0 by (destruct (I1 u d Hin) as [[_ ->] | ?]; lia).
  assert (u = start_url \/ 1 <= d) as Hud
    by (destruct (I1 u d Hin) as [[-> _] | ?]; [left; reflexivity | right; lia]).
  assert (CrawlInv.known c u) as Hku
    by (right; rewrite Hq; simpl; left).
  assert (forall x, x ∈ visited_urls c -> x ∈ visited_urls c') as Vmono
    by (intros x Hx; rewrite V; apply elem_of_union_r, Hx).
  assert (u ∈ visited_urls c') as Vu
    by (rewrite V; apply elem_of_union_l, elem_of_singleton; reflexivity).
  assert (forall x, CrawlInv.known c' x -> CrawlInv.known c x \/ x ∈ links) as Hknown.
  { intros x [Hx | Hx].
    - rewrite V in Hx. apply elem_of_union in Hx as [Hx | Hx].
      + apply elem_of_singleton in Hx. subst x. left. exact Hku.
      + left. left. exact Hx.
    - rewrite Q, map_app in Hx. apply elem_of_app in Hx as [Hx | Hx].
      + left. right. rewrite Hq. simpl. right. exact Hx.
      + apply list_elem_of_fmap in Hx as ([x' dx] & -> & Hx). simpl.
        right. apply (N x' dx Hx). }
  unfold CrawlInv.crawl_inv. rewrite MD.
  split; [| split; [| split; [| split; [| split; [| split; [| split; [| split]]]]]]].
  - intros x dx Hx. rewrite Q in Hx. apply elem_of_app in Hx as [Hx | Hx].
    + apply I1. rewrite Hq. right. exact Hx.
    + destruct (N x dx Hx) as (_ & -> & Hlt). right. lia.
  - destruct (DM start_url) as [v Hv]; [rewrite I2; eauto |].
    destruct (DE start_url v Hv) as [H | (_ & _ & _ & Hsu & Hsv)]; [congruence |].
    exfalso. destruct I3 as [H | H]; [auto |].
    rewrite H in Hq. injection Hq as <- _ _. auto.
  - left. destruct I3 as [H | H]; [auto |].
    rewrite H in Hq. injection Hq as <- _ _. exact Vu.
  - intros x v Hx. destruct (DE x v Hx) as [H | (-> & Hlt & _)]; [eauto |].
    right. lia.
  - intros k l Hk.
    assert (k ∈ visited_urls c' /\ (k = start_url \/ 2 <= max_depth c)) as [Hkv Hk2].
    { destruct (KE k) as [[l0 Hl0] | [-> Hlt]]; [rewrite Hk; eauto | |].
      - destruct (I5 k l0 Hl0) as (? & ? & _). auto.
      - split; [exact Vu |]. destruct Hud; [left; assumption | right; lia]. }
    split; [exact Hkv |]. split; [exact Hk2 |].
    intros x Hx. destruct (HE k l x Hk Hx) as [(l0 & Hl0 & Hx0) | (-> & _ & Hv & Hxu & _)].
    + destruct (I5 k l0 Hl0) as (_ & _ & Hall). auto.
    + auto.
  - intros x Hx. destruct (Hknown x Hx) as [Hk | Hl].
    + destruct (I6 x Hk) as [-> | (p & Hp & Hv)]; [left; reflexivity |].
      right. exists p. auto.
    + right. exists u. split; [exact Vu |]. apply LK, Hl.
  - intros x Hx. destruct (Hknown x Hx) as [Hk | Hl].
    + apply DM, I7, Hk.
    + apply LK, Hl.
  - intros x t Hx. destruct CO as [Hc | (t0 & Ht0 & Hc)]; rewrite Hc in Hx.
    + eapply I8, Hx.
    + destruct (decide (u = x)) as [<- | Hux].
      * rewrite lookup_insert_eq in Hx. injection Hx as <-. exact Ht0.
      * rewrite lookup_insert_ne in Hx by exact Hux. eapply I8, Hx.
  - intros x Hx. destruct (Hknown x Hx) as [Hk | Hl]; [apply I9, Hk |].
    destruct (LK x Hl) as [Hv _].
    apply is_valid_url_true in Hv as (_ & _ & _ & du & db & Hdu & Hdb & Hdom).
    destruct (I9 u Hku) as [-> | (dx & ds & Hdx & Hds & Hdom')].
    + right. exists du, db. auto.
    + right. exists du, ds. split; [exact Hdu |]. split; [exact Hds |].
      rewrite Hdb in Hdx. injection Hdx as <-.
      eapply in_domain_trans; eassumption.
Qed.

Lemma loop_cond_queue c : loop_cond c = true -> queue c <> [].
Proof.
  intros H. apply loop_cond_true in H as [(u & d & rest & ->) _]. discriminate.
Qed.

Lemma crawl_state_all_inv E start_url n c :
  queue_inv c -> CrawlInv.crawl_inv E start_url c ->
  queue_inv (crawl_state E n c) /\
  CrawlInv.crawl_inv E start_url (crawl_state E n c).
Proof.
  revert c. induction n as [| n IH]; intros c Hq Hi; simpl; [auto |].
  destruct (loop_cond c) eqn:Hc; [| auto].
  apply IH; [apply crawl_iter_queue_inv, Hq |].
  apply crawl_iter_inv; [exact Hq | apply loop_cond_queue, Hc | exact Hi].
Qed.

Lemma crawl_state_max_depth E n c :
  queue_inv c -> max_depth (crawl_state E n c) = max_depth c.
Proof.
  revert c. induction n as [| n IH]; intros c Hq; simpl; [reflexivity |].
  destruct (loop_cond c) eqn:Hc; [| reflexivity].
  rewrite IH by (apply crawl_iter_queue_inv, Hq).
  destruct (crawl_iter_effect E c Hq (loop_cond_queue c Hc))
    as (? & ? & ? & ? & ? & _ & _ & _ & _ & MD & _).
  exact MD.
Qed.

Lemma crawl_reaches_inv E max_pages max_depth start_url n :
  queue_inv (crawl_state E n (crawl_init max_pages max_depth start_url)) /\
  CrawlInv.crawl_inv E start_url
    (crawl_state E n (crawl_init max_pages max_depth start_url)) /\
  Crawler.max_depth (crawl_state E n (crawl_init max_pages max_depth start_url))
  = max_depth.
Proof.
  destruct (crawl_state_all_inv E start_url n
              (crawl_init max_pages max_depth start_url)
              (crawl_init_queue_inv _ _ _) (crawl_init_inv E _ _ _)) as [H1 H2].
  split; [exact H1 |]. split; [exact H2 |].
  rewrite crawl_state_max_depth by apply crawl_init_queue_inv. reflexivity.
Qed.

(** [crawl] returns the state its loop stopped in. *)
Lemma crawl_returns_reached E max_pages max_depth start_url fuel r c :
  crawl E max_pages max_depth start_url fuel = Some (r, c) ->
  c = CrawlInv.reached E max_pages max_depth start_url fuel /\ r = result_of c.
Proof.
  unfold crawl, CrawlInv.reached.
  destruct (crawl_loop E fuel _) as [c' |] eqn:Hl; [| discriminate].
  intros [= <- <-]. apply crawl_loop_state in Hl as [-> _]. auto.
Qed.

Lemma strip_nonblank t :
  Extractor.truthy (strip t) = true -> Exists (fun ch => isspace ch = false) t.
Proof.
  intros H. assert (lstrip t <> []) as Hl.
  { intros Hnil. unfold strip, rstrip in H. rewrite Hnil in H. discriminate. }
  clear H. induction t as [| ch t IH]; simpl in Hl; [congruence |].
  destruct (isspace ch) eqn:Hc; [right; auto | left; exact Hc].
Qed.

(** X2: the frontier never holds a URL twice, nor a URL already visited: at
    every point of the crawl loop the page dequeued next has not been fetched
    before. *)
Theorem frontier_fresh (E : env) (max_pages max_depth : Z) (start_url : string)
    (n : nat) :
  NoDup (map fst (queue (CrawlInv.reached E max_pages max_depth start_url n))) /\
  forall u, u ∈ map fst (queue (CrawlInv.reached E max_pages max_depth start_url n)) ->
            u ∉ visited_urls (CrawlInv.reached E max_pages max_depth start_url n).
Proof.
  destruct (crawl_reaches_inv E max_pages max_depth start_url n) as [H _]. exact H.
Qed.

(** X3: at every point of the crawl, every visited URL has a recorded depth;
    the start URL keeps depth 0 and every other recorded depth lies between
    1 and [max_depth]. *)
Theorem depths_within_max_depth (E : env) (max_pages max_depth : Z)
    (start_url : string) (n : nat) :
  url_depths (CrawlInv.reached E max_pages max_depth start_url n) !! start_url
  = Some 0 /\
  (forall x v,
     url_depths (CrawlInv.reached E max_pages max_depth start_url n) !! x = Some v ->
     x <> start_url -> 1 <= v <= max_depth) /\
  (forall x,
     x ∈ visited_urls (CrawlInv.reached E max_pages max_depth start_url n) ->
     is_Some (url_depths (CrawlInv.reached E max_pages max_depth start_url n) !! x)).
Proof.
  destruct (crawl_reaches_inv E max_pages max_depth start_url n)
    as (_ & (_ & I2 & _ & I4 & _ & _ & I7 & _) & MD).
  fold (CrawlInv.reached E max_pages max_depth start_url n) in *.
  rewrite MD in I4.
  split; [exact I2 |]. split.
  - intros x v Hx Hne. destruct (I4 x v Hx); [contradiction | assumption].
  - intros x Hx. apply I7. left. exact Hx.
Qed.

(** X4: every key of the hierarchy is a visited page, and a page other than
    the start URL has children only when [max_depth] is at least 2; every
    child was accepted by [is_valid_url] against its parent and is not the
    parent itself. *)
Theorem hierarchy_parents_and_children (E : env) (max_pages max_depth : Z)
    (start_url : string) (n : nat) (k : string) (l : list string) :
  url_hierarchy (CrawlInv.reached E max_pages max_depth start_url n) !! k = Some l ->
  k ∈ visited_urls (CrawlInv.reached E max_pages max_depth start_url n) /\
  (k = start_url \/ 2 <= max_depth) /\
  forall x, x ∈ l -> is_valid_url E x k = Some true /\ x <> k.
Proof.
  destruct (crawl_reaches_inv E max_pages max_depth start_url n)
    as (_ & (_ & _ & _ & _ & I5 & _) & MD).
  fold (CrawlInv.reached E max_pages max_depth start_url n) in *.
  rewrite MD in I5. apply I5.
Qed.

Lemma hierarchy_parents_and_children_witness :
  url_hierarchy (CrawlInv.reached (Examples.E Examples.site_abc) 10 2 Examples.url_a 1)
    !! Examples.url_a = Some [Examples.url_b; Examples.url_c] /\
  (Examples.url_a
     ∈ visited_urls (CrawlInv.reached (Examples.E Examples.site_abc) 10 2
                       Examples.url_a 1) /\
   (Examples.url_a = Examples.url_a \/ 2 <= 2) /\
   forall x, x ∈ [Examples.url_b; Examples.url_c] ->
     is_valid_url (Examples.E Examples.site_abc) x Examples.url_a = Some true /\
     x <> Examples.url_a).
Proof.
  assert (url_hierarchy
            (CrawlInv.reached (Examples.E Examples.site_abc) 10 2 Examples.url_a 1)
            !! Examples.url_a = Some [Examples.url_b; Examples.url_c]) as H
    by (vm_compute; reflexivity).
  split; [exact H |].
  exact (hierarchy_parents_and_children _ _ _ _ _ _ _ H).
Defined.

(** X5: a page other than the start URL is visited only after [is_valid_url]
    accepted it on a visited page: its URL is not empty, does not end, in
    lower case, with a blocked extension, and holds no blocked path
    pattern. *)
Theorem visited_pages_in_scope (E : env) (max_pages max_depth : Z)
    (start_url : string) (n : nat) (x : string) :
  x ∈ visited_urls (CrawlInv.reached E max_pages max_depth start_url n) ->
  x <> start_url ->
  (exists p, p ∈ visited_urls (CrawlInv.reached E max_pages max_depth start_url n) /\
             is_valid_url E x p = Some true) /\
  x <> "" /\
  (forall ext, In ext skip_extensions -> Url.endswith (Url.lower x) ext = false) /\
  (forall pattern, In pattern skip_patterns -> Url.contains x pattern = false).
Proof.
  intros Hx Hne.
  destruct (crawl_reaches_inv E max_pages max_depth start_url n)
    as (_ & (_ & _ & _ & _ & _ & I6 & _) & _).
  fold (CrawlInv.reached E max_pages max_depth start_url n) in *.
  destruct (I6 x (or_introl Hx)) as [-> | (p & Hp & Hv)]; [contradiction |].
  split; [eauto |].
  apply is_valid_url_true in Hv as (H1 & H2 & H3 & _). auto.
Qed.

Lemma visited_pages_in_scope_witness :
  Examples.url_b
    ∈ visited_urls (CrawlInv.reached (Examples.E Examples.site_abc) 10 2
                      Examples.url_a 2) /\
  Examples.url_b <> Examples.url_a /\
  (exists p,
     p ∈ visited_urls (CrawlInv.reached (Examples.E Examples.site_abc) 10 2
                         Examples.url_a 2) /\
     is_valid_url (Examples.E Examples.site_abc) Examples.url_b p = Some true) /\
  Examples.url_b <> "" /\
  (forall ext, In ext skip_extensions ->
     Url.endswith (Url.lower Examples.url_b) ext = false) /\
  (forall pattern, In pattern skip_patterns ->
     Url.contains Examples.url_b pattern = false).
Proof.
  assert (Examples.url_b
            ∈ visited_urls (CrawlInv.reached (Examples.E Examples.site_abc) 10 2
                              Examples.url_a 2)) as H
    by (apply (bool_decide_unpack _); vm_compute; exact I).
  assert (Examples.url_b <> Examples.url_a) as Hne by discriminate.
  split; [exact H |]. split; [exact Hne |].
  exact (visited_pages_in_scope _ _ _ _ _ _ H Hne).
Defined.

(** X6: the crawl stays on the site of the start URL: every visited URL is
    the start URL, or its network location is that of the start URL or a
    subdomain of it, however many links away it was found. *)
Theorem visited_pages_on_site (E : env) (max_pages max_depth : Z)
    (start_url : string) (n : nat) (x : string) :
  x ∈ visited_urls (CrawlInv.reached E max_pages max_depth start_url n) ->
  CrawlInv.on_site E start_url x.
Proof.
  intros Hx.
  destruct (crawl_reaches_inv E max_pages max_depth start_url n)
    as (_ & (_ & _ & _ & _ & _ & _ & _ & _ & I9) & _).
  apply I9. left. exact Hx.
Qed.

Lemma visited_pages_on_site_witness :
  Examples.url_b
    ∈ visited_urls (CrawlInv.reached (Examples.E Examples.site_abc) 10 2
                      Examples.url_a 2) /\
  CrawlInv.on_site (Examples.E Examples.site_abc) Examples.url_a Examples.url_b.
Proof.
  assert (Examples.url_b
            ∈ visited_urls (CrawlInv.reached (Examples.E Examples.site_abc) 10 2
                              Examples.url_a 2)) as H
    by (apply (bool_decide_unpack _); vm_compute; exact I).
  split; [exact H |].
  exact (visited_pages_on_site _ _ _ _ _ _ H).
Defined.

(** X7: a page whose extracted text is empty or white space only gets no
    entry in the content map: every stored text has a character that is not
    white space. *)
Theorem stored_content_not_blank (E : env) (max_pages max_depth : Z)
    (start_url : string) (n : nat) (x : string) (t : pystr) :
  content_map (CrawlInv.reached E max_pages max_depth start_url n) !! x = Some t ->
  Exists (fun ch => isspace ch = false) t.
Proof.
  intros Hx.
  destruct (crawl_reaches_inv E max_pages max_depth start_url n)
    as (_ & (_ & _ & _ & _ & _ & _ & _ & I8 & _) & _).
  eapply strip_nonblank, I8, Hx.
Qed.

Lemma stored_content_not_blank_witness :
  content_map (CrawlInv.reached (Examples.E Examples.site_abc) 10 2 Examples.url_a 1)
    !! Examples.url_a = Some (of_string "body") /\
  Exists (fun ch => isspace ch = false) (of_string "body").
Proof.
  assert (content_map
            (CrawlInv.reached (Examples.E Examples.site_abc) 10 2 Examples.url_a 1)
            !! Examples.url_a = Some (of_string "body")) as H
    by (vm_compute; reflexivity).
  split; [exact H |].
  exact (stored_content_not_blank _ _ _ _ _ _ _ H).
Defined.

(** ** Several start URLs *)

Lemma crawl_total E max_pages max_depth start_url fuel :
  0 <= max_pages -> (Z.to_nat max_pages <= fuel)%nat ->
  exists r c,
    crawl E max_pages max_depth start_url fuel = Some (r, c) /\
    Z.of_nat (size (dom (r_content r))) <= max_pages.
Proof.
  intros Hmp Hfuel. unfold crawl.
  destruct (crawl_loop_terminates E fuel (crawl_init max_pages max_depth start_url))
    as [c Hc].
  - apply crawl_init_queue_inv.
  - cbn [crawl_init visited_urls Crawler.max_pages]. rewrite size_empty. lia.
  - rewrite Hc. exists (result_of c), c. split; [reflexivity |].
    apply crawl_loop_state in Hc as [-> _].
    destruct (crawl_state_inv E fuel (crawl_init max_pages max_depth start_url))
      as (_ & _ & Hs).
    + apply crawl_init_queue_inv.
    + cbn [crawl_init visited_urls Crawler.max_pages]. rewrite size_empty. lia.
    + cbn [crawl_init Crawler.max_pages] in Hs.
      destruct (crawl_state_keys E start_url fuel _
                  (crawl_init_keys max_pages max_depth start_url)) as (Hk & _).
      set (c := crawl_state E fuel _) in *. simpl.
      assert (dom (content_map c) ⊆ visited_urls c) as Hsub
        by (intros u Hu; apply elem_of_dom in Hu; auto).
      apply subseteq_size in Hsub. lia.
Qed.

Lemma crawl_multiple_loop_spec E max_pages max_depth fuel urls all :
  0 <= max_pages -> (Z.to_nat max_pages <= fuel)%nat ->
  exists R,
    CrawlMultiple.crawl_multiple_loop E max_pages max_depth fuel urls all = Some R /\
    Z.of_nat (size (dom (r_content R)))
    <= Z.of_nat (size (dom (r_content all))) + Z.of_nat (length urls) * max_pages /\
    (forall k v, r_content R !! k = Some v ->
       r_content all !! k = Some v \/
       exists url r c, url ∈ urls /\
         crawl E max_pages max_depth url fuel = Some (r, c) /\
         r_content r !! k = Some v) /\
    (forall pre url r c, urls = pre ++ [url] ->
       crawl E max_pages max_depth url fuel = Some (r, c) ->
       forall k v, r_content r !! k = Some v -> r_content R !! k = Some v) /\
    (urls = [] -> R = all).
Proof.
  intros Hmp Hfuel. revert all.
  induction urls as [| url rest IH]; intros all; cbn [CrawlMultiple.crawl_multiple_loop].
  - exists all. split; [reflexivity |]. split; [simpl; lia |].
    split; [auto |]. split; [| reflexivity].
    intros pre url r c Heq. destruct pre; discriminate.
  - destruct (crawl_total E max_pages max_depth url fuel Hmp Hfuel)
      as (r & c & Hcrawl & Hsize).
    rewrite Hcrawl.
    destruct (IH (CrawlMultiple.update_results all r))
      as (R & HR & Hsz & Hprov & Hlast & _).
    exists R. split; [exact HR |]. split; [| split; [| split]].
    + cbn [CrawlMultiple.update_results r_content] in Hsz.
      rewrite dom_union_L in Hsz.
      pose proof (size_union_alt (dom (r_content r)) (dom (r_content all))) as Hu.
      assert (size (dom (r_content all) ∖ dom (r_content r))
              <= size (dom (r_content all)))%nat as Hd
        by (apply subseteq_size, subseteq_difference_l; reflexivity).
      rewrite length_cons. lia.
    + intros k v Hk. destruct (Hprov k v Hk) as [Hu | (u & r' & c' & Hin & Hc' & Hv)].
      * cbn [CrawlMultiple.update_results r_content] in Hu.
        apply lookup_union_Some_raw in Hu as [Hu | [_ Hu]]; [| left; exact Hu].
        right. exists url, r, c. split; [left | auto].
      * right. exists u, r', c'. split; [right; exact Hin | auto].
    + intros pre u r' c' Heq Hc' k v Hv.
      destruct pre as [| p pre'].
      * simpl in Heq. injection Heq as Hu' Hrest. subst u rest.
        rewrite Hcrawl in Hc'. injection Hc' as <- <-.
        cbn [CrawlMultiple.crawl_multiple_loop] in HR. injection HR as <-.
        cbn [CrawlMultiple.update_results r_content].
        apply lookup_union_Some_raw. left. exact Hv.
      * simpl in Heq. injection Heq as _ Hrest.
        eapply Hlast; eauto.
    + discriminate.
Qed.

(** X8: with enough fuel for one crawl, [crawl_multiple] returns for every
    list of start URLs; the combined content map has at most
    [len(urls) * max_pages] entries, each entry is an entry of the crawl of
    one of the start URLs, and the entries of the last crawl are all kept. *)
Theorem crawl_multiple_content (E : env) (max_pages max_depth : Z)
    (urls : list string) (fuel : nat) :
  0 <= max_pages -> (Z.to_nat max_pages <= fuel)%nat ->
  exists R,
    CrawlMultiple.crawl_multiple E max_pages max_depth urls fuel = Some R /\
    Z.of_nat (size (dom (r_content R))) <= Z.of_nat (length urls) * max_pages /\
    (forall k v, r_content R !! k = Some v ->
       exists url r c, url ∈ urls /\
         crawl E max_pages max_depth url fuel = Some (r, c) /\
         r_content r !! k = Some v) /\
    (forall pre url r c, urls = pre ++ [url] ->
       crawl E max_pages max_depth url fuel = Some (r, c) ->
       forall k v, r_content r !! k = Some v -> r_content R !! k = Some v).
Proof.
  intros Hmp Hfuel. unfold CrawlMultiple.crawl_multiple.
  destruct (crawl_multiple_loop_spec E max_pages max_depth fuel urls
              CrawlMultiple.empty_results Hmp Hfuel)
    as (R & HR & Hsz & Hprov & Hlast & _).
  exists R. split; [exact HR |]. split; [| split; [| exact Hlast]].
  - cbn [CrawlMultiple.empty_results r_content] in Hsz.
    rewrite dom_empty_L, size_empty in Hsz. lia.
  - intros k v Hk. destruct (Hprov k v Hk) as [Hu | H]; [| exact H].
    cbn [CrawlMultiple.empty_results r_content] in Hu.
    rewrite lookup_empty in Hu. discriminate.
Qed.

Lemma crawl_multiple_content_witness :
  0 <= 2 /\ (Z.to_nat 2 <= 2)%nat /\
  exists R,
    CrawlMultiple.crawl_multiple (Examples.E Examples.site_abc) 2 1
      [Examples.url_a; Examples.url_b] 2 = Some R /\
    Z.of_nat (size (dom (r_content R)))
    <= Z.of_nat (length [Examples.url_a; Examples.url_b]) * 2 /\
    (forall k v, r_content R !! k = Some v ->
       exists url r c, url ∈ [Examples.url_a; Examples.url_b] /\
         crawl (Examples.E Examples.site_abc) 2 1 url 2 = Some (r, c) /\
         r_content r !! k = Some v) /\
    (forall pre url r c, [Examples.url_a; Examples.url_b] = pre ++ [url] ->
       crawl (Examples.E Examples.site_abc) 2 1 url 2 = Some (r, c) ->
       forall k v, r_content r !! k = Some v -> r_content R !! k = Some v).
Proof.
  assert (0 <= 2) as H1 by lia.
  assert (Z.to_nat 2 <= 2)%nat as H2 by (vm_compute; lia).
  split; [exact H1 |]. split; [exact H2 |].
  exact (crawl_multiple_content (Examples.E Examples.site_abc) 2 1
           [Examples.url_a; Examples.url_b] 2 H1 H2).
Defined.

(** ** Cutting the fragment off a URL *)

Lemma count_nonneg s c : 0 <= Url.count s c.
Proof. induction s as [| a s IH]; simpl; [lia |]. destruct (Ascii.eqb a c); lia. Qed.

Lemma to_line_end_one_line r :
  Url.count r Url.newline = 0 -> Url.to_line_end r = Some "".
Proof.
  induction r as [| a r IH]; simpl; [reflexivity |].
  pose proof (count_nonneg r Url.newline).
  destruct (Ascii.eqb a Url.newline); [lia |]. intros H0. apply IH. lia.
Qed.

(** X9: on a URL without a line break, the normalisation of [get_links]
    keeps exactly the part before the first [#]: the result holds no [#],
    and a URL that holds one is the result followed by [#] and the
    fragment; a URL without [#] is left as it is, and normalising twice
    changes nothing. *)
Theorem strip_fragment_one_line (s : string) :
  Url.count s Url.newline = 0 ->
  String.prefix (Url.strip_fragment s) s = true /\
  Url.count (Url.strip_fragment s) "#" = 0 /\
  (Url.count s "#" = 0 -> Url.strip_fragment s = s) /\
  (0 < Url.count s "#" ->
   exists fragment, s = Url.strip_fragment s +:+ String "#" fragment) /\
  Url.strip_fragment (Url.strip_fragment s) = Url.strip_fragment s.
Proof.
  induction s as [| a s IH]; [simpl; repeat split; auto; lia |].
  cbn [Url.count]. pose proof (count_nonneg s Url.newline) as Hn.
  destruct (Ascii.eqb a Url.newline) eqn:Hnl; [lia |]. intros H0.
  destruct (IH ltac:(lia)) as (IH1 & IH2 & IH3 & IH4 & IH5).
  cbn [Url.strip_fragment]. destruct (Ascii.eqb a "#") eqn:Hh.
  - rewrite to_line_end_one_line by lia.
    pose proof (count_nonneg s "#").
    split; [reflexivity |]. split; [reflexivity |]. split; [lia |].
    split; [| reflexivity].
    intros _. exists s. rewrite string_app_nil.
    apply Ascii.eqb_eq in Hh. subst a. reflexivity.
  - cbn [String.prefix Url.count Url.strip_fragment]. rewrite Hh.
    destruct (ascii_dec a a) as [_ | Hne]; [| congruence].
    split; [exact IH1 |]. split; [lia |]. split; [| split].
    + intros Hc. rewrite IH3 by lia. reflexivity.
    + intros Hc. destruct (IH4 ltac:(lia)) as [fragment Hf].
      exists fragment. rewrite string_app_cons, <- Hf. reflexivity.
    + rewrite IH5. reflexivity.
Qed.

Lemma strip_fragment_one_line_witness :
  Url.count "http://ex.com/a#top" Url.newline = 0 /\
  String.prefix (Url.strip_fragment "http://ex.com/a#top") "http://ex.com/a#top"
  = true /\
  Url.count (Url.strip_fragment "http://ex.com/a#top") "#" = 0 /\
  (Url.count "http://ex.com/a#top" "#" = 0 ->
   Url.strip_fragment "http://ex.com/a#top" = "http://ex.com/a#top") /\
  (0 < Url.count "http://ex.com/a#top" "#" ->
   exists fragment,
     "http://ex.com/a#top"
     = Url.strip_fragment "http://ex.com/a#top" +:+ String "#" fragment) /\
  Url.strip_fragment (Url.strip_fragment "http://ex.com/a#top")
  = Url.strip_fragment "http://ex.com/a#top".
Proof.
  assert (Url.count "http://ex.com/a#top" Url.newline = 0) as H
    by (vm_compute; reflexivity).
  split; [exact H |].
  exact (strip_fragment_one_line "http://ex.com/a#top" H).
Defined.

(** ** The headings list as a whole *)

Lemma filter_disjoint_app {A} (f g : A -> bool) (l : list A) :
  (forall x, f x = true -> g x = false) ->
  Permutation (List.filter f l ++ List.filter g l)
    (List.filter (fun x => f x || g x) l).
Proof.
  intros Hd. induction l as [| x l IH]; simpl; [reflexivity |].
  destruct (f x) eqn:Hf; simpl.
  - rewrite (Hd x Hf). simpl. constructor. exact IH.
  - destruct (g x); simpl; [| exact IH].
    rewrite <- Permutation_middle. constructor. exact IH.
Qed.

Lemma blocks_by_key_perm {A} (key : A -> Z) (ks : list Z) (l : list A) :
  NoDup ks ->
  Permutation (flat_map (fun i => List.filter (fun x => key x =? i) l) ks)
    (List.filter (fun x => existsb (Z.eqb (key x)) ks) l).
Proof.
  induction 1 as [| i ks Hi Hnd IH]; simpl.
  - induction l; simpl; auto.
  - rewrite IH. apply filter_disjoint_app.
    intros x Hx. apply Z.eqb_eq in Hx. subst i.
    destruct (existsb _ ks) eqn:He; [| reflexivity].
    apply existsb_exists in He as (j & Hj & Hjk). apply Z.eqb_eq in Hjk. subst j.
    exfalso. apply Hi. apply list_elem_of_In. exact Hj.
Qed.

Lemma strongly_sorted_app {A} (R : A -> A -> Prop) (l1 l2 : list A) :
  StronglySorted R l1 -> StronglySorted R l2 ->
  (forall a b, In a l1 -> In b l2 -> R a b) ->
  StronglySorted R (l1 ++ l2).
Proof.
  induction 1 as [| x l1 Hs IH Hall]; intros H2 Hc; simpl; [exact H2 |].
  constructor.
  - apply IH; [exact H2 |]. intros a b Ha Hb. apply Hc; [right |]; assumption.
  - apply List.Forall_forall. intros y Hy. apply in_app_or in Hy as [Hy | Hy].
    + rewrite List.Forall_forall in Hall. auto.
    + apply Hc; [left; reflexivity | exact Hy].
Qed.

Lemma constant_key_sorted {A} (key : A -> Z) (i : Z) (l : list A) :
  (forall x, In x l -> key x = i) ->
  StronglySorted (fun a b => key a <= key b) l.
Proof.
  induction l as [| x l IH]; intros H; constructor.
  - apply IH. intros y Hy. apply H. right. exact Hy.
  - apply List.Forall_forall. intros y Hy.
    rewrite (H x), (H y); [lia | right; exact Hy | left; reflexivity].
Qed.

Lemma blocks_by_key_sorted {A} (key : A -> Z) (ks : list Z) (l : list A) :
  StronglySorted Z.lt ks ->
  StronglySorted (fun a b => key a <= key b)
    (flat_map (fun i => List.filter (fun x => key x =? i) l) ks).
Proof.
  induction 1 as [| i ks Hs IH Hall]; simpl; [constructor |].
  apply strongly_sorted_app; [| exact IH |].
  - apply (constant_key_sorted key i). intros x Hx.
    apply List.filter_In in Hx as [_ Hx]. apply Z.eqb_eq, Hx.
  - intros a b Ha Hb. apply List.filter_In in Ha as [_ Ha]. apply Z.eqb_eq in Ha.
    apply in_flat_map in Hb as (j & Hj & Hb).
    apply List.filter_In in Hb as [_ Hb]. apply Z.eqb_eq in Hb.
    rewrite List.Forall_forall in Hall. specialize (Hall j Hj). lia.
Qed.

Lemma document_order_levels element :
  Forall (fun h => existsb (Z.eqb (Extractor.h_level h)) [1; 2; 3; 4; 5; 6] = true)
    (Dom.document_order_headings element).
Proof.
  unfold Dom.document_order_headings.
  induction (Dom.descendants element) as [| n ds IH]; simpl; [constructor |].
  apply Forall_app. split; [| exact IH].
  unfold Dom.heading_level. destruct (Dom.tag_of n) as [t |]; [| constructor].
  repeat (destruct (String.eqb t _); [repeat constructor |]). constructor.
Qed.

(** X10: the headings list holds every heading of the page region exactly
    once: it is a rearrangement of the headings in document order, in
    ascending level. *)
Theorem headings_complete_and_sorted (element : Dom.node) :
  Permutation (Dom.headings (Dom.extract_document_structure element))
    (Dom.document_order_headings element) /\
  StronglySorted (fun a b => Extractor.h_level a <= Extractor.h_level b)
    (Dom.headings (Dom.extract_document_structure element)).
Proof.
  rewrite extract_headings_by_level. split.
  - rewrite (blocks_by_key_perm Extractor.h_level).
    + rewrite forallb_filter_id; [reflexivity |].
      apply forallb_forall. intros h Hh.
      pose proof (document_order_levels element) as Hall.
      rewrite List.Forall_forall in Hall. apply Hall, Hh.
    + apply (bool_decide_unpack _). vm_compute. exact I.
  - apply blocks_by_key_sorted. repeat constructor.
Qed.

(** ** More on the chunks *)

Lemma group_loop_greedy max_tokens words cur len :
  len = Extractor.token_sum cur ->
  (forall i g g',
     Extractor.group_loop max_tokens words cur len !! i = Some g ->
     Extractor.group_loop max_tokens words cur len !! S i = Some g' ->
     exists w ws, g' = w :: ws /\
       PyFloat.gt_Z (Extractor.token_sum (g ++ [w])) max_tokens = true) /\
  (cur <> [] ->
   exists taken gs,
     Extractor.group_loop max_tokens words cur len = (cur ++ taken) :: gs).
Proof.
  revert cur len. induction words as [| w rest IH]; intros cur len Hlen.
  - simpl. split.
    + intros i g g' Hi Hsi. destruct (Extractor.truthy cur).
      * destruct i; discriminate.
      * discriminate.
    + intros Hne. destruct cur; [congruence |]. simpl.
      exists [], []. rewrite app_nil_r. reflexivity.
  - cbn [Extractor.group_loop].
    destruct (PyFloat.gt_Z _ _ && Extractor.truthy cur) eqn:Hcond.
    + apply andb_true_iff in Hcond as [Hgt Hcur].
      destruct (IH [w] (Extractor.word_tokens w)) as [IHadj IHfirst].
      { symmetry. apply token_sum_single. }
      destruct (IHfirst ltac:(discriminate)) as (taken & gs & Heq).
      rewrite Heq in *. split.
      * intros i g g' Hi Hsi. destruct i as [| i].
        -- simpl in Hi, Hsi. injection Hi as <-. injection Hsi as <-.
           exists w, taken. split; [reflexivity |].
           rewrite token_sum_snoc, <- Hlen. exact Hgt.
        -- apply (IHadj i g g'); assumption.
      * intros _. exists [], (([w] ++ taken) :: gs). rewrite app_nil_r. reflexivity.
    + destruct (IH (cur ++ [w])
                  (PyFloat.add len (Extractor.word_tokens w))) as [IHadj IHfirst].
      { rewrite token_sum_snoc, Hlen. reflexivity. }
      split; [exact IHadj |].
      intros _. destruct (IHfirst) as (taken & gs & Heq).
      { destruct cur; discriminate. }
      exists (w :: taken), gs. rewrite Heq, <- app_assoc. reflexivity.
Qed.

(** X11: the chunks are filled greedily: of two neighbouring chunks, the
    first together with the first word of the second would have a token
    count over the limit. *)
Theorem chunk_text_greedy (text : pystr) (max_tokens : Z) (i : nat)
    (chunk next : pystr) :
  Extractor._chunk_text text max_tokens !! i = Some chunk ->
  Extractor._chunk_text text max_tokens !! S i = Some next ->
  exists w ws,
    split next = w :: ws /\
    PyFloat.gt_Z (Extractor.token_sum (split chunk ++ [w])) max_tokens = true.
Proof.
  unfold Extractor._chunk_text. rewrite chunk_loop_groups. simpl.
  set (groups := Extractor.group_loop max_tokens (split text) [] (S754_zero false)).
  intros Hi Hsi.
  apply list_lookup_fmap_Some in Hi as (g & -> & Hg).
  apply list_lookup_fmap_Some in Hsi as (g' & -> & Hg').
  destruct (group_loop_greedy max_tokens (split text) [] (S754_zero false) eq_refl)
    as [Hadj _].
  destruct (Hadj i g g' Hg Hg') as (w & ws & -> & Hgt).
  assert (Forall (Forall is_word) groups) as Hw.
  { apply Forall_concat_inv. subst groups. rewrite group_loop_concat. simpl.
    apply split_words. }
  rewrite List.Forall_forall in Hw.
  assert (Forall is_word g) as Hwg
    by (apply Hw, list_elem_of_In, list_elem_of_lookup; eauto).
  assert (Forall is_word (w :: ws)) as Hwg'
    by (apply Hw, list_elem_of_In, list_elem_of_lookup; eauto).
  exists w, ws. rewrite !split_join by assumption. auto.
Qed.

Lemma chunk_text_greedy_witness :
  Extractor._chunk_text (of_string "alpha beta gamma delta") 14 !! 0%nat
  = Some (of_string "alpha beta") /\
  Extractor._chunk_text (of_string "alpha beta gamma delta") 14 !! 1%nat
  = Some (of_string "gamma delta") /\
  exists w ws,
    split (of_string "gamma delta") = w :: ws /\
    PyFloat.gt_Z (Extractor.token_sum (split (of_string "alpha beta") ++ [w])) 14
    = true.
Proof.
  assert (Extractor._chunk_text (of_string "alpha beta gamma delta") 14 !! 0%nat
          = Some (of_string "alpha beta")) as H0 by (vm_compute; reflexivity).
  assert (Extractor._chunk_text (of_string "alpha beta gamma delta") 14 !! 1%nat
          = Some (of_string "gamma delta")) as H1 by (vm_compute; reflexivity).
  split; [exact H0 |]. split; [exact H1 |].
  exact (chunk_text_greedy _ _ _ _ _ H0 H1).
Defined.

(** X12: every chunk is in normal form, its words joined by single spaces
    with no white space around them, and there are never more chunks than
    words; a text without words gives no chunk. *)
Theorem chunk_text_normal_form (text : pystr) (max_tokens : Z) :
  Forall (fun chunk => join space (split chunk) = chunk)
    (Extractor._chunk_text text max_tokens) /\
  (length (Extractor._chunk_text text max_tokens) <= length (split text))%nat.
Proof.
  destruct (chunk_text_groups text max_tokens) as (groups & -> & Hcat & Hne & _).
  pose proof (split_words text) as Hw. rewrite <- Hcat in Hw.
  pose proof (Forall_concat_inv _ _ Hw) as Hgw. split.
  - apply Forall_map. clear Hcat Hw Hne.
    induction groups as [| g gs IH]; [constructor |].
    inversion Hgw; subst. constructor; [| auto].
    simpl. rewrite split_join by assumption. reflexivity.
  - rewrite length_map, <- Hcat. clear Hcat Hw Hgw.
    induction groups as [| g gs IH]; [simpl; lia |].
    inversion Hne; subst. simpl. rewrite length_app.
    destruct g; [congruence |]. simpl. specialize (IH ltac:(assumption)). lia.
Qed.

(** ** Subheadings of a section *)

(** X13: [_extract_subheadings] returns nothing when no heading has the
    parent's level and text; otherwise it takes the first such heading and
    returns, in order, the texts of the headings one level deeper that stand
    between it and the next heading of the parent's level or above. *)
Theorem extract_subheadings_section (pre mid rest : list Extractor.heading)
    (p : Extractor.heading) (parent_heading : pystr) (parent_level : Z) :
  Forall (fun h => ~ (Extractor.h_level h = parent_level /\
                      Extractor.h_text h = parent_heading)) pre ->
  Extractor.h_level p = parent_level -> Extractor.h_text p = parent_heading ->
  Forall (fun h => parent_level < Extractor.h_level h) mid ->
  (rest = [] \/ exists q rest', rest = q :: rest' /\
                  Extractor.h_level q <= parent_level) ->
  Extractor._extract_subheadings pre parent_heading parent_level = [] /\
  Extractor._extract_subheadings (pre ++ p :: mid ++ rest)
    parent_heading parent_level
  = map Extractor.h_text
      (List.filter (fun h => Extractor.h_level h =? parent_level + 1) mid).
Proof.
  intros Hpre Hpl Hpt Hmid Hrest. subst parent_level parent_heading.
  assert (forall tail,
    Extractor._extract_subheadings (pre ++ tail) (Extractor.h_text p)
      (Extractor.h_level p) =
    Extractor._extract_subheadings tail (Extractor.h_text p)
      (Extractor.h_level p)) as Hskip.
  { intros tail. induction Hpre as [| h pre Hh _ IH]; [reflexivity |].
    simpl.
    destruct (Z.eqb_spec (Extractor.h_level h) (Extractor.h_level p)) as [Hl | Hl];
      [| exact IH].
    unfold Extractor.pystr_eqb.
    rewrite bool_decide_eq_false_2 by (intros Ht; apply Hh; auto).
    exact IH. }
  split.
  - rewrite <- (app_nil_r pre), Hskip. reflexivity.
  - rewrite Hskip. simpl. rewrite Z.eqb_refl.
    unfold Extractor.pystr_eqb. rewrite bool_decide_eq_true_2 by reflexivity.
    simpl. clear Hskip Hpre.
    induction Hmid as [| h mid Hh _ IH]; simpl.
    + destruct Hrest as [-> | (q & rest' & -> & Hq)]; [reflexivity |].
      simpl. destruct (Z.leb_spec (Extractor.h_level q) (Extractor.h_level p));
        [reflexivity | lia].
    + destruct (Z.leb_spec (Extractor.h_level h) (Extractor.h_level p)); [lia |].
      destruct (Extractor.h_level h =? Extractor.h_level p + 1); simpl;
        rewrite IH; reflexivity.
Qed.

Lemma extract_subheadings_section_witness :
  Extractor._extract_subheadings [Examples.hd 1 "Guide"] (of_string "Install") 2 = [] /\
  Extractor._extract_subheadings
    ([Examples.hd 1 "Guide"]
       ++ Examples.hd 2 "Install" :: [Examples.hd 3 "Linux"] ++ [Examples.hd 2 "Usage"])
    (of_string "Install") 2
  = map Extractor.h_text
      (List.filter (fun h => Extractor.h_level h =? 2 + 1) [Examples.hd 3 "Linux"]).
Proof.
  apply (extract_subheadings_section [Examples.hd 1 "Guide"] [Examples.hd 3 "Linux"]
           [Examples.hd 2 "Usage"] (Examples.hd 2 "Install")).
  - constructor; [| constructor]. intros [H _]. discriminate H.
  - reflexivity.
  - reflexivity.
  - constructor; [| constructor]. simpl. lia.
  - right. exists (Examples.hd 2 "Usage"), []. split; [reflexivity |]. simpl. lia.
Defined.

(** ** Merging chunk results: [_merge_module_results] *)

Lemma dict_get_set_eq {V} (d : list (pystr * V)) k v :
  Merge.dict_get (Merge.dict_set d k v) k = Some v.
Proof.
  induction d as [| [k' v'] r IH]; simpl; unfold Extractor.pystr_eqb.
  - rewrite bool_decide_eq_true_2 by reflexivity. reflexivity.
  - case_bool_decide as Hk; simpl; unfold Extractor.pystr_eqb.
    + rewrite bool_decide_eq_true_2 by exact Hk. reflexivity.
    + rewrite bool_decide_eq_false_2 by exact Hk. exact IH.
Qed.

Lemma dict_get_set_ne {V} (d : list (pystr * V)) k k' v :
  k <> k' -> Merge.dict_get (Merge.dict_set d k v) k' = Merge.dict_get d k'.
Proof.
  intros Hne. induction d as [| [k0 v0] r IH]; simpl; unfold Extractor.pystr_eqb.
  - rewrite bool_decide_eq_false_2 by exact Hne. reflexivity.
  - case_bool_decide as Hk; simpl; unfold Extractor.pystr_eqb.
    + subst k0. rewrite !bool_decide_eq_false_2 by exact Hne. reflexivity.
    + case_bool_decide; [reflexivity | exact IH].
Qed.

Lemma dict_set_keys_old {V} (d : list (pystr * V)) k v v0 :
  Merge.dict_get d k = Some v0 -> map fst (Merge.dict_set d k v) = map fst d.
Proof.
  induction d as [| [k' v'] r IH]; simpl; [discriminate |].
  unfold Extractor.pystr_eqb. case_bool_decide; simpl; [reflexivity |].
  intros H'. rewrite IH by exact H'. reflexivity.
Qed.

Lemma dict_set_keys_new {V} (d : list (pystr * V)) k v :
  Merge.dict_get d k = None -> map fst (Merge.dict_set d k v) = map fst d ++ [k].
Proof.
  induction d as [| [k' v'] r IH]; simpl; [reflexivity |].
  unfold Extractor.pystr_eqb. case_bool_decide; simpl; [discriminate |].
  intros H'. rewrite IH by exact H'. reflexivity.
Qed.

Lemma dict_get_None_keys {V} (d : list (pystr * V)) k :
  Merge.dict_get d k = None <-> k ∉ map fst d.
Proof.
  induction d as [| [k' v'] r IH]; simpl.
  - split; [intros _; apply not_elem_of_nil | reflexivity].
  - unfold Extractor.pystr_eqb. case_bool_decide as Hk.
    + subst. split; [discriminate |]. intros H. exfalso. apply H. left.
    + rewrite IH. rewrite not_elem_of_cons. split; [auto | intros [_ ?]; assumption].
Qed.

(** What one item does to the merged module. *)
Lemma merge_submodule_spec merged n d :
  let merged' := Merge.merge_submodule merged (n, d) in
  Merge.md_module merged' = Merge.md_module merged /\
  Merge.md_Description merged' = Merge.md_Description merged /\
  (exists d', Merge.dict_get (Merge.submodules_of merged') n = Some d' /\
              (length d <= length d')%nat) /\
  (forall k v, Merge.dict_get (Merge.submodules_of merged) k = Some v ->
     exists v', Merge.dict_get (Merge.submodules_of merged') k = Some v' /\
                (length v <= length v')%nat) /\
  (forall k v', Merge.dict_get (Merge.submodules_of merged') k = Some v' ->
     Merge.dict_get (Merge.submodules_of merged) k = Some v' \/ (k = n /\ v' = d)) /\
  ((exists d', Merge.dict_get (Merge.submodules_of merged) n = Some d' /\
               (length d <= length d')%nat) -> merged' = merged).
Proof.
  cbn zeta. unfold Merge.merge_submodule.
  assert (
    let m' := Merge.set_Submodules merged
                (Merge.dict_set (Merge.submodules_of merged) n d) in
    (forall v, Merge.dict_get (Merge.submodules_of merged) n = Some v ->
               (length v <= length d)%nat) ->
    Merge.md_module m' = Merge.md_module merged /\
    Merge.md_Description m' = Merge.md_Description merged /\
    (exists d', Merge.dict_get (Merge.submodules_of m') n = Some d' /\
                (length d <= length d')%nat) /\
    (forall k v, Merge.dict_get (Merge.submodules_of merged) k = Some v ->
       exists v', Merge.dict_get (Merge.submodules_of m') k = Some v' /\
                  (length v <= length v')%nat) /\
    (forall k v', Merge.dict_get (Merge.submodules_of m') k = Some v' ->
       Merge.dict_get (Merge.submodules_of merged) k = Some v' \/ (k = n /\ v' = d)))
    as Hset.
  { cbn zeta. intros Hle.
    assert (Merge.submodules_of
              (Merge.set_Submodules merged
                 (Merge.dict_set (Merge.submodules_of merged) n d))
            = Merge.dict_set (Merge.submodules_of merged) n d) as -> by reflexivity.
    split; [reflexivity |]. split; [reflexivity |].
    split; [exists d; rewrite dict_get_set_eq; auto |]. split.
    - intros k v Hk. destruct (decide (n = k)) as [<- | Hne].
      + exists d. rewrite dict_get_set_eq. split; [reflexivity | apply Hle, Hk].
      + exists v. rewrite dict_get_set_ne by exact Hne. auto.
    - intros k v' Hk. destruct (decide (n = k)) as [<- | Hne].
      + rewrite dict_get_set_eq in Hk. injection Hk as <-. auto.
      + rewrite dict_get_set_ne in Hk by exact Hne. auto. }
  destruct (Merge.dict_get (Merge.submodules_of merged) n) as [old |] eqn:Hget.
  - destruct (Nat.ltb_spec (length old) (length d)) as [Hlt | Hge].
    + destruct Hset as (H1 & H2 & H3 & H4 & H5).
      { intros v [= <-]. lia. }
      repeat split; try assumption.
      intros (d' & [= <-] & Hd'). lia.
    + repeat split; try reflexivity.
      * exists old. auto.
      * intros k v Hk. exists v. auto.
      * intros k v' Hk. auto.
  - destruct Hset as (H1 & H2 & H3 & H4 & H5).
    { intros v [=]. }
    repeat split; try assumption.
    intros (d' & [=] & _).
Qed.

Lemma grows_refl m : Merge.grows m m.
Proof. repeat split; auto. intros k v H. exists v. auto. Qed.

Lemma grows_trans a b c : Merge.grows a b -> Merge.grows b c -> Merge.grows a c.
Proof.
  intros (A1 & A2 & A3) (B1 & B2 & B3). split; [congruence |]. split; [lia |].
  intros k v Hk. destruct (A3 k v Hk) as (v1 & H1 & L1).
  destruct (B3 k v1 H1) as (v2 & H2 & L2). exists v2. split; [exact H2 | lia].
Qed.

Lemma dominates_grows m m' r :
  Merge.dominates m r -> Merge.grows m m' -> Merge.dominates m' r.
Proof.
  intros [D1 D2] (G1 & G2 & G3). split; [lia |].
  intros n d Hin. destruct (D2 n d Hin) as (d1 & H1 & L1).
  destruct (G3 n d1 H1) as (d2 & H2 & L2). exists d2. split; [exact H2 | lia].
Qed.

Lemma fold_merge_submodule_spec items merged :
  let merged' := fold_left Merge.merge_submodule items merged in
  Merge.md_Description merged' = Merge.md_Description merged /\
  Merge.grows merged merged' /\
  (forall n d, (n, d) ∈ items ->
     exists d', Merge.dict_get (Merge.submodules_of merged') n = Some d' /\
                (length d <= length d')%nat) /\
  (forall k v', Merge.dict_get (Merge.submodules_of merged') k = Some v' ->
     Merge.dict_get (Merge.submodules_of merged) k = Some v' \/ (k, v') ∈ items) /\
  ((forall n d, (n, d) ∈ items ->
      exists d', Merge.dict_get (Merge.submodules_of merged) n = Some d' /\
                 (length d <= length d')%nat) -> merged' = merged).
Proof.
  revert merged. induction items as [| [n d] rest IH]; intros merged; cbn zeta.
  - simpl. split; [reflexivity |]. split; [apply grows_refl |].
    split; [intros n d H; apply elem_of_nil in H; contradiction |].
    split; [auto | reflexivity].
  - cbn [fold_left].
    destruct (merge_submodule_spec merged n d) as (S1 & S2 & S3 & S4 & S5 & S6).
    cbn zeta in *. set (m1 := Merge.merge_submodule merged (n, d)) in *.
    destruct (IH m1) as (I1 & I2 & I3 & I4 & I5). cbn zeta in *.
    set (m2 := fold_left Merge.merge_submodule rest m1) in *.
    assert (Merge.grows merged m1) as G1.
    { split; [exact S1 |]. split; [| exact S4].
      unfold Merge.description_len. rewrite S2. lia. }
    split; [congruence |]. split; [eapply grows_trans; eassumption |].
    split; [| split].
    + intros n' d' Hin. apply elem_of_cons in Hin as [[= -> ->] | Hin];
        [| apply I3, Hin].
      destruct S3 as (d1 & H1 & L1). destruct I2 as (_ & _ & I2).
      destruct (I2 n d1 H1) as (d2 & H2 & L2). exists d2. split; [exact H2 | lia].
    + intros k v' Hk. destruct (I4 k v' Hk) as [H | H].
      * destruct (S5 k v' H) as [H' | [-> ->]]; [left; exact H' | right; left].
      * right. right. exact H.
    + intros Hall. assert (m1 = merged) as Hm1 by (apply S6, Hall; left).
      subst m2. rewrite Hm1 in *. apply I5.
      intros n' d' Hin. apply Hall. right. exact Hin.
Qed.

Lemma merge_result_spec merged r :
  let merged' := Merge.merge_result merged r in
  Merge.grows merged merged' /\
  Merge.dominates merged' r /\
  Merge.description_len merged'
  = Nat.max (Merge.description_len merged) (Merge.description_len r) /\
  (Merge.md_Description merged' = Merge.md_Description merged \/
   default [] (Merge.md_Description merged') = default [] (Merge.md_Description r)) /\
  (forall k v', Merge.dict_get (Merge.submodules_of merged') k = Some v' ->
     Merge.dict_get (Merge.submodules_of merged) k = Some v' \/
     (k, v') ∈ Merge.submodules_of r) /\
  (Merge.dominates merged r -> merged' = merged).
Proof.
  cbn zeta. unfold Merge.merge_result.
  set (m1 := if (Merge.description_len merged <? Merge.description_len r)%nat
             then Merge.set_Description merged (default [] (Merge.md_Description r))
             else merged).
  assert (Merge.md_module m1 = Merge.md_module merged /\
          Merge.submodules_of m1 = Merge.submodules_of merged /\
          Merge.description_len m1
          = Nat.max (Merge.description_len merged) (Merge.description_len r) /\
          (Merge.md_Description m1 = Merge.md_Description merged \/
           default [] (Merge.md_Description m1) = default [] (Merge.md_Description r)) /\
          ((Merge.description_len r <= Merge.description_len merged)%nat ->
           m1 = merged)) as (M1 & M2 & M3 & M4 & M5).
  { subst m1. destruct (Nat.ltb_spec (Merge.description_len merged)
                          (Merge.description_len r)) as [Hlt | Hge].
    - repeat split; try reflexivity; [| auto | lia].
      unfold Merge.description_len at 1. simpl.
      unfold Merge.description_len in *. lia.
    - repeat split; auto. lia. }
  destruct (fold_merge_submodule_spec (Merge.submodules_of r) m1)
    as (F1 & F2 & F3 & F4 & F5). cbn zeta in *.
  set (m2 := fold_left Merge.merge_submodule (Merge.submodules_of r) m1) in *.
  assert (Merge.description_len m2 = Merge.description_len m1) as Hd
    by (unfold Merge.description_len; rewrite F1; reflexivity).
  assert (Merge.grows merged m1) as G1.
  { split; [exact M1 |]. split; [lia |]. rewrite M2. intros k v H. exists v. auto. }
  split; [eapply grows_trans; eassumption |].
  split; [split; [lia | exact F3] |].
  split; [lia |]. split; [rewrite F1; exact M4 |]. split.
  - intros k v' Hk. rewrite <- M2. apply F4, Hk.
  - intros [D1 D2]. rewrite <- (M5 D1). apply F5. rewrite M2. exact D2.
Qed.

Lemma dict_get_In {V} (d : list (pystr * V)) k v :
  NoDup (map fst d) -> (k, v) ∈ d -> Merge.dict_get d k = Some v.
Proof.
  induction d as [| [k' v'] r IH]; simpl; intros Hnd Hin.
  - apply elem_of_nil in Hin. contradiction.
  - apply NoDup_cons in Hnd as [Hk Hnd]. unfold Extractor.pystr_eqb.
    apply elem_of_cons in Hin as [[= -> ->] | Hin].
    + rewrite bool_decide_eq_true_2 by reflexivity. reflexivity.
    + case_bool_decide as Heq; [| apply IH; assumption].
      subst k'. exfalso. apply Hk. apply list_elem_of_fmap. exists (k, v). auto.
Qed.

Lemma dict_get_elem {V} (d : list (pystr * V)) k v :
  Merge.dict_get d k = Some v -> (k, v) ∈ d.
Proof.
  induction d as [| [k' v'] r IH]; simpl; [discriminate |].
  unfold Extractor.pystr_eqb. case_bool_decide as Heq.
  - intros [= ->]. subst. left.
  - intros H. right. apply IH, H.
Qed.

Lemma well_formed_dominates m : Merge.well_formed m -> Merge.dominates m m.
Proof.
  intros Hwf. split; [lia |]. intros n d Hin. exists d.
  split; [apply dict_get_In; assumption | lia].
Qed.

Lemma merge_submodule_wf merged item :
  Merge.well_formed merged -> Merge.well_formed (Merge.merge_submodule merged item).
Proof.
  destruct item as [n d]. unfold Merge.well_formed, Merge.merge_submodule.
  intros Hwf.
  assert (NoDup (map fst (Merge.dict_set (Merge.submodules_of merged) n d))) as Hset.
  { destruct (Merge.dict_get (Merge.submodules_of merged) n) as [old |] eqn:Hg.
    - rewrite (dict_set_keys_old _ _ _ _ Hg). exact Hwf.
    - rewrite (dict_set_keys_new _ _ _ Hg). apply NoDup_app.
      split; [exact Hwf |]. split; [| apply NoDup_singleton].
      intros x Hx Hx'. apply list_elem_of_singleton in Hx'. subst x.
      apply dict_get_None_keys in Hg. auto. }
  destruct (Merge.dict_get (Merge.submodules_of merged) n) as [old |].
  - destruct (_ <? _)%nat; [exact Hset | exact Hwf].
  - exact Hset.
Qed.

Lemma merge_result_wf merged r :
  Merge.well_formed merged -> Merge.well_formed (Merge.merge_result merged r).
Proof.
  unfold Merge.merge_result. intros Hwf.
  set (m1 := if (Merge.description_len merged <? Merge.description_len r)%nat
             then Merge.set_Description merged (default [] (Merge.md_Description r))
             else merged).
  assert (Merge.well_formed m1) as H1
    by (subst m1; destruct (_ <? _)%nat; exact Hwf).
  clearbody m1. revert m1 H1.
  induction (Merge.submodules_of r) as [| item items IH]; intros m1 H1; simpl;
    [exact H1 |].
  apply IH, merge_submodule_wf, H1.
Qed.

Lemma fold_merge_result_spec rest first :
  Merge.well_formed first ->
  let merged := fold_left Merge.merge_result rest first in
  Merge.well_formed merged /\ Merge.grows first merged /\
  (forall r, r ∈ first :: rest -> Merge.dominates merged r) /\
  (exists r, r ∈ first :: rest /\
     default [] (Merge.md_Description merged) = default [] (Merge.md_Description r)) /\
  (forall k v, Merge.dict_get (Merge.submodules_of merged) k = Some v ->
     exists r, r ∈ first :: rest /\ (k, v) ∈ Merge.submodules_of r).
Proof.
  revert first. induction rest as [| r rest IH]; intros first Hwf; cbn zeta.
  - simpl. split; [exact Hwf |]. split; [apply grows_refl |].
    split; [| split].
    + intros r Hr. apply list_elem_of_singleton in Hr. subst r.
      apply well_formed_dominates, Hwf.
    + exists first. split; [left | reflexivity].
    + intros k v Hk. exists first. split; [left | apply dict_get_elem, Hk].
  - cbn [fold_left].
    destruct (merge_result_spec first r) as (R1 & R2 & R3 & R4 & R5 & _).
    cbn zeta in *. set (m1 := Merge.merge_result first r) in *.
    destruct (IH m1 (merge_result_wf first r Hwf)) as (I1 & I2 & I3 & I4 & I5).
    cbn zeta in *. set (m2 := fold_left Merge.merge_result rest m1) in *.
    split; [exact I1 |]. split; [eapply grows_trans; eassumption |].
    split; [| split].
    + intros x Hx. apply elem_of_cons in Hx as [-> | Hx].
      * apply (dominates_grows first); [| eapply grows_trans; eassumption].
        apply well_formed_dominates, Hwf.
      * apply elem_of_cons in Hx as [-> | Hx].
        -- eapply dominates_grows; eassumption.
        -- apply I3. right. exact Hx.
    + destruct I4 as (x & Hx & Hd). apply elem_of_cons in Hx as [-> | Hx].
      * destruct R4 as [H | H].
        -- exists first. split; [left |]. rewrite Hd, H. reflexivity.
        -- exists r. split; [right; left |]. rewrite Hd, H. reflexivity.
      * exists x. split; [right; right; exact Hx | exact Hd].
    + intros k v Hk. destruct (I5 k v Hk) as (x & Hx & Hin).
      apply elem_of_cons in Hx as [-> | Hx].
      * apply dict_get_In in Hin; [| apply merge_result_wf, Hwf].
        destruct (R5 k v Hin) as [H | H].
        -- exists first. split; [left | apply dict_get_elem, H].
        -- exists r. split; [right; left | exact H].
      * exists x. split; [right; right; exact Hx | exact Hin].
Qed.

(** X14: [_merge_module_results] keeps the longest: the merged module has the
    name of the first result; its description is the description of one of
    the results and at least as long as every other; every submodule of
    every result is in it, with a description at least as long; and every
    submodule it holds, it holds with a description one of the results gave
    it. *)
Theorem merge_module_results_longest (first : Merge.module)
    (rest : list Merge.module) :
  Merge.well_formed first ->
  exists merged,
    Merge._merge_module_results (first :: rest) = Some merged /\
    Merge.md_module merged = Merge.md_module first /\
    (forall r, r ∈ first :: rest -> Merge.dominates merged r) /\
    (exists r, r ∈ first :: rest /\
       default [] (Merge.md_Description merged)
       = default [] (Merge.md_Description r)) /\
    (forall k v, Merge.dict_get (Merge.submodules_of merged) k = Some v ->
       exists r, r ∈ first :: rest /\ (k, v) ∈ Merge.submodules_of r) /\
    Merge.well_formed merged.
Proof.
  intros Hwf. exists (fold_left Merge.merge_result rest first).
  destruct (fold_merge_result_spec rest first Hwf) as (I1 & (I2 & _) & I3 & I4 & I5).
  split; [reflexivity |]. auto 6.
Qed.

Lemma merge_module_results_longest_witness :
  Merge.well_formed Samples.billing_short /\
  exists merged,
    Merge._merge_module_results [Samples.billing_short; Samples.billing_long]
    = Some merged /\
    Merge.md_module merged = Merge.md_module Samples.billing_short /\
    (forall r, r ∈ [Samples.billing_short; Samples.billing_long] ->
       Merge.dominates merged r) /\
    (exists r, r ∈ [Samples.billing_short; Samples.billing_long] /\
       default [] (Merge.md_Description merged)
       = default [] (Merge.md_Description r)) /\
    (forall k v, Merge.dict_get (Merge.submodules_of merged) k = Some v ->
       exists r, r ∈ [Samples.billing_short; Samples.billing_long] /\
                 (k, v) ∈ Merge.submodules_of r) /\
    Merge.well_formed merged.
Proof.
  assert (Merge.well_formed Samples.billing_short) as H
    by (apply (bool_decide_unpack _); vm_compute; exact I).
  split; [exact H |].
  exact (merge_module_results_longest Samples.billing_short [Samples.billing_long] H).
Defined.

Lemma fold_merge_result_dominated rs merged :
  (forall r, r ∈ rs -> Merge.dominates merged r) ->
  fold_left Merge.merge_result rs merged = merged.
Proof.
  induction rs as [| r rs IH]; intros H; simpl; [reflexivity |].
  destruct (merge_result_spec merged r) as (_ & _ & _ & _ & _ & Hsame).
  rewrite Hsame by (apply H; left). apply IH. intros x Hx. apply H. right. exact Hx.
Qed.

(** X15: a result that repeats an earlier one adds nothing: after the
    results of a list, further copies of any of them leave the merged module
    as it is, with no submodule twice and no description changed. *)
Theorem merge_module_results_repeats (module_results more : list Merge.module) :
  Forall Merge.well_formed module_results ->
  (forall r, r ∈ more -> r ∈ module_results) ->
  Merge._merge_module_results (module_results ++ more)
  = Merge._merge_module_results module_results.
Proof.
  intros Hwf Hmore. destruct module_results as [| first rest].
  - destruct more as [| r more]; [reflexivity |].
    exfalso. eapply elem_of_nil, Hmore. left.
  - inversion Hwf as [| ? ? Hfirst _]; subst.
    simpl. f_equal. rewrite fold_left_app.
    destruct (fold_merge_result_spec rest first Hfirst) as (_ & _ & I3 & _).
    cbn zeta in I3. apply fold_merge_result_dominated.
    intros r Hr. apply I3, Hmore, Hr.
Qed.

Lemma merge_module_results_repeats_witness :
  Forall Merge.well_formed [Samples.billing_short; Samples.billing_long] /\
  Merge._merge_module_results
    ([Samples.billing_short; Samples.billing_long] ++ [Samples.billing_short])
  = Merge._merge_module_results [Samples.billing_short; Samples.billing_long].
Proof.
  assert (Forall Merge.well_formed [Samples.billing_short; Samples.billing_long]) as H
    by (repeat constructor; apply (bool_decide_unpack _); vm_compute; exact I).
  split; [exact H |].
  apply (merge_module_results_repeats _ [Samples.billing_short] H).
  intros r Hr. apply list_elem_of_singleton in Hr. subst r. left.
Defined.

Lemma first_occurrences_snoc l n seen :
  Merge.first_occurrences (l ++ [n]) seen
  = if bool_decide (n ∈ seen ++ l) then Merge.first_occurrences l seen
    else Merge.first_occurrences l seen ++ [n].
Proof.
  revert seen. induction l as [| a l IH]; intros seen; simpl.
  - rewrite app_nil_r. destruct (bool_decide (n ∈ seen)); reflexivity.
  - case_bool_decide as Ha.
    + rewrite IH.
      rewrite (bool_decide_ext (n ∈ seen ++ l) (n ∈ seen ++ a :: l)); [reflexivity |].
      rewrite !elem_of_app, elem_of_cons. split; [tauto |].
      intros [H | [-> | H]]; auto.
    + rewrite IH. simpl. rewrite (bool_decide_ext (n ∈ a :: seen ++ l) (n ∈ seen ++ a :: l)).
      * destruct (bool_decide (n ∈ seen ++ a :: l)); reflexivity.
      * rewrite elem_of_cons, !elem_of_app, elem_of_cons. tauto.
Qed.

Lemma first_occurrences_elem l seen x :
  x ∈ Merge.first_occurrences l seen <-> x ∈ l /\ (x ∉ seen).
Proof.
  revert seen. induction l as [| a l IH]; intros seen; simpl.
  - rewrite elem_of_nil. tauto.
  - case_bool_decide as Ha.
    + rewrite IH, elem_of_cons. split; [tauto |].
      intros [[-> | H] Hn]; [contradiction | tauto].
    + rewrite !elem_of_cons, IH, not_elem_of_cons.
      split.
      * intros [-> | (H1 & H2 & H3)]; tauto.
      * intros [[-> | H] Hn]; [tauto |].
        destruct (decide (x = a)) as [-> | Hne]; tauto.
Qed.

Lemma merge_items_app D l1 l2 :
  Merge.merge_items D (l1 ++ l2)
  = match Merge.merge_items D l1 with
    | Some D' => Merge.merge_items D' l2
    | None => None
    end.
Proof.
  revert D. induction l1 as [| m l1 IH]; intros D; simpl; [reflexivity |].
  destruct (Merge.merge_item D m); [apply IH | reflexivity].
Qed.

Lemma merge_into_existing_fold existing items subs :
  Merge.md_Submodules existing = Some subs ->
  Merge.merge_into_existing existing items
  = Some (fold_left Merge.merge_submodule items existing).
Proof.
  revert existing subs. induction items as [| [n d] items IH]; intros existing subs Hs;
    simpl; [reflexivity |].
  unfold Merge.submodules_of. rewrite Hs. simpl.
  destruct (Merge.dict_get subs n) as [old |].
  - destruct (length old <? length d)%nat.
    + eapply IH. reflexivity.
    + eapply IH. exact Hs.
  - eapply IH. reflexivity.
Qed.

Lemma merge_item_existing D item n existing :
  Merge.complete item -> Merge.complete existing ->
  Merge.md_module item = Some n ->
  Merge.dict_get D n = Some existing ->
  Merge.merge_item D item
  = Some (Merge.dict_set D n (Merge.merge_result existing item)).
Proof.
  intros (_ & [d Hd] & [s Hs]) (_ & [d' Hd'] & [s' Hs']) Hn Hg.
  unfold Merge.merge_item. rewrite Hn, Hg, Hd, Hd', Hs.
  unfold Merge.merge_result, Merge.description_len, Merge.submodules_of.
  rewrite Hd, Hd', Hs. simpl.
  erewrite merge_into_existing_fold; [reflexivity |].
  destruct (length d' <? length d)%nat; simpl; exact Hs'.
Qed.

Lemma merge_submodule_complete m item :
  Merge.complete m -> Merge.complete (Merge.merge_submodule m item).
Proof.
  destruct item as [n d]. unfold Merge.merge_submodule. intros (H1 & H2 & H3).
  destruct (Merge.dict_get _ n) as [old |]; [destruct (_ <? _)%nat |];
    repeat split; simpl; auto.
Qed.

Lemma merge_result_complete m r :
  Merge.complete m -> Merge.complete (Merge.merge_result m r).
Proof.
  unfold Merge.merge_result. intros Hc.
  set (m1 := if (Merge.description_len m <? Merge.description_len r)%nat
             then Merge.set_Description m (default [] (Merge.md_Description r))
             else m).
  assert (Merge.complete m1) as H1.
  { subst m1. destruct (_ <? _)%nat; [| exact Hc].
    destruct Hc as (H1 & H2 & H3). repeat split; simpl; auto. }
  clearbody m1. revert m1 H1.
  induction (Merge.submodules_of r) as [| item items IH]; intros m1 H1; simpl;
    [exact H1 |].
  apply IH, merge_submodule_complete, H1.
Qed.

Lemma names_snoc l item n :
  Merge.md_module item = Some n -> Merge.names (l ++ [item]) = Merge.names l ++ [n].
Proof.
  intros Hn. unfold Merge.names. rewrite omap_app. simpl. rewrite Hn. reflexivity.
Qed.

Lemma merge_items_spec all_modules :
  Forall Merge.complete all_modules ->
  exists D,
    Merge.merge_items [] all_modules = Some D /\
    map fst D = Merge.first_occurrences (Merge.names all_modules) [] /\
    forall k m, Merge.dict_get D k = Some m ->
      Merge.complete m /\
      Merge._merge_module_results
        (filter (fun x => Merge.md_module x = Some k) all_modules) = Some m.
Proof.
  induction all_modules as [| item done IH] using rev_ind; intros Hall.
  - exists []. simpl. split; [reflexivity |]. split; [reflexivity |]. discriminate.
  - apply Forall_app in Hall as [Hdone Hitem]. rewrite Forall_singleton in Hitem.
    destruct (IH Hdone) as (D & HD & Hkeys & Hvals).
    pose proof Hitem as ([n Hn] & _).
    rewrite merge_items_app, HD. simpl.
    rewrite (names_snoc _ _ _ Hn), first_occurrences_snoc. simpl.
    destruct (Merge.dict_get D n) as [existing |] eqn:Hg.
    + destruct (Hvals n existing Hg) as [Hc Hm].
      rewrite (merge_item_existing D item n existing Hitem Hc Hn Hg).
      eexists. split; [reflexivity |].
      rewrite (dict_set_keys_old _ _ _ _ Hg).
      split.
      * rewrite bool_decide_eq_true_2; [exact Hkeys |].
        assert (n ∈ map fst D) as Hin.
        { apply dict_get_elem in Hg. apply list_elem_of_fmap. exists (n, existing). auto. }
        rewrite Hkeys in Hin. apply first_occurrences_elem in Hin. tauto.
      * intros k m Hk. rewrite filter_app, filter_cons, filter_nil.
        destruct (decide (k = n)) as [-> | Hne].
        -- rewrite dict_get_set_eq in Hk. injection Hk as <-.
           split; [apply merge_result_complete, Hc |].
           rewrite decide_True by exact Hn.
           destruct (filter _ done) as [| first rest]; [discriminate |].
           simpl in Hm |- *. injection Hm as <-.
           rewrite fold_left_app. reflexivity.
        -- rewrite dict_get_set_ne in Hk by auto.
           rewrite decide_False by congruence. rewrite app_nil_r.
           apply Hvals, Hk.
    + unfold Merge.merge_item. rewrite Hn, Hg.
      eexists. split; [reflexivity |].
      rewrite (dict_set_keys_new _ _ _ Hg).
      assert (n ∉ Merge.names done) as Hnew.
      { intros Hin. apply dict_get_None_keys in Hg. apply Hg. rewrite Hkeys.
        apply first_occurrences_elem. split; [exact Hin | apply not_elem_of_nil]. }
      split.
      * rewrite bool_decide_eq_false_2 by exact Hnew. rewrite Hkeys. reflexivity.
      * intros k m Hk. rewrite filter_app, filter_cons, filter_nil.
        destruct (decide (k = n)) as [-> | Hne].
        -- rewrite dict_get_set_eq in Hk. injection Hk as <-.
           split; [exact Hitem |].
           rewrite decide_True by exact Hn.
           assert (filter (fun x => Merge.md_module x = Some n) done = []) as ->.
           { clear -Hnew. induction done as [| x done IH]; [reflexivity |].
             rewrite filter_cons. unfold Merge.names in *. simpl in Hnew.
             destruct (Merge.md_module x) as [nx |] eqn:Hx.
             - apply not_elem_of_cons in Hnew as [Hne Hnew].
               rewrite decide_False by congruence. apply IH, Hnew.
             - rewrite decide_False by discriminate. apply IH, Hnew. }
           reflexivity.
        -- rewrite dict_get_set_ne in Hk by auto.
           rewrite decide_False by congruence. rewrite app_nil_r.
           apply Hvals, Hk.
Qed.

Lemma first_occurrences_NoDup l seen : NoDup (Merge.first_occurrences l seen).
Proof.
  revert seen. induction l as [| a l IH]; intros seen; simpl; [constructor |].
  case_bool_decide; [apply IH |]. apply NoDup_cons. split; [| apply IH].
  rewrite first_occurrences_elem, not_elem_of_cons. tauto.
Qed.

Lemma dict_values_by_key {V} (D : list (pystr * V)) (f : pystr -> option V) :
  NoDup (map fst D) ->
  (forall k v, Merge.dict_get D k = Some v -> f k = Some v) ->
  map snd D = omap f (map fst D).
Proof.
  induction D as [| [k v] r IH]; intros Hnd Hf; simpl; [reflexivity |].
  apply NoDup_cons in Hnd as [Hk Hnd].
  rewrite (Hf k v).
  - f_equal. apply IH; [exact Hnd |]. intros k' v' Hg. apply Hf. simpl.
    unfold Extractor.pystr_eqb. rewrite bool_decide_eq_false_2; [exact Hg |].
    intros ->. apply Hk. apply dict_get_elem in Hg.
    apply list_elem_of_fmap. exists (k', v'). auto.
  - simpl. unfold Extractor.pystr_eqb. rewrite bool_decide_eq_true_2; reflexivity.
Qed.

(** X16: [_merge_modules] groups by name and merges each group as
    [_merge_module_results] does: when every item has its three keys, the
    result has one module for every module name, in the order in which the
    names first occur, and the module of a name is the merge of the items
    that bear it. *)
Theorem merge_modules_by_name (all_modules : list Merge.module) :
  Forall Merge.complete all_modules ->
  Merge._merge_modules all_modules
  = Some (omap (fun n => Merge._merge_module_results
                           (filter (fun x => Merge.md_module x = Some n) all_modules))
               (Merge.first_occurrences (Merge.names all_modules) [])).
Proof.
  intros Hall. destruct (merge_items_spec all_modules Hall) as (D & HD & Hkeys & Hvals).
  unfold Merge._merge_modules. rewrite HD, <- Hkeys. f_equal.
  apply dict_values_by_key.
  - rewrite Hkeys. apply first_occurrences_NoDup.
  - intros k v Hg. apply Hvals, Hg.
Qed.

Lemma merge_modules_by_name_witness :
  Forall Merge.complete [Samples.billing_short; Samples.users; Samples.billing_long] /\
  Merge._merge_modules [Samples.billing_short; Samples.users; Samples.billing_long]
  = Some (omap (fun n => Merge._merge_module_results
                           (filter (fun x => Merge.md_module x = Some n)
                              [Samples.billing_short; Samples.users;
                               Samples.billing_long]))
               (Merge.first_occurrences
                  (Merge.names [Samples.billing_short; Samples.users;
                                Samples.billing_long]) [])).
Proof.
  assert (Forall Merge.complete
            [Samples.billing_short; Samples.users; Samples.billing_long]) as H
    by (repeat constructor; simpl; eauto).
  split; [exact H |].
  exact (merge_modules_by_name _ H).
Defined.

Lemma merge_items_distinct D all_modules :
  Forall (fun m => is_Some (Merge.md_module m)) all_modules ->
  NoDup (map fst D ++ Merge.names all_modules) ->
  exists D', Merge.merge_items D all_modules = Some D' /\
             map snd D' = map snd D ++ all_modules.
Proof.
  revert D. induction all_modules as [| m rest IH]; intros D Hall Hnd.
  - exists D. simpl. rewrite app_nil_r. auto.
  - apply Forall_cons in Hall as [[n Hn] Hall].
    unfold Merge.names in Hnd. simpl in Hnd. rewrite Hn in Hnd.
    assert (Merge.dict_get D n = None) as Hg.
    { apply dict_get_None_keys. intros Hin.
      apply NoDup_app in Hnd as (_ & Hd & _). apply (Hd n Hin). left. }
    simpl. unfold Merge.merge_item. rewrite Hn, Hg.
    destruct (IH (Merge.dict_set D n m) Hall) as (D' & HD' & Hv).
    + rewrite (dict_set_keys_new _ _ _ Hg), <- app_assoc. exact Hnd.
    + exists D'. split; [exact HD' |]. rewrite Hv.
      assert (map snd (Merge.dict_set D n m) = map snd D ++ [m]) as ->.
      { clear -Hg. induction D as [| [k v] r IHr]; simpl in *; [reflexivity |].
        destruct (Extractor.pystr_eqb k n); [discriminate |].
        simpl. rewrite IHr by exact Hg. reflexivity. }
      rewrite <- app_assoc. reflexivity.
Qed.

Lemma merge_modules_distinct all_modules :
  Forall (fun m => is_Some (Merge.md_module m)) all_modules ->
  NoDup (Merge.names all_modules) ->
  Merge._merge_modules all_modules = Some all_modules.
Proof.
  intros Hall Hnd.
  destruct (merge_items_distinct [] all_modules Hall Hnd) as (D' & HD' & Hv).
  unfold Merge._merge_modules. rewrite HD', Hv. reflexivity.
Qed.

(** X17: modules whose names differ pass [_merge_modules] untouched: the
    result is the input list, in its order, also when descriptions or
    submodules are missing. *)
Theorem merge_modules_distinct_names (all_modules : list Merge.module) :
  Forall (fun m => is_Some (Merge.md_module m)) all_modules ->
  NoDup (Merge.names all_modules) ->
  Merge._merge_modules all_modules = Some all_modules.
Proof.
  apply merge_modules_distinct.
Qed.

Lemma merge_modules_distinct_names_witness :
  Forall (fun m => is_Some (Merge.md_module m)) [Samples.billing_short; Samples.users] /\
  NoDup (Merge.names [Samples.billing_short; Samples.users]) /\
  Merge._merge_modules [Samples.billing_short; Samples.users]
  = Some [Samples.billing_short; Samples.users].
Proof.
  assert (Forall (fun m => is_Some (Merge.md_module m))
            [Samples.billing_short; Samples.users]) as H1
    by (repeat constructor; simpl; eauto).
  assert (NoDup (Merge.names [Samples.billing_short; Samples.users])) as H2
    by (apply (bool_decide_unpack _); vm_compute; exact I).
  split; [exact H1 |]. split; [exact H2 |].
  exact (merge_modules_distinct_names _ H1 H2).
Defined.

Lemma merge_items_None_absorbs D all_modules :
  (exists m, m ∈ all_modules /\ Merge.md_module m = None) ->
  Merge.merge_items D all_modules = None.
Proof.
  revert D. induction all_modules as [| x rest IH]; intros D (m & Hin & Hm).
  - apply elem_of_nil in Hin. contradiction.
  - simpl. apply elem_of_cons in Hin as [<- | Hin].
    + unfold Merge.merge_item. rewrite Hm. reflexivity.
    + destruct (Merge.merge_item D x); [| reflexivity].
      apply IH. exists m. auto.
Qed.

(** X18: an item without the key [module] makes [_merge_modules] raise
    [KeyError], wherever in the list it stands. *)
Theorem merge_modules_missing_name (all_modules : list Merge.module)
    (m : Merge.module) :
  m ∈ all_modules -> Merge.md_module m = None ->
  Merge._merge_modules all_modules = None.
Proof.
  intros Hin Hm. unfold Merge._merge_modules.
  rewrite merge_items_None_absorbs; [reflexivity |]. exists m. auto.
Qed.

Lemma merge_modules_missing_name_witness :
  Samples.nameless ∈ [Samples.billing_short; Samples.nameless] /\
  Merge.md_module Samples.nameless = None /\
  Merge._merge_modules [Samples.billing_short; Samples.nameless] = None.
Proof.
  assert (Samples.nameless ∈ [Samples.billing_short; Samples.nameless]) as H1
    by (right; left).
  assert (Merge.md_module Samples.nameless = None) as H2 by reflexivity.
  split; [exact H1 |]. split; [exact H2 |].
  exact (merge_modules_missing_name _ _ H1 H2).
Defined.

Lemma fold_merge_result_name rest first :
  Merge.md_module (fold_left Merge.merge_result rest first) = Merge.md_module first.
Proof.
  revert first. induction rest as [| r rest IH]; intros first; simpl; [reflexivity |].
  rewrite IH. destruct (merge_result_spec first r) as ((H & _) & _). exact H.
Qed.

(** X19: [_merge_modules] is idempotent: applied to its own result, it gives
    that result back. *)
Theorem merge_modules_idempotent (all_modules out : list Merge.module) :
  Forall Merge.complete all_modules ->
  Merge._merge_modules all_modules = Some out ->
  Merge._merge_modules out = Some out.
Proof.
  intros Hall Hout.
  destruct (merge_items_spec all_modules Hall) as (D & HD & Hkeys & Hvals).
  unfold Merge._merge_modules in Hout. rewrite HD in Hout. injection Hout as <-.
  assert (NoDup (map fst D)) as Hnd by (rewrite Hkeys; apply first_occurrences_NoDup).
  assert (forall k m, (k, m) ∈ D -> Merge.md_module m = Some k) as Hname.
  { intros k m Hin. apply dict_get_In in Hin; [| exact Hnd].
    destruct (Hvals k m Hin) as [_ Hm].
    destruct (filter _ all_modules) as [| first rest] eqn:Hf; [discriminate |].
    simpl in Hm. injection Hm as <-. rewrite fold_merge_result_name.
    assert (first ∈ filter (fun x => Merge.md_module x = Some k) all_modules) as Hfirst
      by (rewrite Hf; left).
    apply list_elem_of_filter in Hfirst. tauto. }
  assert (Merge.names (map snd D) = map fst D) as Hn.
  { clear -Hname. unfold Merge.names. induction D as [| [k m] r IH]; [reflexivity |].
    simpl. rewrite (Hname k m) by left. f_equal. apply IH.
    intros k' m' Hin. apply Hname. right. exact Hin. }
  apply merge_modules_distinct.
  - apply Forall_forall. intros m Hm. apply list_elem_of_fmap in Hm as ([k m'] & -> & Hin).
    simpl. rewrite (Hname k m' Hin). eauto.
  - rewrite Hn. exact Hnd.
Qed.

Lemma merge_modules_idempotent_witness :
  Forall Merge.complete [Samples.billing_short; Samples.users; Samples.billing_long] /\
  Merge._merge_modules [Samples.billing_short; Samples.users; Samples.billing_long]
  = Some [Samples.billing_merged; Samples.users] /\
  Merge._merge_modules [Samples.billing_merged; Samples.users]
  = Some [Samples.billing_merged; Samples.users].
Proof.
  assert (Forall Merge.complete
            [Samples.billing_short; Samples.users; Samples.billing_long]) as H1
    by (repeat constructor; simpl; eauto).
  assert (Merge._merge_modules
            [Samples.billing_short; Samples.users; Samples.billing_long]
          = Some [Samples.billing_merged; Samples.users]) as H2
    by (vm_compute; reflexivity).
  split; [exact H1 |]. split; [exact H2 |].
  exact (merge_modules_idempotent _ _ H1 H2).
Defined.

(** ** The frontier is kept in breadth-first order *)

Lemma level_order_step u d rest new :
  CrawlInv.level_order ((u, d) :: rest) ->
  (forall x dx, (x, dx) ∈ new -> dx = d + 1) ->
  CrawlInv.level_order (rest ++ new).
Proof.
  intros [Hs Hb] Hnew.
  inversion Hs as [| ? ? Hrest Hall]; subst.
  assert (forall a, a ∈ rest ++ new -> d <= snd a <= d + 1) as Hrange.
  { intros [x dx] Ha. simpl. apply elem_of_app in Ha as [Ha | Ha].
    - split.
      + rewrite List.Forall_forall in Hall.
        apply (Hall (x, dx)). apply list_elem_of_In, Ha.
      + apply (Hb (u, d) (x, dx)); [left | right; exact Ha].
    - rewrite (Hnew x dx Ha). lia. }
  split.
  - apply strongly_sorted_app; [exact Hrest | |].
    + apply (constant_key_sorted snd (d + 1)). intros [x dx] Hx. simpl.
      apply (Hnew x). apply list_elem_of_In, Hx.
    + intros [x dx] [y dy] Ha Hb'. simpl.
      apply list_elem_of_In in Ha, Hb'.
      rewrite (Hnew y dy Hb').
      apply (Hb (u, d) (x, dx)); [left | right; exact Ha].
  - intros a b Ha Hb'. pose proof (Hrange a Ha). pose proof (Hrange b Hb'). lia.
Qed.

Lemma crawl_state_level_order E n c :
  queue_inv c -> CrawlInv.level_order (queue c) ->
  CrawlInv.level_order (queue (crawl_state E n c)).
Proof.
  revert c. induction n as [| n IH]; intros c Hq Hl; simpl; [exact Hl |].
  destruct (loop_cond c) eqn:Hc; [| exact Hl].
  apply IH; [apply crawl_iter_queue_inv, Hq |].
  destruct (crawl_iter_effect E c Hq (loop_cond_queue c Hc))
    as (u & d & rest & links & new & Hqu & _ & _ & _ & _ & Hq' & Hnew & _).
  rewrite Hq'. rewrite Hqu in Hl. apply (level_order_step u d); [exact Hl |].
  intros x dx Hx. apply Hnew in Hx. tauto.
Qed.

(** X20: the crawl is breadth first: at every point of the loop the depths
    along the frontier never go down, and no two of them differ by more than
    one, so every page queued at one depth is dequeued before any page
    queued one level deeper. *)
Theorem frontier_breadth_first (E : env) (max_pages max_depth : Z)
    (start_url : string) (n : nat) :
  StronglySorted (fun a b => snd a <= snd b)
    (queue (CrawlInv.reached E max_pages max_depth start_url n)) /\
  forall a b,
    a ∈ queue (CrawlInv.reached E max_pages max_depth start_url n) ->
    b ∈ queue (CrawlInv.reached E max_pages max_depth start_url n) ->
    snd b <= snd a + 1.
Proof.
  apply crawl_state_level_order; [apply crawl_init_queue_inv |].
  split.
  - simpl. repeat constructor.
  - simpl. intros a b Ha Hb. apply list_elem_of_singleton in Ha, Hb. subst. simpl. lia.
Qed.

(** ** The start URL is a root of the hierarchy *)

Lemma crawl_state_start_no_child E start_url n c :
  queue_inv c -> CrawlInv.crawl_inv E start_url c ->
  (forall k l, url_hierarchy c !! k = Some l -> start_url ∉ l) ->
  forall k l, url_hierarchy (crawl_state E n c) !! k = Some l -> start_url ∉ l.
Proof.
  revert c. induction n as [| n IH]; intros c Hq Hi Hc; simpl; [exact Hc |].
  destruct (loop_cond c) eqn:Hl; [| exact Hc].
  apply IH.
  - apply crawl_iter_queue_inv, Hq.
  - apply crawl_iter_inv; [exact Hq | apply loop_cond_queue, Hl | exact Hi].
  - destruct (crawl_iter_effect E c Hq (loop_cond_queue c Hl))
      as (u & d & rest & links & new & Hqu & Hu & _ & _ & _ & _ & _ & _ & _ & _
          & Hh & _).
    destruct Hi as (_ & _ & I3 & _).
    intros k l Hk Hin.
    destruct (Hh k l start_url Hk Hin) as [(l0 & Hl0 & Hin0) | (-> & _ & _ & Hne & Hnv)].
    + apply (Hc k l0 Hl0 Hin0).
    + destruct I3 as [Hv | Hq1]; [contradiction |].
      rewrite Hq1 in Hqu. injection Hqu as Hu' _ _. congruence.
Qed.

(** X21: no page is ever recorded with the start URL as its child: in the
    hierarchy the crawl builds, the start URL can only be a parent. *)
Theorem start_url_never_child (E : env) (max_pages max_depth : Z)
    (start_url : string) (n : nat) (k : string) (l : list string) :
  url_hierarchy (CrawlInv.reached E max_pages max_depth start_url n) !! k = Some l ->
  start_url ∉ l.
Proof.
  apply crawl_state_start_no_child.
  - apply crawl_init_queue_inv.
  - apply crawl_init_inv.
  - simpl. intros k' l' H. rewrite lookup_empty in H. discriminate.
Qed.

Lemma start_url_never_child_witness :
  url_hierarchy (CrawlInv.reached (Examples.E Examples.site_abc) 10 2 Examples.url_a 2)
    !! Examples.url_b = Some [Examples.url_c] /\
  (Examples.url_a ∉ [Examples.url_c]).
Proof.
  assert (url_hierarchy
            (CrawlInv.reached (Examples.E Examples.site_abc) 10 2 Examples.url_a 2)
            !! Examples.url_b = Some [Examples.url_c]) as H
    by (vm_compute; reflexivity).
  split; [exact H |].
  exact (start_url_never_child _ _ _ _ _ _ _ H).
Defined.

(** ** [validate_urls] *)

Lemma lstrip_fixed s :
  match s with [] => True | c :: _ => isspace c = false end -> lstrip s = s.
Proof. destruct s as [| c r]; simpl; [reflexivity |]. intros ->. reflexivity. Qed.

Lemma lstrip_head s :
  match lstrip s with [] => True | c :: _ => isspace c = false end.
Proof.
  induction s as [| c r IH]; simpl; [exact I |].
  destruct (isspace c) eqn:Hc; [exact IH | exact Hc].
Qed.

Lemma lstrip_snoc l c : isspace c = false -> lstrip (l ++ [c]) = lstrip l ++ [c].
Proof.
  intros Hc. induction l as [| a l IH]; simpl; [rewrite Hc; reflexivity |].
  destruct (isspace a); [exact IH | reflexivity].
Qed.

Lemma rstrip_cons c r : isspace c = false -> rstrip (c :: r) = c :: rstrip r.
Proof.
  intros Hc. unfold rstrip. simpl. rewrite lstrip_snoc by exact Hc.
  rewrite rev_app_distr. reflexivity.
Qed.

Lemma strip_head s :
  match strip s with [] => True | c :: _ => isspace c = false end.
Proof.
  unfold strip. pose proof (lstrip_head s) as H.
  destruct (lstrip s) as [| c r]; [exact I |].
  rewrite rstrip_cons by exact H. exact H.
Qed.

Lemma strip_idempotent s : strip (strip s) = strip s.
Proof.
  unfold strip at 1. rewrite (lstrip_fixed (strip s)) by apply strip_head.
  unfold strip, rstrip. rewrite rev_involutive.
  rewrite (lstrip_fixed (lstrip _)) by apply lstrip_head. reflexivity.
Qed.

Lemma validate_fold urls valid invalid :
  fold_left App.validate_url urls (valid, invalid)
  = (valid ++ List.filter App.has_http_scheme (map strip urls),
     invalid ++ List.filter (fun u => Extractor.truthy u && negb (App.has_http_scheme u))
                  (map strip urls)).
Proof.
  revert valid invalid. induction urls as [| u urls IH]; intros valid invalid; simpl.
  - rewrite !app_nil_r. reflexivity.
  - destruct (strip u) as [| c r] eqn:Hs.
    + simpl. apply IH.
    + cbn [Extractor.truthy negb]. destruct (App.has_http_scheme (c :: r)); simpl.
      * rewrite IH, <- app_assoc. reflexivity.
      * rewrite IH, <- app_assoc. reflexivity.
Qed.

(** X22: [validate_urls] strips every URL, drops the blank ones and sorts the
    others, in the order given, into those that start with [http://] or
    [https://] and those that do not; validating the valid ones again
    accepts them all as they are. *)
Theorem validate_urls_partition (urls : list pystr) :
  fst (App.validate_urls urls)
  = List.filter App.has_http_scheme (map strip urls) /\
  snd (App.validate_urls urls)
  = List.filter (fun u => Extractor.truthy u && negb (App.has_http_scheme u))
      (map strip urls) /\
  (length (fst (App.validate_urls urls)) + length (snd (App.validate_urls urls))
   = length (List.filter (fun u => Extractor.truthy (strip u)) urls))%nat /\
  App.validate_urls (fst (App.validate_urls urls))
  = (fst (App.validate_urls urls), []).
Proof.
  unfold App.validate_urls. rewrite !validate_fold. simpl.
  split; [reflexivity |]. split; [reflexivity |]. split.
  - induction urls as [| u urls IH]; simpl; [reflexivity |].
    destruct (strip u) as [| c r]; [exact IH |].
    cbn [Extractor.truthy andb]. destruct (App.has_http_scheme (c :: r)); simpl; lia.
  - induction urls as [| u urls IH]; simpl; [reflexivity |].
    destruct (App.has_http_scheme (strip u)) eqn:Hh; [| exact IH].
    simpl. rewrite strip_idempotent, Hh.
    injection IH as IH1 IH2. rewrite IH1, IH2, andb_false_r. reflexivity.
Qed.
